(** * namemaker: the NameSet class of [src/namemaker/__init__.py]

    A shallow embedding of the Markov-chain name generator and of the
    properties its specification states about it.

    Modelling conventions.
    - Python objects live in a store: a name-set is a location of [objs],
      a history set is a location of [hists]; [link_histories] makes
      several name-sets hold the same history location.  The list, set and
      dict held in [_names], [_names_set] and [_markov_dict] are kept by
      value inside the object: a store stands for a heap in which no two
      name-sets share one of these.  ([__iadd__] with a name-set operand
      stores the operand's own letter lists under the keys it did not
      have; what a later mutation through one of the two does to the other
      is not followed here, and no statement below is about it.)
    - Methods are computations of the monad [M]: they take the store, and
      return an outcome ([Ok], [Raise] for a Python exception, [Diverge]
      for a [while True] loop cut by its step bound) with the store as it
      is at that point, so that a method that raises half-way leaves the
      fields it had already assigned.
    - Numbers are exact rationals ([Q], compared with [==]); the rounding
      of binary floating point is not modelled.
    - A name is a [string]; the end marker [_END] of a chain is [None] in
      a list of [option ascii]. *)

From Stdlib Require Import QArith Qabs Ascii String.
From stdpp Require Import gmap strings list fin_maps.

(** ** Outcomes, exceptions, warnings *)

Inductive exn :=
  | ValueError | TypeError | KeyError | IndexError | ZeroDivisionError
  | ReferenceError (* reading a location that holds no object; no Python program does *).

Inductive result (A : Type) :=
  | Ok (a : A)
  | Raise (e : exn)
  | Diverge.
Arguments Ok {A} a.
Arguments Raise {A} e.
Arguments Diverge {A}.

Inductive warning := OrderWarning | NameLenWarning | CopyWarning.

(** ** Length metrics

    [name_len_func] is a Python function object: [lf_id] stands for its
    identity (what [is] compares), [lf_call] for what it computes. *)

Record len_func := { lf_id : nat; lf_call : string → Q }.

Definition nat_Q (n : nat) : Q := inject_Z (Z.of_nat n).

Definition len (s : string) : Q := nat_Q (String.length s).

Definition DEFAULT_MAX_ATTEMPTS : nat := 1000.
Definition DEFAULT_N_CANDIDATES : nat := 2.
Definition DEFAULT_ORDER : Q := 3%Q.
Definition DEFAULT_NAME_LEN_FUNC : len_func := {| lf_id := 0; lf_call := len |}.
Definition MIN : Z := 0.
Definition MAX : Z := 1.
Definition AVG : Z := 2.
Definition _END : option ascii := None.

(** [f is g] *)
Definition func_is (f g : len_func) : bool := Nat.eqb (lf_id f) (lf_id g).

(** ** The store *)

Definition loc := nat.

Record NameSet := mkNameSet {
  _names : list string;
  _names_set : gset string;
  _order : nat;
  _name_len_func : len_func;
  _avg_name_len : Q;
  _markov_dict : gmap string (list (option ascii));
  _history : loc;
  _in_operation : bool }.

Record World := mkWorld {
  objs : gmap loc NameSet;          (* name-set objects *)
  hists : gmap loc (gset string);   (* history set objects *)
  banned_words : gset string;       (* the module's global *)
  rng_draws : nat → nat;            (* the module's rng: its draws, in order *)
  rng_pos : nat;                    (* how many draws were made *)
  warnings : list warning }.        (* warnings issued so far *)

Definition set_names (v : list string) (ns : NameSet) : NameSet :=
  mkNameSet v (_names_set ns) (_order ns) (_name_len_func ns) (_avg_name_len ns)
            (_markov_dict ns) (_history ns) (_in_operation ns).
Definition set_names_set (v : gset string) (ns : NameSet) : NameSet :=
  mkNameSet (_names ns) v (_order ns) (_name_len_func ns) (_avg_name_len ns)
            (_markov_dict ns) (_history ns) (_in_operation ns).
Definition set_order (v : nat) (ns : NameSet) : NameSet :=
  mkNameSet (_names ns) (_names_set ns) v (_name_len_func ns) (_avg_name_len ns)
            (_markov_dict ns) (_history ns) (_in_operation ns).
Definition set_name_len_func (v : len_func) (ns : NameSet) : NameSet :=
  mkNameSet (_names ns) (_names_set ns) (_order ns) v (_avg_name_len ns)
            (_markov_dict ns) (_history ns) (_in_operation ns).
Definition set_avg_name_len (v : Q) (ns : NameSet) : NameSet :=
  mkNameSet (_names ns) (_names_set ns) (_order ns) (_name_len_func ns) v
            (_markov_dict ns) (_history ns) (_in_operation ns).
Definition set_markov_dict (v : gmap string (list (option ascii))) (ns : NameSet) : NameSet :=
  mkNameSet (_names ns) (_names_set ns) (_order ns) (_name_len_func ns) (_avg_name_len ns)
            v (_history ns) (_in_operation ns).
Definition set_history (v : loc) (ns : NameSet) : NameSet :=
  mkNameSet (_names ns) (_names_set ns) (_order ns) (_name_len_func ns) (_avg_name_len ns)
            (_markov_dict ns) v (_in_operation ns).
Definition set_in_operation (v : bool) (ns : NameSet) : NameSet :=
  mkNameSet (_names ns) (_names_set ns) (_order ns) (_name_len_func ns) (_avg_name_len ns)
            (_markov_dict ns) (_history ns) v.

Definition with_objs (v : gmap loc NameSet) (w : World) : World :=
  mkWorld v (hists w) (banned_words w) (rng_draws w) (rng_pos w) (warnings w).
Definition with_hists (v : gmap loc (gset string)) (w : World) : World :=
  mkWorld (objs w) v (banned_words w) (rng_draws w) (rng_pos w) (warnings w).
Definition with_banned_words (v : gset string) (w : World) : World :=
  mkWorld (objs w) (hists w) v (rng_draws w) (rng_pos w) (warnings w).
Definition with_rng_pos (v : nat) (w : World) : World :=
  mkWorld (objs w) (hists w) (banned_words w) (rng_draws w) v (warnings w).
Definition with_warnings (v : list warning) (w : World) : World :=
  mkWorld (objs w) (hists w) (banned_words w) (rng_draws w) (rng_pos w) v.

(** ** The monad of methods *)

Definition M (A : Type) : Type := World → result A * World.

#[global] Instance M_ret : MRet M := λ A a w, (Ok a, w).
#[global] Instance M_bind : MBind M := λ A B f m w,
  match m w with
  | (Ok a, w') => f a w'
  | (Raise e, w') => (Raise e, w')
  | (Diverge, w') => (Diverge, w')
  end.

Definition raise {A} (e : exn) : M A := λ w, (Raise e, w).
Definition diverge {A} : M A := λ w, (Diverge, w).

Definition get_obj (l : loc) : M NameSet := λ w,
  match objs w !! l with
  | Some ns => (Ok ns, w)
  | None => (Raise ReferenceError, w)
  end.

Definition modify_obj (l : loc) (f : NameSet → NameSet) : M unit := λ w,
  match objs w !! l with
  | Some ns => (Ok tt, with_objs (<[l := f ns]> (objs w)) w)
  | None => (Raise ReferenceError, w)
  end.

Definition alloc_obj (ns : NameSet) : M loc := λ w,
  let l := fresh (dom (objs w)) in (Ok l, with_objs (<[l := ns]> (objs w)) w).

Definition get_hist (h : loc) : M (gset string) := λ w,
  match hists w !! h with
  | Some s => (Ok s, w)
  | None => (Raise ReferenceError, w)
  end.

Definition put_hist (h : loc) (s : gset string) : M unit := λ w,
  match hists w !! h with
  | Some _ => (Ok tt, with_hists (<[h := s]> (hists w)) w)
  | None => (Raise ReferenceError, w)
  end.

Definition alloc_hist (s : gset string) : M loc := λ w,
  let h := fresh (dom (hists w)) in (Ok h, with_hists (<[h := s]> (hists w)) w).

Definition get_banned_words : M (gset string) := λ w, (Ok (banned_words w), w).

Definition put_banned_words (s : gset string) : M unit := λ w,
  (Ok tt, with_banned_words s w).

Definition warn (c : warning) : M unit := λ w,
  (Ok tt, with_warnings (warnings w ++ [c]) w).

(** [a / b] *)
Definition pydiv (a b : Q) : M Q :=
  if Qeq_bool b 0 then raise ZeroDivisionError else mret (a / b)%Q.

(** [for x in l: body(x)] over a list that the body cannot change *)
Fixpoint for_each {A} (l : list A) (body : A → M unit) : M unit :=
  match l with
  | [] => mret tt
  | x :: l' => body x;; for_each l' body
  end.

(** ** Pure parts: numbers, lists, the chain table *)

(** [int(x)]: truncation towards zero *)
Definition py_int (x : Q) : Z := Z.quot (Qnum x) (Z.pos (Qden x)).

(** [sum(l)] *)
Definition sum (l : list Q) : Q := fold_left Qplus l 0%Q.

(** [l.remove(x)] on a list that contains [x] *)
Fixpoint remove_first {A} `{EqDecision A} (x : A) (l : list A) : list A :=
  match l with
  | [] => []
  | y :: l' => if decide (x = y) then l' else y :: remove_first x l'
  end.

(** number of occurrences of [x] in [l] *)
Fixpoint count {A} `{EqDecision A} (x : A) (l : list A) : nat :=
  match l with
  | [] => 0
  | y :: l' => (if decide (x = y) then 1 else 0) + count x l'
  end.

(** [s[1:]] *)
Definition tail_str (s : string) : string :=
  match s with
  | EmptyString => EmptyString
  | String _ s' => s'
  end.

(** [try: d[k].append(x)  except KeyError: d[k] = [x]] *)
Definition dict_append (d : gmap string (list (option ascii))) (k : string)
    (x : option ascii) : gmap string (list (option ascii)) :=
  match d !! k with
  | Some l => <[k := l ++ [x]]> d
  | None => <[k := [x]]> d
  end.

(** [previous_letter += letter], cut to the last [order] characters *)
Definition push_letter (order : nat) (previous_letter : string) (letter : ascii) : string :=
  let previous_letter := previous_letter +:+ String letter EmptyString in
  if bool_decide (order < String.length previous_letter)%nat
  then tail_str previous_letter else previous_letter.

(** the body of the loop of [_make_markov_dict] for one name *)
Fixpoint markov_add_name (order : nat) (d : gmap string (list (option ascii)))
    (previous_letter : string) (name : string) : gmap string (list (option ascii)) :=
  match name with
  | EmptyString => dict_append d previous_letter _END
  | String letter rest =>
      markov_add_name order (dict_append d previous_letter (Some letter))
                      (push_letter order previous_letter letter) rest
  end.

Definition make_markov_dict (names : list string) (order : nat)
    : gmap string (list (option ascii)) :=
  fold_left (λ d name, markov_add_name order d "" name) names ∅.

(** the table merge that ends [__iadd__]: [d[k] += v] when [k] is in [d],
    [d[k] = v] otherwise *)
Definition merge_dicts (d other : gmap string (list (option ascii)))
    : gmap string (list (option ascii)) :=
  union_with (λ l v, Some (l ++ v)) d other.

(** [for letter in remove_letters: l.remove(letter)]: how the loop ends,
    and the list as it is then ([list.remove] raises [ValueError] for a
    letter that is not there, after the letters before it were removed) *)
Fixpoint list_remove_all (letters l : list (option ascii))
    : result unit * list (option ascii) :=
  match letters with
  | [] => (Ok tt, l)
  | letter :: letters' =>
      if bool_decide (letter ∈ l)
      then list_remove_all letters' (remove_first letter l)
      else (Raise ValueError, l)
  end.

(** [for letter in remove_letters: d[key].remove(letter)], then
    [if not d[key]: del d[key]], as [remove] does for one key: how it ends,
    and the table as it is then *)
Definition dict_remove_letters (d : gmap string (list (option ascii))) (key : string)
    (remove_letters : list (option ascii))
    : result unit * gmap string (list (option ascii)) :=
  match d !! key with
  | None => (Raise KeyError, d)
  | Some l =>
      match list_remove_all remove_letters l with
      | (Ok _, []) => (Ok tt, delete key d)
      | (outcome, l') => (outcome, <[key := l']> d)
      end
  end.

(** the loop of [__iand__]: the names of [names] that are still in
    [other_names_list], each use removing one occurrence there *)
Fixpoint shared_names (names other_names_list : list string) : list string :=
  match names with
  | [] => []
  | name :: names' =>
      if bool_decide (name ∈ other_names_list)
      then name :: shared_names names' (remove_first name other_names_list)
      else shared_names names' other_names_list
  end.

(** ** The right operand of an operator, the argument of [add_to_history] *)

Inductive operand :=
  | OStr (s : string)             (* a bare [str] *)
  | ONameSet (o : loc)            (* a [NameSet] *)
  | OColl (names : list string).  (* a list, set or tuple: its items as iterated *)

Definition chars (s : string) : list string :=
  (λ c, String c EmptyString) <$> list_ascii_of_string s.

(** ** NameSet *)

Definition order_Q (ns : NameSet) : Q := nat_Q (_order ns).

Definition _update_avg_name_len (self : loc) : M unit :=
  ns ← get_obj self;
  match _names ns with
  | _ :: _ =>
      avg ← pydiv (sum (lf_call (_name_len_func ns) <$> _names ns))
                  (nat_Q (length (_names ns)));
      modify_obj self (set_avg_name_len avg)
  | [] => modify_obj self (set_avg_name_len 0%Q)
  end.

Definition _make_markov_dict (self : loc) : M unit :=
  modify_obj self (λ ns, set_markov_dict (make_markov_dict (_names ns) (_order ns)) ns).

(** [NameSet(names, order, name_len_func)].  [order] is any Python number;
    once checked it is kept as a natural number. *)
Definition __init__ (names : list string) (order : Q) (name_len_func : len_func) : M loc :=
  if negb (Qeq_bool (inject_Z (py_int order)) order) then raise ValueError
  else if negb (Qle_bool 0 order) then raise ValueError
  else
    history ← alloc_hist ∅;
    self ← alloc_obj {| _names := names;
                        _names_set := list_to_set names;
                        _order := Z.to_nat (py_int order);
                        _name_len_func := name_len_func;
                        _avg_name_len := 0%Q;
                        _markov_dict := ∅;
                        _history := history;
                        _in_operation := false |};
    _update_avg_name_len self;;
    _make_markov_dict self;;
    mret self.

Definition copy (self : loc) : M loc :=
  ns ← get_obj self;
  copy_set ← __init__ [] (order_Q ns) (_name_len_func ns);
  modify_obj copy_set (set_names (_names ns));;
  modify_obj copy_set (set_names_set (_names_set ns));;
  modify_obj copy_set (set_markov_dict (_markov_dict ns));;
  modify_obj copy_set (set_avg_name_len (_avg_name_len ns));;
  h ← get_hist (_history ns);
  history ← alloc_hist h;
  modify_obj copy_set (set_history history);;
  mret copy_set.

Definition change_order (self : loc) (order : Q) : M unit :=
  if negb (Qeq_bool (inject_Z (py_int order)) order) then raise ValueError
  else if negb (Qle_bool 0 order) then raise ValueError
  else
    modify_obj self (set_order (Z.to_nat (py_int order)));;
    _make_markov_dict self.

Definition change_name_len_func (self : loc) (name_len_func : len_func) : M unit :=
  modify_obj self (set_name_len_func name_len_func);;
  _update_avg_name_len self.

Definition get_order (self : loc) : M nat := ns ← get_obj self; mret (_order ns).
Definition get_name_len_func (self : loc) : M len_func :=
  ns ← get_obj self; mret (_name_len_func ns).
Definition get_avg_name_len (self : loc) : M Q := ns ← get_obj self; mret (_avg_name_len ns).
Definition get_history (self : loc) : M (gset string) :=
  ns ← get_obj self; get_hist (_history ns).

(** [name in self] *)
Definition __contains__ (self : loc) (item : string) : M bool :=
  ns ← get_obj self; mret (bool_decide (item ∈ _names_set ns)).

(** [len(self)] *)
Definition __len__ (self : loc) : M nat := ns ← get_obj self; mret (length (_names ns)).

(** [list(other)]: the items of an operand, read in one go *)
Definition operand_names (other : operand) : M (list string) :=
  match other with
  | OStr s => mret (chars s)
  | ONameSet o => ns ← get_obj o; mret (_names ns)
  | OColl names => mret names
  end.

(** [for name in name_set: body(name)] through [_NameSetIterator], which
    reads [name_set._names] by index at every step.  [steps] is the length
    of the list when the loop starts: no loop body of this class makes the
    list longer, so the index is past the end after that many steps. *)
Fixpoint iter_name_set (steps : nat) (name_set : loc) (index : nat)
    (body : string → M unit) : M unit :=
  match steps with
  | 0 => mret tt
  | S steps' =>
      ns ← get_obj name_set;
      match _names ns !! index with
      | Some name => body name;; iter_name_set steps' name_set (S index) body
      | None => mret tt
      end
  end.

(** the first two [if]s of [__iadd__]: a [str] is refused, and anything
    but a name-set is made one, with the order and the metric of [self] *)
Definition as_name_set (self : loc) (other_name_set : operand) : M loc :=
  match other_name_set with
  | OStr _ => raise TypeError
  | ONameSet o => mret o
  | OColl names =>
      ns ← get_obj self;
      __init__ names (order_Q ns) (_name_len_func ns)
  end.

Definition __iadd__ (self : loc) (other_name_set : operand) : M loc :=
  other ← as_name_set self other_name_set;
  ns ← get_obj self;
  o ← get_obj other;
  other ← (if negb (_order ns =? _order o)%nat
           then warn OrderWarning;;
                other' ← copy other;
                change_order other' (order_Q ns);;
                mret other'
           else mret other);
  o ← get_obj other;
  other ← (if negb (func_is (_name_len_func ns) (_name_len_func o))
           then warn NameLenWarning;;
                other' ← copy other;
                change_name_len_func other' (_name_len_func ns);;
                mret other'
           else mret other);
  o ← get_obj other;
  avg ← pydiv (_avg_name_len ns * nat_Q (length (_names ns))
               + _avg_name_len o * nat_Q (length (_names o)))%Q
              (nat_Q (length (_names ns)) + nat_Q (length (_names o)))%Q;
  modify_obj self (set_avg_name_len avg);;
  o ← get_obj other;
  modify_obj self (λ ns, set_names (_names ns ++ _names o) ns);;
  o ← get_obj other;
  modify_obj self (λ ns, set_names_set (_names_set ns ∪ _names_set o) ns);;
  o ← get_obj other;
  modify_obj self (λ ns, set_markov_dict (merge_dicts (_markov_dict ns) (_markov_dict o)) ns);;
  mret self.

Definition append (self : loc) (name : string) : M unit :=
  __iadd__ self (OColl [name]);; mret tt.

Definition add (self : loc) (name : string) : M unit :=
  __contains__ self name ≫= λ is_in : bool,
  if is_in then mret tt else append self name.

Definition remove (self : loc) (name : string) : M unit :=
  ns ← get_obj self;
  (if bool_decide (name ∈ _names ns)
   then modify_obj self (set_names (remove_first name (_names ns)))
   else raise ValueError);;
  ns ← get_obj self;
  (if bool_decide (name ∈ _names ns) then mret tt
   else if bool_decide (name ∈ _names_set ns)
        then modify_obj self (set_names_set (_names_set ns ∖ {[name]}))
        else raise KeyError);;
  remove_name_set ← __init__ [name] (order_Q ns) DEFAULT_NAME_LEN_FUNC;
  r ← get_obj remove_name_set;
  for_each (map_to_list (_markov_dict r)) (λ '(key, remove_letters),
    ns ← get_obj self;
    let '(outcome, d) := dict_remove_letters (_markov_dict ns) key remove_letters in
    modify_obj self (set_markov_dict d);;
    match outcome with
    | Ok _ => mret tt
    | Raise e => raise e
    | Diverge => diverge
    end);;
  ns ← get_obj self;
  let sum_lengths := (_avg_name_len ns * (nat_Q (length (_names ns)) + 1))%Q in
  let sum_lengths := (sum_lengths - len name)%Q in
  avg ← pydiv sum_lengths (nat_Q (length (_names ns)));
  modify_obj self (set_avg_name_len avg).

(** the loop of [remove_duplicates], over the copy [self._names[:]] *)
Fixpoint remove_duplicates_loop (self : loc) (names : list string)
    (names_set : gset string) : M unit :=
  match names with
  | [] => mret tt
  | name :: names' =>
      if bool_decide (name ∈ names_set)
      then remove self name;; remove_duplicates_loop self names' names_set
      else remove_duplicates_loop self names' (names_set ∪ {[name]})
  end.

Definition remove_duplicates (self : loc) : M unit :=
  ns ← get_obj self;
  remove_duplicates_loop self (_names ns) ∅.

(** [if name in self: self.remove(name)] *)
Definition isub_step (self : loc) (name : string) : M unit :=
  __contains__ self name ≫= λ is_in : bool,
  if is_in then remove self name else mret tt.

(** the two warnings of [__isub__], [__ior__] and [__iand__] *)
Definition warn_mismatch (self other : loc) : M unit :=
  ns ← get_obj self;
  o ← get_obj other;
  (if negb (_order ns =? _order o)%nat then warn OrderWarning else mret tt);;
  (if negb (func_is (_name_len_func ns) (_name_len_func o))
   then warn NameLenWarning else mret tt).

(** the first two [if]s of [__isub__], [__ior__] and [__iand__]: a [str]
    is refused, a name-set is compared with [self] for the warnings *)
Definition check_operand (self : loc) (other : operand) : M unit :=
  match other with
  | OStr _ => raise TypeError
  | ONameSet o => warn_mismatch self o
  | OColl _ => mret tt
  end.

(** [for name in other_names: body(name)] *)
Definition for_operand (other_names : operand) (body : string → M unit) : M unit :=
  match other_names with
  | OStr s => for_each (chars s) body
  | ONameSet o => n ← __len__ o; iter_name_set n o 0 body
  | OColl names => for_each names body
  end.

Definition __isub__ (self : loc) (other_names : operand) : M loc :=
  check_operand self other_names;;
  for_operand other_names (isub_step self);;
  mret self.

Definition __ior__ (self : loc) (other_name_set : operand) : M loc :=
  check_operand self other_name_set;;
  other ← operand_names other_name_set;
  ns ← get_obj self;
  let new_names := filter (λ name, name ∉ _names_set ns) other in
  __iadd__ self (OColl new_names);;
  remove_duplicates self;;
  mret self.

Definition __iand__ (self : loc) (other_name_set : operand) : M loc :=
  check_operand self other_name_set;;
  other_names_list ← operand_names other_name_set;
  ns ← get_obj self;
  let shared := shared_names (_names ns) other_names_list in
  modify_obj self (set_names shared);;
  modify_obj self (set_names_set (list_to_set shared));;
  _make_markov_dict self;;
  _update_avg_name_len self;;
  mret self.

(** *** History *)

Definition add_to_history (self : loc) (name_s : operand) : M unit :=
  new ← match name_s with
        | OStr s => mret {[ s ]}
        | _ => names ← operand_names name_s; mret (list_to_set names)
        end;
  ns ← get_obj self;
  h ← get_hist (_history ns);
  put_hist (_history ns) (h ∪ new).

Definition clear_history (self : loc) : M unit :=
  ns ← get_obj self;
  put_hist (_history ns) ∅.

Fixpoint read_histories (name_sets : list loc) : M (list (gset string)) :=
  match name_sets with
  | [] => mret []
  | s :: rest =>
      ns ← get_obj s;
      h ← get_hist (_history ns);
      hs ← read_histories rest;
      mret (h :: hs)
  end.

Definition link_histories (self : loc) (other_name_sets : list loc) : M unit :=
  other_histories ← read_histories other_name_sets;
  ns ← get_obj self;
  h ← get_hist (_history ns);
  shared_history ← alloc_hist (h ∪ ⋃ other_histories);
  modify_obj self (set_history shared_history);;
  for_each other_name_sets (λ s, modify_obj s (set_history shared_history)).

Definition unlink_history (self : loc) : M unit :=
  ns ← get_obj self;
  h ← get_hist (_history ns);
  history ← alloc_hist h;
  modify_obj self (set_history history).

(** *** The operators that return a new name-set *)

Definition binary_op (iop : loc → operand → M loc) (self : loc) (other : operand) : M loc :=
  copy_set ← copy self;
  modify_obj copy_set (set_in_operation true);;
  copy_set ← iop copy_set other;
  clear_history copy_set;;
  modify_obj copy_set (set_in_operation false);;
  mret copy_set.

Definition __add__ : loc → operand → M loc := binary_op __iadd__.
Definition __sub__ : loc → operand → M loc := binary_op __isub__.
Definition __or__ : loc → operand → M loc := binary_op __ior__.
Definition __and__ : loc → operand → M loc := binary_op __iand__.

(** ** Generation *)

(** [try: m  except ...: handler] *)
Definition try_except {A} (m : M A) (handler : exn → option (M A)) : M A := λ w,
  match m w with
  | (Raise e, w') =>
      match handler e with
      | Some k => k w'
      | None => (Raise e, w')
      end
  | r => r
  end.

(** [d[key]] *)
Definition dict_get {V} (d : gmap string V) (key : string) : M V :=
  match d !! key with
  | Some v => mret v
  | None => raise KeyError
  end.

(** [rng.choice(l)]: one item of [l], picked by the next draw *)
Definition choice {A} (l : list A) : M A := λ w,
  match l with
  | [] => (Raise IndexError, w)
  | x :: _ =>
      (Ok (nth (rng_draws w (rng_pos w) mod length l) l x),
       with_rng_pos (S (rng_pos w)) w)
  end.

Definition _get_letter (self : loc) (key : string) : M (option ascii) :=
  try_except
    (ns ← get_obj self;
     letters ← dict_get (_markov_dict ns) key;
     choice letters)
    (λ e, match e with
          | KeyError | IndexError => Some (mret _END)
          | _ => None
          end).

(** the [while True] loop of [_make_name_raw], cut after [fuel] turns *)
Fixpoint _make_name_raw_loop (fuel : nat) (self : loc) (name next_letter_key : string)
    : M string :=
  match fuel with
  | 0 => diverge
  | S fuel' =>
      next_letter ← _get_letter self next_letter_key;
      match next_letter with
      | None => mret name
      | Some letter =>
          ns ← get_obj self;
          _make_name_raw_loop fuel' self (name +:+ String letter EmptyString)
                              (push_letter (_order ns) next_letter_key letter)
      end
  end.

Definition _make_name_raw (fuel : nat) (self : loc) : M string :=
  _make_name_raw_loop fuel self "" "".

(** *** The banned words

    [str.casefold] is modelled on the alphabet of [ascii]: the letters
    [A]..[Z] go to [a]..[z], every other code is kept. *)

Definition casefold_char (c : ascii) : ascii :=
  let n := nat_of_ascii c in
  if (65 <=? n)%nat && (n <=? 90)%nat then ascii_of_nat (n + 32) else c.

Fixpoint casefold (s : string) : string :=
  match s with
  | EmptyString => EmptyString
  | String c s' => String (casefold_char c) (casefold s')
  end.

(** [sub in s] on strings *)
Fixpoint str_in (sub s : string) : bool :=
  String.prefix sub s ||
  match s with
  | EmptyString => false
  | String _ s' => str_in sub s'
  end.

Definition is_clean (name : string) (banned_words : gset string) : bool :=
  let casefolded_name := casefold name in
  forallb (λ word, negb (str_in (casefold word) casefolded_name)) (elements banned_words).

Definition set_banned_words (words : operand) : M unit :=
  match words with
  | OStr _ => raise TypeError
  | _ => names ← operand_names words;
         put_banned_words (list_to_set names)
  end.

Definition add_banned_words (words : operand) : M unit :=
  match words with
  | OStr _ => raise TypeError
  | _ => names ← operand_names words;
         banned ← get_banned_words;
         put_banned_words (banned ∪ list_to_set names)
  end.

(** *** make_name *)

(** the keyword arguments of [make_name] *)
Module kw.
Record t := mk {
  exclude_real_names : bool;
  exclude_history : bool;
  add_to_history : bool;
  n_candidates : nat;
  pref_candidate : Z;
  max_attempts : nat;
  validation_func : option (string → bool) }.

Definition default : t :=
  mk true true true DEFAULT_N_CANDIDATES AVG DEFAULT_MAX_ATTEMPTS None.
End kw.

Definition _PASS_EVERYTHING : string → bool := λ name, true.

(** the expression assigned to [name_valid] *)
Definition name_valid (args : kw.t) (names_set history banned : gset string)
    (name : string) : bool :=
  let validation_func := default _PASS_EVERYTHING (kw.validation_func args) in
  negb (String.eqb name "")
  && validation_func name
  && negb (kw.exclude_real_names args && bool_decide (name ∈ names_set))
  && negb (kw.exclude_history args && bool_decide (name ∈ history))
  && is_clean name banned.

(** [while n_attempts < max_attempts], counted by the attempts left *)
Fixpoint attempt_loop (fuel : nat) (self : loc) (args : kw.t) (attempts_left : nat)
    : M (option string) :=
  match attempts_left with
  | 0 => mret None
  | S attempts_left' =>
      name ← _make_name_raw fuel self;
      ns ← get_obj self;
      history ← get_hist (_history ns);
      banned ← get_banned_words;
      if name_valid args (_names_set ns) history banned name
      then mret (Some name)
      else attempt_loop fuel self args attempts_left'
  end.

(** [for i in range(n_candidates)] *)
Fixpoint candidates_loop (fuel : nat) (self : loc) (args : kw.t) (slots : nat)
    (name_candidates : list string) : M (list string) :=
  match slots with
  | 0 => mret name_candidates
  | S slots' =>
      found ← attempt_loop fuel self args (kw.max_attempts args);
      candidates_loop fuel self args slots'
        (match found with
         | Some name => name_candidates ++ [name]
         | None => name_candidates
         end)
  end.

(** [list.sort(key, reverse = descending)].  The keys are all computed first, as
    CPython does; the sort is stable, and with [reverse] it sorts the
    reversed list and reverses the outcome, which keeps equal keys in
    their first order. *)
Fixpoint insert_by_key (x : Q * string) (l : list (Q * string)) : list (Q * string) :=
  match l with
  | [] => [x]
  | y :: l' => if Qle_bool (x.1) (y.1) then x :: l else y :: insert_by_key x l'
  end.

Definition stable_sort (l : list (Q * string)) : list (Q * string) :=
  foldr insert_by_key [] l.

Definition list_sort (keys : list Q) (l : list string) (descending : bool) : list string :=
  let keyed := zip keys l in
  (if descending then reverse (stable_sort (reverse keyed)) else stable_sort keyed).*2.

Fixpoint map_M {A B} (f : A → M B) (l : list A) : M (list B) :=
  match l with
  | [] => mret []
  | x :: l' => y ← f x; ys ← map_M f l'; mret (y :: ys)
  end.

Definition make_name (fuel : nat) (self : loc) (args : kw.t) : M string :=
  name_candidates ← candidates_loop fuel self args (kw.n_candidates args) [];
  match name_candidates with
  | [] => mret ""
  | _ :: _ =>
      ns ← get_obj self;
      sort_key ←
        (if (kw.pref_candidate args =? AVG)%Z
         then mret (λ name : string,
                pydiv (Qabs (lf_call (_name_len_func ns) name - _avg_name_len ns))
                      (_avg_name_len ns))
         else if (kw.pref_candidate args =? MIN)%Z || (kw.pref_candidate args =? MAX)%Z
         then mret (λ name : string, mret (lf_call (_name_len_func ns) name))
         else raise ValueError);
      keys ← map_M sort_key name_candidates;
      match list_sort keys name_candidates (kw.pref_candidate args =? MAX)%Z with
      | [] => raise IndexError
      | name :: _ =>
          (if kw.add_to_history args then add_to_history self (OStr name) else mret tt);;
          mret name
      end
  end.

(** *** estimate_syllables *)

Definition in_str (c : ascii) (s : string) : bool :=
  bool_decide (c ∈ list_ascii_of_string s).

Definition add_syllable_chars (c : ascii) : option nat :=
  if in_str c "12345689" then Some 1
  else if in_str c "70" then Some 2
  else None.

(** the loop over the letters: the count so far and the syllable section *)
Fixpoint syllables_loop (letters : list ascii) (n_syllables syllable_section : nat) : nat :=
  match letters with
  | [] => n_syllables
  | letter :: rest =>
      match add_syllable_chars letter with
      | Some k => syllables_loop rest (n_syllables + k) syllable_section
      | None =>
          if in_str letter " -" then syllables_loop rest (n_syllables + 1) 1
          else if in_str letter "aeiouyAEIOUY" then
            (if (syllable_section =? 1)%nat then syllables_loop rest n_syllables 2
             else if (syllable_section =? 3)%nat then syllables_loop rest (n_syllables + 1) 2
             else syllables_loop rest n_syllables syllable_section)
          else if in_str letter "bcdfghjklmnpqrstvwxzBCDFGHJKLMNPQRSTVWXZ'" then
            (if (syllable_section =? 2)%nat then syllables_loop rest n_syllables 3
             else syllables_loop rest n_syllables syllable_section)
          else syllables_loop rest n_syllables syllable_section
      end
  end.

Definition estimate_syllables_nat (name : string) : nat :=
  match last (list_ascii_of_string name) with
  | None => 0
  | Some final =>
      let n_syllables := syllables_loop (list_ascii_of_string name) 0 1 in
      if negb (in_str final " -") && negb (bool_decide (is_Some (add_syllable_chars final)))
      then n_syllables + 1 else n_syllables
  end.

Definition estimate_syllables : len_func :=
  {| lf_id := 1; lf_call := λ name, nat_Q (estimate_syllables_nat name) |}.

(** ** The functions of the module: cleaning, [make_name_set]; equality

    A character is an [ascii]: the code points below 256. *)

(** [c.isalnum()] on the code points below 256: the digits, the letters
    of the basic alphabet, and the letters and numbers of Latin-1 *)
Definition isalnum (c : ascii) : bool :=
  let n := nat_of_ascii c in
  (48 <=? n) && (n <=? 57) || (65 <=? n) && (n <=? 90) || (97 <=? n) && (n <=? 122)
  || bool_decide (n ∈ [170; 178; 179; 181; 185; 186; 188; 189; 190])
  || (192 <=? n) && (n <=? 214) || (216 <=? n) && (n <=? 246) || (248 <=? n).

(** [s.lstrip(chars)], on the characters of [s] *)
Fixpoint lstrip (chars : list ascii) (s : list ascii) : list ascii :=
  match s with
  | [] => []
  | c :: s' => if bool_decide (c ∈ chars) then lstrip chars s' else s
  end.

(** [s.strip(chars)] *)
Definition strip (s chars : string) : string :=
  let chars := list_ascii_of_string chars in
  string_of_list_ascii
    (reverse (lstrip chars (reverse (lstrip chars (list_ascii_of_string s))))).

(** the characters of [s] that are not alphanumeric are the ones to strip *)
Definition strip_non_alnum (s : string) : string :=
  let strip_chars :=
    string_of_list_ascii (filter (λ char, isalnum char = false) (list_ascii_of_string s)) in
  strip s strip_chars.

Definition clean_extra_symbols (names : list string) : list string :=
  strip_non_alnum <$> names.

(** [[n for n in names if strip_non_alnum(n) and n not in blank_names]] *)
Definition clean_blanks (names blank_names : list string) : list string :=
  filter (λ n, strip_non_alnum n ≠ EmptyString ∧ n ∉ blank_names) names.

Definition clean (names : list string) : list string :=
  clean_blanks (clean_extra_symbols names) [].

(** [self == other_set]: the attributes of the two objects are compared,
    the history sets by what they hold, the metrics by identity *)
Definition __eq__ (self : loc) (other_set : operand) : M bool :=
  match other_set with
  | ONameSet o =>
      ns ← get_obj self;
      no ← get_obj o;
      h ← get_hist (_history ns);
      ho ← get_hist (_history no);
      mret (bool_decide (_names ns = _names no)
            && bool_decide (_names_set ns = _names_set no)
            && (_order ns =? _order no)%nat
            && func_is (_name_len_func ns) (_name_len_func no)
            && Qeq_bool (_avg_name_len ns) (_avg_name_len no)
            && bool_decide (_markov_dict ns = _markov_dict no)
            && bool_decide (h = ho)
            && Bool.eqb (_in_operation ns) (_in_operation no))
  | _ => mret false
  end.

Section user_functions.

(** [get_names_from_file]: what reading the file of that name gives *)
Variable get_names_from_file : string → M (list string).

(** [make_name_set(names, order, name_len_func, clean_up)]; [names] is a
    file name when it is a [str] *)
Definition make_name_set (names : operand) (order : Q) (name_len_func : len_func)
    (clean_up : bool) : M loc :=
  names ← match names with
          | OStr file_name => get_names_from_file file_name
          | _ => operand_names names
          end;
  let names := if clean_up then clean names else names in
  __init__ names order name_len_func.

End user_functions.

(** * Specifications

    The predicates, relations and functions that the statements are
    written with. *)

(** ** Outcomes of a computation *)

(** [wp m w Q]: the outcome of [m] from [w] and the store it leaves
    satisfy [Q]. *)
Definition wp {A} (m : M A) (w : World) (Q : result A → World → Prop) : Prop :=
  Q (m w).1 (m w).2.

(** what [m ≫= f] needs of the outcome of [m] *)
Definition and_then {A B} (f : A → M B) (Q : result B → World → Prop)
    (r : result A) (w : World) : Prop :=
  match r with
  | Ok a => wp (f a) w Q
  | Raise e => Q (Raise e) w
  | Diverge => Q Diverge w
  end.

(** ** What a method may change

    [mods S H w w']: from [w] to [w'] the objects outside [S] are the same,
    the objects of [S] still hold the same history location, the history
    sets outside [H] are the same, and the banned words and the rng are
    untouched.  New objects and new history sets may have appeared. *)
Record mods (S H : gset loc) (w w' : World) : Prop := {
  mods_objs : ∀ a ns, objs w !! a = Some ns →
    ∃ ns', objs w' !! a = Some ns' ∧ _history ns' = _history ns ∧ (a ∉ S → ns' = ns);
  mods_hists : ∀ h s, hists w !! h = Some s →
    ∃ s', hists w' !! h = Some s' ∧ (h ∉ H → s' = s);
  mods_banned : banned_words w' = banned_words w;
  mods_draws : rng_draws w' = rng_draws w;
  mods_pos : rng_pos w' = rng_pos w }.

(** the shape of a method's specification: what it may change since [w0],
    and what holds of the value it returns *)
Definition post {A} (S H : gset loc) (w0 : World) (P : A → World → Prop)
    : result A → World → Prop :=
  λ r w', mods S H w0 w' ∧ ∀ a, r = Ok a → P a w'.

(** nothing is said of the value *)
Definition any {A} : A → World → Prop := λ _ _, True.

(** ** The operators, runs, operands *)

(** the four operators, by name *)
Inductive operator := Add | Sub | Or | And.

(** [A op= B] *)
Definition in_place (op : operator) : loc → operand → M loc :=
  match op with
  | Add => __iadd__
  | Sub => __isub__
  | Or => __ior__
  | And => __iand__
  end.

(** [A op B] *)
Definition binary (op : operator) : loc → operand → M loc :=
  match op with
  | Add => __add__
  | Sub => __sub__
  | Or => __or__
  | And => __and__
  end.

(** the outcome of a run, and the store it leaves *)
Definition eval {A} (m : M A) (w : World) : result A := (m w).1.
Definition exec {A} (m : M A) (w : World) : World := (m w).2.

(** the names that [add_to_history] is given: one name, or a collection *)
Definition given (name_s : operand) : option (gset string) :=
  match name_s with
  | OStr s => Some {[ s ]}
  | OColl names => Some (list_to_set names)
  | ONameSet _ => None
  end.

(** no run of [m] raises [TypeError] *)
Definition no_type_error {A} (m : M A) : Prop := ∀ w, (m w).1 ≠ Raise TypeError.

(** an operand is a bare string *)
Definition is_str (other : operand) : bool :=
  match other with
  | OStr _ => true
  | _ => false
  end.

(** the mean of the metric over a corpus, 0 for the empty corpus *)
Definition mean_of (f : len_func) (names : list string) : Q :=
  match names with
  | [] => 0%Q
  | _ :: _ => (sum (lf_call f <$> names) / nat_Q (length names))%Q
  end.

(** the object that [NameSet(names, order, name_len_func)] is *)
Definition new_name_set (names : list string) (order : nat) (f : len_func) (history : loc)
    : NameSet :=
  {| _names := names;
     _names_set := list_to_set names;
     _order := order;
     _name_len_func := f;
     _avg_name_len := mean_of f names;
     _markov_dict := make_markov_dict names order;
     _history := history;
     _in_operation := false |}.

(** the store before anything is made *)
Definition empty_world : World := mkWorld ∅ ∅ ∅ (λ _, 0) 0 [].

(** ** Validity and the choice of a candidate *)




(** the candidates with their keys, as [sorted] compares them *)
Definition keyed (key : string → Q) (l : list string) : list (Q * string) :=
  (λ c, (key c, c)) <$> l.

(** [k] runs of [m] in a row *)
Fixpoint replicate_M {A} (k : nat) (m : M A) : M (list A) :=
  match k with
  | 0 => mret []
  | S k' => x ← m; xs ← replicate_M k' m; mret (x :: xs)
  end.

(** a slot that tried the raw names [tried], in this order, out of at most
    [m], and kept [found] *)
Inductive slot_run (valid : string → bool) (m : nat) : list string → option string → Prop :=
  | slot_found pre c :
      length pre < m → Forall (λ x, valid x = false) pre → valid c = true →
      slot_run valid m (pre ++ [c]) (Some c)
  | slot_empty tried :
      length tried = m → Forall (λ x, valid x = false) tried →
      slot_run valid m tried None.

(** [n] slots in a row: what each tried, and the candidates they kept *)
Inductive slots_run (valid : string → bool) (m : nat)
    : nat → list (list string) → list string → Prop :=
  | slots_done : slots_run valid m 0 [] []
  | slots_next n tried found trieds cands :
      slot_run valid m tried found → slots_run valid m n trieds cands →
      slots_run valid m (S n) (tried :: trieds) (option_list found ++ cands).

(** only the position of the rng differs *)
Definition same_but_rng (w w' : World) : Prop := w' = with_rng_pos (rng_pos w') w.


(** a store with one name-set, at location 0, its history at location 0 *)
Definition one_name_set (names : list string) (order : Q) (f : len_func)
    (draws : nat → nat) : World :=
  exec (__init__ names order f) (mkWorld ∅ ∅ ∅ draws 0 []).

(** ** The cached mean, the corpus *)

(** the cached mean is the mean of the metric over the corpus *)
Definition avg_ok (ns : NameSet) : Prop :=
  (_avg_name_len ns == mean_of (_name_len_func ns) (_names ns))%Q.

(** the name-set at a location, once a computation has run *)
Definition object_after {A} (m : M A) (w : World) (l : loc) : option NameSet :=
  objs (exec m w) !! l.

(** two name-sets, at locations 0 and 1, with histories {"a"} and {"b"} *)
Definition two_name_sets : World :=
  exec (a ← __init__ ["name 1"; "name2"]%string 3%Q DEFAULT_NAME_LEN_FUNC;
        b ← __init__ ["name2"; "name3"]%string 3%Q DEFAULT_NAME_LEN_FUNC;
        add_to_history a (OStr "a");;
        add_to_history b (OStr "b"))
       empty_world.

(** the name-set at [l] has corpus [names], and its membership set agrees *)
Definition corpus (w : World) (l : loc) (names : list string) : Prop :=
  ∃ ns, objs w !! l = Some ns ∧ _names ns = names ∧ _names_set ns = list_to_set names.

(** the corpus of a right operand that is not the left operand itself *)
Definition operand_corpus (w : World) (self : loc) (other : operand) (names : list string)
    : Prop :=
  match other with
  | OStr _ => False
  | ONameSet o => o ≠ self ∧ corpus w o names
  | OColl l => names = l
  end.

(** the corpus after [for name in other: if name in self: self.remove(name)] *)
Fixpoint sub_names (names other : list string) : list string :=
  match other with
  | [] => names
  | name :: other' =>
      sub_names (if bool_decide (name ∈ names) then remove_first name names else names) other'
  end.

(** the corpus after the loop of [remove_duplicates] *)
Fixpoint dedup_names (names todo : list string) (seen : gset string) : list string :=
  match todo with
  | [] => names
  | name :: todo' =>
      if bool_decide (name ∈ seen)
      then dedup_names (remove_first name names) todo' seen
      else dedup_names names todo' (seen ∪ {[name]})
  end.

(** the names that [__ior__] adds before it removes the duplicates *)
Definition new_names (namesA namesB : list string) : list string :=
  filter (λ name, name ∉ (list_to_set namesA : gset string)) namesB.

(** the right operand of an operator that returns a new name-set: a
    name-set of the store, or a collection *)
Definition right_operand (w : World) (other : operand) (names : list string) : Prop :=
  match other with
  | OStr _ => False
  | ONameSet o => corpus w o names
  | OColl l => names = l
  end.

(** what the specification says of the corpus [names] of [A op B] *)
Definition algebra_clause (op : operator) (namesA namesB names : list string) : Prop :=
  match op with
  | Add => names = namesA ++ namesB
           ∧ length names = (length namesA + length namesB)%nat
           ∧ ∀ x, count x names = (count x namesA + count x namesB)%nat
  | Sub => ∀ x, count x names
                = (count x namesA - Nat.min (count x namesB) (count x namesA))%nat
  | Or => (∀ x, count x names = if bool_decide (x ∈ namesA ∨ x ∈ namesB) then 1 else 0)%nat
          ∧ length names = size (list_to_set namesA ∪ list_to_set namesB : gset string)
  | And => ∀ x, count x names = Nat.min (count x namesA) (count x namesB)
  end.

(** the corpus that the in-place operator leaves, from the two corpora *)
Definition algebra_names (op : operator) (namesA namesB : list string) : list string :=
  match op with
  | Add => namesA ++ namesB
  | Sub => sub_names namesA namesB
  | Or => let all := namesA ++ new_names namesA namesB in dedup_names all all ∅
  | And => shared_names namesA namesB
  end.

(** the name-set that [self += other] leaves at [self], from the two
    name-sets *)
Definition iadd_result (ns o : NameSet) : NameSet :=
  {| _names := _names ns ++ _names o;
     _names_set := _names_set ns ∪ _names_set o;
     _order := _order ns;
     _name_len_func := _name_len_func ns;
     _avg_name_len :=
       (_avg_name_len ns * nat_Q (length (_names ns))
        + _avg_name_len o * nat_Q (length (_names o)))
       / (nat_Q (length (_names ns)) + nat_Q (length (_names o)));
     _markov_dict := merge_dicts (_markov_dict ns) (_markov_dict o);
     _history := _history ns;
     _in_operation := _in_operation ns |}.

(** the name-set at [l]: its corpus, its metric, its cached mean *)
Definition measured (w : World) (l : loc) (names : list string) (f : len_func) (avg : Q)
    : Prop :=
  ∃ ns, objs w !! l = Some ns ∧ _names ns = names ∧ _name_len_func ns = f
        ∧ _avg_name_len ns = avg.

(** what [remove] stores as the mean *)
Definition mean_after_remove (avg : Q) (name : string) (rest : list string) : Q :=
  ((avg * (nat_Q (length rest) + 1) - len name) / nat_Q (length rest))%Q.

(** the name-set at [l] has the right cached mean *)
Definition mean_ok (w : World) (l : loc) : Prop :=
  ∃ ns, objs w !! l = Some ns ∧ avg_ok ns.

(** ** The name-sets of [tests.py] *)

(** the corpora of [tests.py] *)
Definition test_names_1 : list string := ["name 1"; "name2"; "name3"; "name4"]%string.
Definition test_names_3 : list string := replicate 2 "name1"%string ++ replicate 4 "name2"%string.
Definition test_names_4 : list string := replicate 2 "name2"%string ++ replicate 3 "name3"%string.

(** [n3] at location 0 and [n4] at location 1, as [setUp] makes them *)
Definition test_sets : World :=
  exec (n3 ← __init__ test_names_3 3%Q DEFAULT_NAME_LEN_FUNC;
        n4 ← __init__ test_names_4 3%Q DEFAULT_NAME_LEN_FUNC;
        add_to_history n3 (OColl test_names_3);;
        add_to_history n4 (OColl test_names_4))
       empty_world.

(** the corpus of the name-set that [m] returns *)
Definition names_of (m : M loc) (w : World) : option (list string) :=
  match m w with
  | (Ok c, w') => _names <$> objs w' !! c
  | _ => None
  end.

(** [n3] alone, and the two calls of [test_remove_duplicates] *)
Definition test_set_3 : World :=
  one_name_set test_names_3 3%Q DEFAULT_NAME_LEN_FUNC (λ n, n).

Definition removing_duplicates : M unit :=
  append 0 "change the avg len";; remove_duplicates 0.

(** the letters of a string, as the entries of a table *)
Definition letters (s : string) : list (option ascii) := Some <$> list_ascii_of_string s.

(** a store with one name-set, at location 0, and banned words *)
Definition one_name_set_banning (names : list string) (banned : gset string) : World :=
  with_banned_words banned (one_name_set names 3%Q DEFAULT_NAME_LEN_FUNC (λ n, n)).

(** [n.make_name(exclude_real_names = False)] and the other calls of the
    tests of [make_name] *)
Definition allowing_real_names : kw.t :=
  kw.mk false true true DEFAULT_N_CANDIDATES AVG DEFAULT_MAX_ATTEMPTS None.
Definition not_recording : kw.t :=
  kw.mk false true false DEFAULT_N_CANDIDATES AVG DEFAULT_MAX_ATTEMPTS None.
Definition allowing_repeats : kw.t :=
  kw.mk false false true DEFAULT_N_CANDIDATES AVG DEFAULT_MAX_ATTEMPTS None.

(** [n.make_name(exclude_real_names = False, add_to_history = False,
    n_candidates = 20, pref_candidate = ...)] *)
Definition best_of_20 (pref_candidate : Z) : kw.t :=
  kw.mk false true false 20 pref_candidate DEFAULT_MAX_ATTEMPTS None.

(** ** The chain table, the class invariant *)

(** the transitions of a name from the key [previous_letter]: every letter
    with the key it follows, then the end marker *)
Fixpoint transitions (order : nat) (previous_letter : string) (name : string)
    : list (string * option ascii) :=
  match name with
  | EmptyString => [(previous_letter, _END)]
  | String letter rest =>
      (previous_letter, Some letter)
      :: transitions order (push_letter order previous_letter letter) rest
  end.

(** the transitions of a corpus, name after name *)
Definition corpus_transitions (order : nat) (names : list string)
    : list (string * option ascii) :=
  names ≫= transitions order "".

(** [d.get(key, [])] *)
Definition letters_at (d : gmap string (list (option ascii))) (key : string)
    : list (option ascii) :=
  default [] (d !! key).

(** the entries of [ps] under [key], in their order *)
Definition following (key : string) (ps : list (string * option ascii))
    : list (option ascii) :=
  (filter (λ p, p.1 = key) ps).*2.

(** no key of the table holds an empty list *)
Definition no_empty_list (d : gmap string (list (option ascii))) : Prop :=
  ∀ key l, d !! key = Some l → l ≠ [].

(** the table is the table of the corpus, up to the order of the letters
    under each key *)
Definition table_of (d : gmap string (list (option ascii))) (order : nat)
    (names : list string) : Prop :=
  no_empty_list d ∧
  ∀ key x, count x (letters_at d key)
           = count x (following key (corpus_transitions order names)).

(** the loop of [remove] over the entries of the table of the removed
    name: how it ends, and the table as it is then *)
Fixpoint remove_entries (d : gmap string (list (option ascii)))
    (entries : list (string * list (option ascii)))
    : result unit * gmap string (list (option ascii)) :=
  match entries with
  | [] => (Ok tt, d)
  | (key, remove_letters) :: rest =>
      match dict_remove_letters d key remove_letters with
      | (Ok _, d') => remove_entries d' rest
      | failed => failed
      end
  end.

(** the letters that the entries hold under a key *)
Definition entry_letters (entries : list (string * list (option ascii))) (key : string)
    : list (option ascii) :=
  letters_at (list_to_map entries) key.

(** the invariant of the class: the membership set is the set of the
    corpus, the table is the table of the corpus *)
Definition well_formed (ns : NameSet) : Prop :=
  _names_set ns = list_to_set (_names ns)
  ∧ table_of (_markov_dict ns) (_order ns) (_names ns).

(** the name-set that [remove] leaves: [d] is the table, the mean is
    touched only when a name is left *)
Definition removed (ns : NameSet) (name : string)
    (d : gmap string (list (option ascii))) : NameSet :=
  let rest := remove_first name (_names ns) in
  {| _names := rest;
     _names_set := list_to_set rest;
     _order := _order ns;
     _name_len_func := _name_len_func ns;
     _avg_name_len := match rest with
                      | [] => _avg_name_len ns
                      | _ :: _ => mean_after_remove (_avg_name_len ns) name rest
                      end;
     _markov_dict := d;
     _history := _history ns;
     _in_operation := _in_operation ns |}.

(** what a property of name-sets needs to survive the removal of a name
    that leaves another *)
Definition kept_by_remove (I : NameSet → Prop) : Prop :=
  ∀ ns name d,
    I ns → well_formed ns → name ∈ _names ns → remove_first name (_names ns) ≠ [] →
    table_of d (_order ns) (remove_first name (_names ns)) →
    I (removed ns name d).

(** the subtraction takes the last name of a corpus away *)
Definition empties (names other : list string) : bool :=
  match names, sub_names names other with
  | _ :: _, [] => true
  | _, _ => false
  end.

(** the metric is the number of characters *)
Definition counts_characters (f : len_func) : Prop := ∀ s, (lf_call f s == len s)%Q.

(** [ns] has the order, the metric, the history and the flag of [ns0],
    and its cached mean is right if that of [ns0] was and the metric is
    the number of characters *)
Definition settings_of (ns0 ns : NameSet) : Prop :=
  _order ns = _order ns0 ∧ _name_len_func ns = _name_len_func ns0 ∧
  _history ns = _history ns0 ∧ _in_operation ns = _in_operation ns0 ∧
  (counts_characters (_name_len_func ns0) → avg_ok ns0 → avg_ok ns).

(** the name-set that [self &= other] leaves *)
Definition iand_result (ns : NameSet) (other : list string) : NameSet :=
  let shared := shared_names (_names ns) other in
  {| _names := shared;
     _names_set := list_to_set shared;
     _order := _order ns;
     _name_len_func := _name_len_func ns;
     _avg_name_len := mean_of (_name_len_func ns) shared;
     _markov_dict := make_markov_dict shared (_order ns);
     _history := _history ns;
     _in_operation := _in_operation ns |}.

(** the first letter of a string, the end marker for the empty string *)
Definition head_letter (s : string) : option ascii :=
  match s with
  | EmptyString => _END
  | String c _ => Some c
  end.

(** ** Cleaning *)

(** the characters between the first and the last alphanumeric one *)
Fixpoint drop_non_alnum (s : list ascii) : list ascii :=
  match s with
  | [] => []
  | c :: s' => if isalnum c then s else drop_non_alnum s'
  end.

Definition core (s : list ascii) : list ascii :=
  reverse (drop_non_alnum (reverse (drop_non_alnum s))).

Definition has_alnum (s : string) : bool := existsb isalnum (list_ascii_of_string s).

(** ** The steps of the chain *)

(** [name[max(0, i - order) : i]]: the letters before position [i], at
    most [order] of them *)
Definition key_at (order : nat) (name : string) (i : nat) : string :=
  String.substring (i - order) (Nat.min i order) name.

(** the steps of the chain along a name: at every position, the key and
    the letter there; past the last letter, the end marker *)
Definition chain_steps (order : nat) (name : string) : list (string * option ascii) :=
  (λ i, (key_at order name i, String.get i name)) <$> seq 0 (S (String.length name)).

(** every name of [names] is in [other] at least as many times *)
Definition covered (names other : list string) : Prop :=
  ∀ x, count x names ≤ count x other.

(** the items of a list at the odd positions: the second, the fourth, ... *)
Fixpoint odd_items {A} (l : list A) : list A :=
  match l with
  | _ :: y :: l' => y :: odd_items l'
  | _ => []
  end.

(** ** Syllables *)

(** how [estimate_syllables] reads a character *)
Definition is_digit (c : ascii) : bool := bool_decide (is_Some (add_syllable_chars c)).
Definition is_break (c : ascii) : bool := in_str c " -".
Definition is_vowel (c : ascii) : bool := in_str c "aeiouyAEIOUY".
Definition is_consonant (c : ascii) : bool :=
  in_str c "bcdfghjklmnpqrstvwxzBCDFGHJKLMNPQRSTVWXZ'".

(** the groups of vowels of a name: a group starts at a vowel that comes
    first or after a consonant; [in_group] tells that the letters so far
    end inside a group *)
Fixpoint vowel_groups (in_group : bool) (letters : list ascii) : nat :=
  match letters with
  | [] => 0
  | c :: rest =>
      if is_vowel c then (if in_group then 0 else 1) + vowel_groups true rest
      else if is_consonant c then vowel_groups false rest
      else vowel_groups in_group rest
  end.

(** ** Stores for the examples *)

(** the name-set of the examples: three names, order 3, at location 0 *)
Definition greetings : list string := ["hello"; "hi"; "hey"]%string.
Definition greetings_set : NameSet := new_name_set greetings 3 DEFAULT_NAME_LEN_FUNC 0.
Definition greetings_world : World :=
  one_name_set greetings 3%Q DEFAULT_NAME_LEN_FUNC (λ n, n `div` 2).

(** what [make_name_set] is given: the names of a collection or of a
    name-set, or the names that the file of that name holds *)
Definition names_given (read : string → M (list string)) (w : World) (other : operand)
    (names : list string) : Prop :=
  match other with
  | OStr file_name => read file_name w = (Ok names, w)
  | _ => right_operand w other names
  end.

(** three names that share letters, order 2, at location 0 *)
Definition yellow_names : list string := ["hello"; "help"; "yellow"]%string.
Definition yellow_set : NameSet := new_name_set yellow_names 2 DEFAULT_NAME_LEN_FUNC 0.
Definition yellow_world : World :=
  one_name_set yellow_names 2%Q DEFAULT_NAME_LEN_FUNC (λ n, n).

(** three names, order 5, at location 0 *)
Definition greetings_5 : World :=
  one_name_set greetings 5%Q DEFAULT_NAME_LEN_FUNC (λ n, n `div` 2).

(** * Proofs *)

(** ** The rules of the monad *)

Lemma wp_bind {A B} (m : M A) (f : A → M B) w Q :
  wp m w (and_then f Q) → wp (m ≫= f) w Q.
Proof.
  unfold wp, and_then, mbind, M_bind.
  destruct (m w) as [[a|e|] w']; simpl; auto.
Qed.

Lemma wp_bind_inv {A B} (m : M A) (f : A → M B) w Q :
  wp (m ≫= f) w Q → wp m w (and_then f Q).
Proof.
  unfold wp, and_then, mbind, M_bind.
  destruct (m w) as [[a|e|] w']; simpl; auto.
Qed.

Lemma wp_mono {A} (m : M A) w (Q Q' : result A → World → Prop) :
  wp m w Q → (∀ r w', Q r w' → Q' r w') → wp m w Q'.
Proof. unfold wp. auto. Qed.

Lemma wp_ret {A} (a : A) w (Q : result A → World → Prop) : Q (Ok a) w → wp (mret a) w Q.
Proof. auto. Qed.

Lemma wp_raise {A} e w (Q : result A → World → Prop) : Q (Raise e) w → wp (raise e) w Q.
Proof. auto. Qed.

Lemma wp_run {A} (m : M A) w Q r w' : m w = (r, w') → wp m w Q → Q r w'.
Proof. unfold wp. intros ->. auto. Qed.

Lemma wp_intro {A} (m : M A) w (Q : result A → World → Prop) :
  (∀ r w', m w = (r, w') → Q r w') → wp m w Q.
Proof. unfold wp. intros H. apply H. by destruct (m w). Qed.

Lemma wp_get_obj l w Q :
  match objs w !! l with
  | Some ns => Q (Ok ns) w
  | None => Q (Raise ReferenceError) w
  end → wp (get_obj l) w Q.
Proof. unfold wp, get_obj. by destruct (objs w !! l). Qed.

Lemma wp_modify_obj l f w Q :
  match objs w !! l with
  | Some ns => Q (Ok tt) (with_objs (<[l := f ns]> (objs w)) w)
  | None => Q (Raise ReferenceError) w
  end → wp (modify_obj l f) w Q.
Proof. unfold wp, modify_obj. by destruct (objs w !! l). Qed.

Lemma wp_get_hist h w Q :
  match hists w !! h with
  | Some s => Q (Ok s) w
  | None => Q (Raise ReferenceError) w
  end → wp (get_hist h) w Q.
Proof. unfold wp, get_hist. by destruct (hists w !! h). Qed.

Lemma wp_put_hist h s w Q :
  match hists w !! h with
  | Some _ => Q (Ok tt) (with_hists (<[h := s]> (hists w)) w)
  | None => Q (Raise ReferenceError) w
  end → wp (put_hist h s) w Q.
Proof. unfold wp, put_hist. by destruct (hists w !! h). Qed.

Lemma wp_pydiv a b w Q :
  (if Qeq_bool b 0 then Q (Raise ZeroDivisionError) w else Q (Ok (a / b)%Q) w) →
  wp (pydiv a b) w Q.
Proof. unfold wp, pydiv. by destruct (Qeq_bool b 0). Qed.

(** ** The frame relation *)

Lemma fresh_obj_None w : objs w !! fresh (dom (objs w)) = None.
Proof. apply not_elem_of_dom, is_fresh. Qed.

Lemma fresh_hist_None w : hists w !! fresh (dom (hists w)) = None.
Proof. apply not_elem_of_dom, is_fresh. Qed.

Lemma mods_refl S H w : mods S H w w.
Proof. split; eauto. Qed.

Lemma mods_trans S H w1 w2 w3 : mods S H w1 w2 → mods S H w2 w3 → mods S H w1 w3.
Proof.
  intros [O1 H1 B1 D1 P1] [O2 H2 B2 D2 P2]. split; try congruence.
  - intros a ns Ha. destruct (O1 a ns Ha) as (ns1 & Ha1 & Hh1 & Hs1).
    destruct (O2 a ns1 Ha1) as (ns2 & Ha2 & Hh2 & Hs2).
    exists ns2. split_and!; [done | congruence |].
    intros Hn. rewrite Hs2, Hs1; auto.
  - intros h s Hh. destruct (H1 h s Hh) as (s1 & Hh1 & Hs1).
    destruct (H2 h s1 Hh1) as (s2 & Hh2 & Hs2).
    exists s2. split; [done |]. intros Hn. rewrite Hs2, Hs1; auto.
Qed.

Lemma mods_weaken S H S' H' w w' : S ⊆ S' → H ⊆ H' → mods S H w w' → mods S' H' w w'.
Proof.
  intros HS HH [O1 H1 B1 D1 P1]. split; [| | assumption..].
  - intros a ns Ha. destruct (O1 a ns Ha) as (ns1 & Ha1 & Hh1 & Hs).
    exists ns1. split_and!; [assumption..|]. intros Hn. apply Hs.
    intros Hin. apply Hn, HS, Hin.
  - intros h s Hh. destruct (H1 h s Hh) as (s1 & Hh1 & Hs).
    exists s1. split; [assumption|]. intros Hn. apply Hs.
    intros Hin. apply Hn, HH, Hin.
Qed.

(** locations that did not exist may be left out of the sets *)
Lemma mods_fresh S H S' H' w w' :
  (∀ a, a ∈ S → a ∉ S' → objs w !! a = None) →
  (∀ h, h ∈ H → h ∉ H' → hists w !! h = None) →
  mods S H w w' → mods S' H' w w'.
Proof.
  intros HS HH [O1 H1 B1 D1 P1]. split; [| | assumption..].
  - intros a ns Ha. destruct (O1 a ns Ha) as (ns1 & Ha1 & Hh1 & Hs).
    exists ns1. split_and!; [assumption..|]. intros Hn. apply Hs.
    intros Hin. specialize (HS a Hin Hn). congruence.
  - intros h s Hh. destruct (H1 h s Hh) as (s1 & Hh1 & Hs).
    exists s1. split; [assumption|]. intros Hn. apply Hs.
    intros Hin. specialize (HH h Hin Hn). congruence.
Qed.

Lemma mods_modify_obj S H w l ns f :
  objs w !! l = Some ns → l ∈ S → _history (f ns) = _history ns →
  mods S H w (with_objs (<[l := f ns]> (objs w)) w).
Proof.
  intros Hl HS Hf. split; simpl; try done; [|eauto].
  intros a na Ha. destruct (decide (a = l)) as [->|Hne].
  - rewrite lookup_insert_eq. exists (f ns). split_and!; [done | congruence | done].
  - rewrite lookup_insert_ne by done. eauto.
Qed.

Lemma mods_alloc_obj S H w ns :
  mods S H w (with_objs (<[fresh (dom (objs w)) := ns]> (objs w)) w).
Proof.
  split; simpl; try done; [|eauto].
  intros a na Ha. rewrite lookup_insert_ne; [eauto|].
  intros <-. rewrite fresh_obj_None in Ha. done.
Qed.

Lemma mods_alloc_hist S H w s :
  mods S H w (with_hists (<[fresh (dom (hists w)) := s]> (hists w)) w).
Proof.
  split; simpl; try done; [eauto|].
  intros h s' Hh. rewrite lookup_insert_ne; [eauto|].
  intros <-. rewrite fresh_hist_None in Hh. done.
Qed.

Lemma mods_put_hist S H w h s :
  h ∈ H → mods S H w (with_hists (<[h := s]> (hists w)) w).
Proof.
  intros HH. split; simpl; try done; [eauto|].
  intros h' s' Hh. destruct (decide (h' = h)) as [->|Hne].
  - rewrite lookup_insert_eq. exists s. split; [done | intros []; done].
  - rewrite lookup_insert_ne by done. eauto.
Qed.

Lemma mods_warn S H w c : mods S H w (with_warnings (warnings w ++ [c]) w).
Proof. split; simpl; eauto. Qed.

(** a step that changes [S1], [H1] keeps a frame [S], [H] taken from an
    earlier store [w0] when what it changes is in the frame or did not
    exist in [w0] *)
Lemma mods_step S H S1 H1 w0 w w' :
  mods S H w0 w → mods S1 H1 w w' →
  (∀ a, a ∈ S1 → a ∈ S ∨ objs w0 !! a = None) →
  (∀ h, h ∈ H1 → h ∈ H ∨ hists w0 !! h = None) →
  mods S H w0 w'.
Proof.
  intros [O0 H0 B0 D0 P0] [O1 H1' B1 D1 P1] HS HH. split; [| | congruence..].
  - intros a ns Ha. destruct (O0 a ns Ha) as (ns1 & Ha1 & Hh1 & Hs1).
    destruct (O1 a ns1 Ha1) as (ns2 & Ha2 & Hh2 & Hs2).
    exists ns2. split_and!; [assumption | congruence |].
    intros Hn. rewrite Hs2, Hs1; [reflexivity | assumption |].
    intros Hin. destruct (HS a Hin) as [?|Hnone]; [tauto | congruence].
  - intros h s Hh. destruct (H0 h s Hh) as (s1 & Hh1 & Hs1).
    destruct (H1' h s1 Hh1) as (s2 & Hh2 & Hs2).
    exists s2. split; [assumption |].
    intros Hn. rewrite Hs2, Hs1; [reflexivity | assumption |].
    intros Hin. destruct (HH h Hin) as [?|Hnone]; [tauto | congruence].
Qed.

Lemma mods_None_obj S H w w' a : mods S H w w' → objs w' !! a = None → objs w !! a = None.
Proof.
  intros [O _ _ _ _] Hn. destruct (objs w !! a) as [ns|] eqn:E; [|done].
  destruct (O a ns E) as (? & ? & _). congruence.
Qed.

Lemma mods_None_hist S H w w' h : mods S H w w' → hists w' !! h = None → hists w !! h = None.
Proof.
  intros [_ O _ _ _] Hn. destruct (hists w !! h) as [s|] eqn:E; [|done].
  destruct (O h s E) as (? & ? & _). congruence.
Qed.

Lemma wp_seq {A B} S H w0 w (m : M A) (f : A → M B) S1 H1 P P' :
  mods S H w0 w →
  wp m w (post S1 H1 w P) →
  (∀ a, a ∈ S1 → a ∈ S ∨ objs w0 !! a = None) →
  (∀ h, h ∈ H1 → h ∈ H ∨ hists w0 !! h = None) →
  (∀ a w1, mods S H w0 w1 → mods S1 H1 w w1 → P a w1 → wp (f a) w1 (post S H w0 P')) →
  wp (m ≫= f) w (post S H w0 P').
Proof.
  intros H0 Hm HS HH Hf. apply wp_bind. eapply wp_mono; [exact Hm|].
  intros r w1 [Hmods HP].
  assert (mods S H w0 w1) by (eapply mods_step; eassumption).
  destruct r as [a|e|]; simpl.
  - apply Hf; auto.
  - split; [assumption | intros ? [=]].
  - split; [assumption | intros ? [=]].
Qed.

Lemma post_fail {A} S H w0 (P : A → World → Prop) w e :
  mods S H w0 w → post S H w0 P (Raise e) w.
Proof. intros Hm. split; [assumption | intros ? [=]]. Qed.

Lemma post_diverge {A} S H w0 (P : A → World → Prop) w :
  mods S H w0 w → post S H w0 P Diverge w.
Proof. intros Hm. split; [assumption | intros ? [=]]. Qed.

Lemma post_ok {A} S H w0 (P : A → World → Prop) w a :
  mods S H w0 w → P a w → post S H w0 P (Ok a) w.
Proof. intros Hm HP. split; [assumption | intros ? [= <-]; assumption]. Qed.

(** a field assignment other than [_history] *)
Lemma wp_modify_obj_post S H w0 w l g P :
  mods S H w0 w →
  (l ∈ S ∨ objs w0 !! l = None) →
  (∀ ns, _history (g ns) = _history ns) →
  (∀ ns w1, objs w !! l = Some ns → objs w1 !! l = Some (g ns) →
            mods S H w0 w1 → mods {[l]} ∅ w w1 → P tt w1) →
  wp (modify_obj l g) w (post S H w0 P).
Proof.
  intros Hm Hl Hg HP. apply wp_modify_obj.
  destruct (objs w !! l) as [ns|] eqn:E; [|by apply post_fail].
  assert (mods {[l]} ∅ w (with_objs (<[l:=g ns]> (objs w)) w)) as Hstep.
  { apply mods_modify_obj; [assumption | set_solver | apply Hg]. }
  assert (mods S H w0 (with_objs (<[l:=g ns]> (objs w)) w)) as Hm'.
  { eapply mods_step; [exact Hm | exact Hstep | |].
    - intros a ->%elem_of_singleton. exact Hl.
    - intros h []%not_elem_of_empty. }
  apply post_ok; [assumption|].
  eapply HP; [reflexivity | | assumption..].
  simpl. apply lookup_insert_eq.
Qed.

Lemma wp_pydiv_post S H w0 w a b (P : Q → World → Prop) :
  mods S H w0 w → (∀ q, P q w) → wp (pydiv a b) w (post S H w0 P).
Proof.
  intros Hm HP. apply wp_pydiv. destruct (Qeq_bool b 0).
  - by apply post_fail.
  - by apply post_ok.
Qed.

Lemma wp_post_mono {A} S H w0 (P P' : A → World → Prop) m w :
  wp m w (post S H w0 P) → (∀ a w', P a w' → P' a w') → wp m w (post S H w0 P').
Proof.
  intros Hm HP. eapply wp_mono; [exact Hm|].
  intros r w' [? HQ]. split; [assumption|]. intros a ->. apply HP, HQ. reflexivity.
Qed.

Lemma update_avg_name_len_frame self w :
  wp (_update_avg_name_len self) w (post {[self]} ∅ w any).
Proof.
  unfold _update_avg_name_len. apply wp_bind, wp_get_obj.
  destruct (objs w !! self) as [ns|] eqn:E; simpl; [|apply post_fail, mods_refl].
  destruct (_names ns) as [|n0 names].
  - apply wp_modify_obj_post; [apply mods_refl | left; set_solver | done | done].
  - eapply wp_seq; [apply mods_refl | apply (wp_pydiv_post ∅ ∅ w w _ _ any); [apply mods_refl | done] | set_solver.. |].
    intros avg w1 Hm _ _.
    apply wp_modify_obj_post; [assumption | left; set_solver | done | done].
Qed.

Lemma get_obj_spec l w :
  wp (get_obj l) w (post ∅ ∅ w (λ ns w', w' = w ∧ objs w !! l = Some ns)).
Proof.
  apply wp_get_obj. destruct (objs w !! l) eqn:E.
  - apply post_ok; [apply mods_refl | done].
  - apply post_fail, mods_refl.
Qed.

Lemma get_hist_spec h w :
  wp (get_hist h) w (post ∅ ∅ w (λ s w', w' = w ∧ hists w !! h = Some s)).
Proof.
  apply wp_get_hist. destruct (hists w !! h) eqn:E.
  - apply post_ok; [apply mods_refl | done].
  - apply post_fail, mods_refl.
Qed.

Lemma modify_obj_spec l g w :
  (∀ ns, _history (g ns) = _history ns) →
  wp (modify_obj l g) w
     (post {[l]} ∅ w (λ _ w', ∃ ns, objs w !! l = Some ns ∧ objs w' !! l = Some (g ns))).
Proof.
  intros Hg. apply wp_modify_obj_post; [apply mods_refl | left; set_solver | done |].
  intros ns w1 ? ? _ _. eauto.
Qed.

Lemma alloc_obj_spec ns w :
  wp (alloc_obj ns) w
     (post ∅ ∅ w (λ l w', objs w !! l = None ∧ objs w' !! l = Some ns ∧ hists w' = hists w)).
Proof.
  unfold wp, alloc_obj; simpl. apply post_ok; [apply mods_alloc_obj|].
  split_and!; [apply fresh_obj_None | apply lookup_insert_eq | done].
Qed.

Lemma alloc_hist_spec s w :
  wp (alloc_hist s) w
     (post ∅ ∅ w (λ h w', hists w !! h = None ∧ hists w' !! h = Some s ∧ objs w' = objs w)).
Proof.
  unfold wp, alloc_hist; simpl. apply post_ok; [apply mods_alloc_hist|].
  split_and!; [apply fresh_hist_None | apply lookup_insert_eq | done].
Qed.

Lemma put_hist_spec h s w :
  wp (put_hist h s) w
     (post ∅ {[h]} w (λ _ w', hists w' !! h = Some s ∧ objs w' = objs w)).
Proof.
  apply wp_put_hist. destruct (hists w !! h) eqn:E.
  - apply post_ok; [apply mods_put_hist; set_solver|].
    simpl. split; [apply lookup_insert_eq | done].
  - apply post_fail, mods_refl.
Qed.

Lemma warn_spec c w : wp (warn c) w (post ∅ ∅ w (λ _ w', objs w' = objs w ∧ hists w' = hists w)).
Proof. unfold wp, warn; simpl. apply post_ok; [apply mods_warn | done]. Qed.

Lemma pydiv_spec a b w : wp (pydiv a b) w (post ∅ ∅ w (λ _ w', w' = w)).
Proof. apply wp_pydiv_post; [apply mods_refl | done]. Qed.

Lemma ret_spec {A} (a : A) S H w0 w (P : A → World → Prop) :
  mods S H w0 w → P a w → wp (mret a) w (post S H w0 P).
Proof. intros. apply wp_ret, post_ok; assumption. Qed.

Lemma raise_spec {A} e S H w0 w (P : A → World → Prop) :
  mods S H w0 w → wp (raise e) w (post S H w0 P).
Proof. intros. apply wp_raise, post_fail; assumption. Qed.

(** a last step, with nothing after it *)
Lemma wp_last {A} S H w0 w (m : M A) S1 H1 P P' :
  mods S H w0 w →
  wp m w (post S1 H1 w P) →
  (∀ a, a ∈ S1 → a ∈ S ∨ objs w0 !! a = None) →
  (∀ h, h ∈ H1 → h ∈ H ∨ hists w0 !! h = None) →
  (∀ a w1, mods S H w0 w1 → mods S1 H1 w w1 → P a w1 → P' a w1) →
  wp m w (post S H w0 P').
Proof.
  intros H0 Hm HS HH Hf. eapply wp_mono; [exact Hm|].
  intros r w1 [Hmods HP].
  assert (mods S H w0 w1) by (eapply mods_step; eassumption).
  split; [assumption|]. intros a ->. apply Hf; auto.
Qed.

Lemma make_markov_dict_frame self w :
  wp (_make_markov_dict self) w (post {[self]} ∅ w any).
Proof.
  eapply wp_post_mono; [apply modify_obj_spec; done | done].
Qed.

Create HintDb specs discriminated.
#[export] Hint Resolve get_obj_spec get_hist_spec alloc_obj_spec alloc_hist_spec
  put_hist_spec warn_spec pydiv_spec update_avg_name_len_frame make_markov_dict_frame : specs.

Ltac side :=
  first [ by (intros ? []%not_elem_of_empty)
        | by (intros ? ?; left; assumption)
        | by (intros ? ->%elem_of_singleton; eauto using mods_None_obj, mods_None_hist)
        | by (intros ? ->%elem_of_singleton; left; set_solver)
        | idtac ].

Ltac step_with tac :=
  lazymatch goal with
  | |- wp (_ ≫= _) _ _ => eapply wp_seq; [eassumption | tac | side | side |]
  | |- wp _ _ _ => eapply wp_last; [eassumption | tac | side | side |]
  end.

Ltac step := step_with ltac:(solve [eauto with specs]).
Ltac step_modify := step_with ltac:(apply modify_obj_spec; done).

(** ** What each method may change *)

Lemma init_frame names order f w :
  wp (__init__ names order f) w
     (post ∅ ∅ w (λ l w', objs w !! l = None ∧
        ∃ ns, objs w' !! l = Some ns ∧ hists w !! _history ns = None ∧
              hists w' !! _history ns = Some ∅)).
Proof.
  unfold __init__. pose proof (mods_refl ∅ ∅ w) as Hm.
  destruct (negb _); [by apply raise_spec|].
  destruct (negb _); [by apply raise_spec|].
  step. intros h w1 Hm1 _ (Hh & Hh1 & Ho1).
  step. intros self w2 Hm2 _ (Hs & Hs2 & Hh2).
  assert (objs w !! self = None) as Hfresh by congruence.
  step. intros [] w3 Hm3 Hm3' _.
  step. intros [] w4 Hm4 Hm4' _.
  apply ret_spec; [assumption|]. split; [assumption|].
  destruct (mods_objs _ _ _ _ Hm3' _ _ Hs2) as (ns3 & Hns3 & Hhist3 & _).
  destruct (mods_objs _ _ _ _ Hm4' _ _ Hns3) as (ns4 & Hns4 & Hhist4 & _).
  exists ns4. split; [assumption|]. rewrite Hhist4, Hhist3. simpl.
  split; [assumption|].
  rewrite <- Hh2 in Hh1.
  destruct (mods_hists _ _ _ _ Hm3' _ _ Hh1) as (s3 & Hs3 & Heq3).
  destruct (mods_hists _ _ _ _ Hm4' _ _ Hs3) as (s4 & Hs4 & Heq4).
  rewrite Hs4, Heq4, Heq3; set_solver.
Qed.

(** any assignment to an object that did not exist in [w0] *)
Lemma mods_modify_fresh S H w0 w l v :
  mods S H w0 w → objs w0 !! l = None →
  mods S H w0 (with_objs (<[l := v]> (objs w)) w).
Proof.
  intros [O0 H0 B0 D0 P0] Hl. split; [| assumption..].
  intros a ns Ha. simpl. rewrite lookup_insert_ne by congruence. by apply O0.
Qed.

Lemma wp_modify_obj_fresh S H w0 w l g P :
  mods S H w0 w → objs w0 !! l = None →
  (∀ ns w1, objs w !! l = Some ns → objs w1 !! l = Some (g ns) →
            hists w1 = hists w → mods S H w0 w1 → P tt w1) →
  wp (modify_obj l g) w (post S H w0 P).
Proof.
  intros Hm Hl HP. apply wp_modify_obj.
  destruct (objs w !! l) as [ns|] eqn:E; [|by apply post_fail].
  apply post_ok; [by apply mods_modify_fresh|].
  eapply HP; [reflexivity | apply lookup_insert_eq | reflexivity |].
  by apply mods_modify_fresh.
Qed.

Lemma copy_frame self w :
  wp (copy self) w
     (post ∅ ∅ w (λ l w', objs w !! l = None ∧
        ∃ ns, objs w' !! l = Some ns ∧ hists w !! _history ns = None ∧
              is_Some (hists w' !! _history ns))).
Proof.
  unfold copy. pose proof (mods_refl ∅ ∅ w) as Hm.
  step. intros ns w1 _ _ [-> Hns].
  step_with ltac:(apply init_frame). intros c w1 Hm1 _ (Hc & nc & Hnc & _).
  step_modify. intros [] w2 Hm2 _ _.
  step_modify. intros [] w3 Hm3 _ _.
  step_modify. intros [] w4 Hm4 _ _.
  step_modify. intros [] w5 Hm5 _ _.
  step. intros h w6 _ _ [-> Hh].
  step. intros hc w6 Hm6 _ (Hhc & Hhc6 & Ho6).
  apply wp_bind. eapply wp_mono.
  { apply (wp_modify_obj_fresh ∅ ∅ w w6 c (set_history hc)
             (λ _ w1, ∃ n, objs w1 !! c = Some (set_history hc n) ∧ hists w1 = hists w6));
      [assumption.. |]. intros n w7 _ ? ? _. eauto. }
  intros r w7 [Hm7 HP]. destruct r as [[]|e|]; simpl; [|by apply post_fail|by apply post_diverge].
  destruct (HP tt eq_refl) as (n & Hn & Hh7).
  apply ret_spec; [assumption|]. split; [assumption|].
  exists (set_history hc n). split; [assumption|]. simpl.
  split; [eauto using mods_None_hist|]. rewrite Hh7, Hhc6. eauto.
Qed.

#[export] Hint Resolve init_frame copy_frame : specs.

Lemma change_order_frame self order w :
  wp (change_order self order) w (post {[self]} ∅ w any).
Proof.
  unfold change_order. pose proof (mods_refl {[self]} ∅ w) as Hm.
  destruct (negb _); [by apply raise_spec|].
  destruct (negb _); [by apply raise_spec|].
  step_modify. intros [] w1 Hm1 _ _.
  step. done.
Qed.

Lemma change_name_len_func_frame self f w :
  wp (change_name_len_func self f) w (post {[self]} ∅ w any).
Proof.
  unfold change_name_len_func. pose proof (mods_refl {[self]} ∅ w) as Hm.
  step_modify. intros [] w1 Hm1 _ _.
  step. done.
Qed.

Lemma operand_names_spec other w :
  wp (operand_names other) w (post ∅ ∅ w (λ _ w', w' = w)).
Proof.
  pose proof (mods_refl ∅ ∅ w) as Hm.
  destruct other as [s|o|names]; simpl; try by apply ret_spec.
  step. intros ns w1 _ _ [-> _]. by apply ret_spec.
Qed.

Lemma warn_mismatch_frame self other w :
  wp (warn_mismatch self other) w (post ∅ ∅ w any).
Proof.
  unfold warn_mismatch. pose proof (mods_refl ∅ ∅ w) as Hm.
  step. intros ns w1 _ _ [-> _].
  step. intros o w1 _ _ [-> _].
  destruct (negb (_order ns =? _order o)).
  - step. intros [] w1 Hm1 _ _.
    destruct (negb _); [step; done | by apply ret_spec].
  - apply wp_bind, wp_ret. simpl.
    destruct (negb _); [step; done | by apply ret_spec].
Qed.

#[export] Hint Resolve change_order_frame change_name_len_func_frame operand_names_spec
  warn_mismatch_frame : specs.

Lemma for_each_frame {A} S H (l : list A) body w :
  (∀ x w, wp (body x) w (post S H w any)) →
  wp (for_each l body) w (post S H w any).
Proof.
  intros Hbody. revert w. induction l as [|x l IH]; intros w; simpl.
  - apply ret_spec; [apply mods_refl | done].
  - pose proof (mods_refl S H w) as Hm.
    step_with ltac:(apply Hbody). intros [] w1 Hm1 _ _.
    step_with ltac:(apply IH). done.
Qed.

Lemma as_name_set_frame self other w :
  wp (as_name_set self other) w (post ∅ ∅ w any).
Proof.
  pose proof (mods_refl ∅ ∅ w) as Hm.
  destruct other as [s|o|names]; simpl.
  - by apply raise_spec.
  - by apply ret_spec.
  - step. intros ns w1 _ _ [-> _]. step. done.
Qed.

(** the second and third [if] of [__iadd__]: a mismatched operand is
    replaced by an adjusted copy *)
Lemma adjusted_copy_frame (b : bool) (other : loc) (adjust : loc → M unit) c w :
  (∀ l w, wp (adjust l) w (post {[l]} ∅ w any)) →
  wp (if b then warn c;; other' ← copy other; adjust other';; mret other'
      else mret other) w (post ∅ ∅ w any).
Proof.
  intros Hadj. pose proof (mods_refl ∅ ∅ w) as Hm.
  destruct b; [|by apply ret_spec].
  step. intros [] w1 Hm1 _ _.
  step. intros l w2 Hm2 _ (Hc & _).
  step_with ltac:(apply Hadj). intros [] w3 Hm3 _ _. by apply ret_spec.
Qed.

Lemma iadd_frame self other w :
  wp (__iadd__ self other) w (post {[self]} ∅ w (λ r _, r = self)).
Proof.
  unfold __iadd__. pose proof (mods_refl {[self]} ∅ w) as Hm.
  step_with ltac:(apply as_name_set_frame). intros o w1 Hm1 _ _.
  step. intros ns w2 _ _ [-> Hns].
  step. intros on w2 _ _ [-> Hon].
  step_with ltac:(apply adjusted_copy_frame; intros; apply change_order_frame).
  intros o2 w2 Hm2 _ _.
  step. intros on2 w3 _ _ [-> Hon2].
  step_with ltac:(apply adjusted_copy_frame; intros; apply change_name_len_func_frame).
  intros o3 w3 Hm3 _ _.
  step. intros on3 w4 _ _ [-> Hon3].
  step. intros avg w4 _ _ ->.
  step_modify. intros [] w4 Hm4 _ _.
  step. intros on4 w5 _ _ [-> Hon4].
  step_modify. intros [] w5 Hm5 _ _.
  step. intros on5 w6 _ _ [-> Hon5].
  step_modify. intros [] w6 Hm6 _ _.
  step. intros on6 w7 _ _ [-> Hon6].
  step_modify. intros [] w7 Hm7 _ _.
  by apply ret_spec.
Qed.

Lemma append_frame self name w : wp (append self name) w (post {[self]} ∅ w any).
Proof.
  unfold append. pose proof (mods_refl {[self]} ∅ w) as Hm.
  step_with ltac:(apply iadd_frame). intros ? w1 Hm1 _ _. by apply ret_spec.
Qed.

Lemma contains_spec self item w :
  wp (__contains__ self item) w (post ∅ ∅ w (λ _ w', w' = w)).
Proof.
  unfold __contains__. pose proof (mods_refl ∅ ∅ w) as Hm.
  step. intros ns w1 _ _ [-> _]. by apply ret_spec.
Qed.

Lemma len_spec self w :
  wp (__len__ self) w (post ∅ ∅ w (λ _ w', w' = w)).
Proof.
  unfold __len__. pose proof (mods_refl ∅ ∅ w) as Hm.
  step. intros ns w1 _ _ [-> _]. by apply ret_spec.
Qed.

#[export] Hint Resolve as_name_set_frame iadd_frame append_frame contains_spec len_spec : specs.

Lemma add_frame self name w : wp (add self name) w (post {[self]} ∅ w any).
Proof.
  unfold add. pose proof (mods_refl {[self]} ∅ w) as Hm.
  step. intros b w1 _ _ ->. destruct b; [by apply ret_spec | apply append_frame].
Qed.

Ltac step_in S1 H1 :=
  eapply (wp_seq _ _ _ _ _ _ S1 H1 any); [eassumption | | side | side |].

Lemma remove_frame self name w : wp (remove self name) w (post {[self]} ∅ w any).
Proof.
  unfold remove. pose proof (mods_refl {[self]} ∅ w) as Hm.
  step. intros ns w1 _ _ [-> Hns].
  step_in ({[self]} : gset loc) (∅ : gset loc).
  { destruct (bool_decide _).
    - eapply wp_post_mono; [apply modify_obj_spec; done | done].
    - apply raise_spec, mods_refl. }
  intros [] w1 Hm1 _ _.
  step. intros ns1 w2 _ _ [-> Hns1].
  step_in ({[self]} : gset loc) (∅ : gset loc).
  { destruct (bool_decide _).
    - apply ret_spec; [apply mods_refl | done].
    - destruct (bool_decide _).
      + eapply wp_post_mono; [apply modify_obj_spec; done | done].
      + apply raise_spec, mods_refl. }
  intros [] w2 Hm2 _ _.
  step. intros r w3 Hm3 _ _.
  step. intros rn w4 _ _ [-> Hrn].
  eapply wp_seq; [eassumption | apply (for_each_frame {[self]} ∅) | side | side |].
  { intros [key letters] w4. pose proof (mods_refl {[self]} ∅ w4) as Hm4.
    step. intros n4 w5 _ _ [-> Hn4].
    destruct (dict_remove_letters _ _ _) as [outcome d].
    step_modify. intros [] w5 Hm5 _ _.
    destruct outcome; [by apply ret_spec | by apply raise_spec | by apply post_diverge]. }
  intros [] w4 Hm4 _ _.
  step. intros n5 w5 _ _ [-> Hn5].
  step. intros avg w5 _ _ ->.
  eapply wp_last; [eassumption | apply modify_obj_spec; done | side | side | done].
Qed.

#[export] Hint Resolve add_frame remove_frame : specs.

Lemma remove_duplicates_loop_frame self names seen w :
  wp (remove_duplicates_loop self names seen) w (post {[self]} ∅ w any).
Proof.
  revert seen w. induction names as [|name names IH]; intros seen w; simpl.
  - apply ret_spec; [apply mods_refl | done].
  - pose proof (mods_refl {[self]} ∅ w) as Hm. destruct (bool_decide _).
    + step. intros [] w1 Hm1 _ _. step_with ltac:(apply IH). done.
    + apply IH.
Qed.

Lemma remove_duplicates_frame self w :
  wp (remove_duplicates self) w (post {[self]} ∅ w any).
Proof.
  unfold remove_duplicates. pose proof (mods_refl {[self]} ∅ w) as Hm.
  step. intros ns w1 _ _ [-> _]. apply remove_duplicates_loop_frame.
Qed.

Lemma isub_step_frame self name w : wp (isub_step self name) w (post {[self]} ∅ w any).
Proof.
  unfold isub_step. pose proof (mods_refl {[self]} ∅ w) as Hm.
  step. intros b w1 _ _ ->. destruct b; [apply remove_frame | by apply ret_spec].
Qed.

Lemma iter_name_set_frame S H steps o index body w :
  (∀ x w, wp (body x) w (post S H w any)) →
  wp (iter_name_set steps o index body) w (post S H w any).
Proof.
  intros Hbody. revert index w. induction steps as [|steps IH]; intros index w; simpl.
  - apply ret_spec; [apply mods_refl | done].
  - pose proof (mods_refl S H w) as Hm.
    step. intros ns w1 _ _ [-> _].
    destruct (_ !! index); [|by apply ret_spec].
    step_with ltac:(apply Hbody). intros [] w1 Hm1 _ _.
    step_with ltac:(apply IH). done.
Qed.

Lemma for_operand_frame S H other body w :
  (∀ x w, wp (body x) w (post S H w any)) →
  wp (for_operand other body) w (post S H w any).
Proof.
  intros Hbody. pose proof (mods_refl S H w) as Hm.
  destruct other as [s|o|names]; simpl.
  - by apply for_each_frame.
  - step. intros n w1 _ _ ->. by apply iter_name_set_frame.
  - by apply for_each_frame.
Qed.

Lemma check_operand_frame self other w :
  wp (check_operand self other) w (post ∅ ∅ w any).
Proof.
  pose proof (mods_refl ∅ ∅ w) as Hm.
  destruct other as [s|o|names]; simpl.
  - by apply raise_spec.
  - apply warn_mismatch_frame.
  - by apply ret_spec.
Qed.

#[export] Hint Resolve remove_duplicates_frame isub_step_frame check_operand_frame : specs.

Lemma isub_frame self other w :
  wp (__isub__ self other) w (post {[self]} ∅ w (λ r _, r = self)).
Proof.
  unfold __isub__. pose proof (mods_refl {[self]} ∅ w) as Hm.
  step. intros [] w1 Hm1 _ _.
  step_with ltac:(apply for_operand_frame; intros; apply isub_step_frame).
  intros [] w2 Hm2 _ _. by apply ret_spec.
Qed.

Lemma ior_frame self other w :
  wp (__ior__ self other) w (post {[self]} ∅ w (λ r _, r = self)).
Proof.
  unfold __ior__. pose proof (mods_refl {[self]} ∅ w) as Hm.
  step. intros [] w1 Hm1 _ _.
  step. intros names w2 _ _ ->.
  step. intros ns w2 _ _ [-> _].
  step. intros ? w2 Hm2 _ _.
  step. intros [] w3 Hm3 _ _.
  by apply ret_spec.
Qed.

Lemma iand_frame self other w :
  wp (__iand__ self other) w (post {[self]} ∅ w (λ r _, r = self)).
Proof.
  unfold __iand__. pose proof (mods_refl {[self]} ∅ w) as Hm.
  step. intros [] w1 Hm1 _ _.
  step. intros names w2 _ _ ->.
  step. intros ns w2 _ _ [-> _].
  step_modify. intros [] w2 Hm2 _ _.
  step_modify. intros [] w3 Hm3 _ _.
  step. intros [] w4 Hm4 _ _.
  step. intros [] w5 Hm5 _ _.
  by apply ret_spec.
Qed.

#[export] Hint Resolve isub_frame ior_frame iand_frame : specs.

(** ** The operators that return a new name-set *)

Lemma clear_history_spec self ns w :
  objs w !! self = Some ns →
  wp (clear_history self) w
     (post ∅ {[_history ns]} w (λ _ w', hists w' !! _history ns = Some ∅ ∧ objs w' = objs w)).
Proof.
  intros Hns. unfold clear_history. pose proof (mods_refl ∅ {[_history ns]} w) as Hm.
  step. intros ns' w1 _ _ [-> Hns']. assert (ns' = ns) as -> by congruence.
  step. done.
Qed.

Lemma binary_op_frame iop self other w :
  (∀ c other w, wp (iop c other) w (post {[c]} ∅ w (λ r _, r = c))) →
  wp (binary_op iop self other) w
     (post ∅ ∅ w (λ c w', objs w !! c = None ∧
        ∃ nc, objs w' !! c = Some nc ∧ hists w !! _history nc = None ∧
              hists w' !! _history nc = Some ∅)).
Proof.
  intros Hiop. unfold binary_op. pose proof (mods_refl ∅ ∅ w) as Hm.
  step. intros c w1 Hm1 _ (Hc & nc & Hnc & Hh & Hh1).
  step_modify. intros [] w2 Hm2 Hm2' _.
  destruct (mods_objs _ _ _ _ Hm2' _ _ Hnc) as (nc2 & Hnc2 & Hhist2 & _).
  step_with ltac:(apply Hiop). intros c' w3 Hm3 Hm3' ->.
  destruct (mods_objs _ _ _ _ Hm3' _ _ Hnc2) as (nc3 & Hnc3 & Hhist3 & _).
  assert (_history nc3 = _history nc) as Hhc by congruence.
  step_with ltac:(apply (clear_history_spec c nc3); assumption).
  { intros h ->%elem_of_singleton. right. congruence. }
  intros [] w4 Hm4 _ [Hh4 Ho4].
  apply wp_bind. eapply wp_mono.
  { apply (wp_modify_obj_fresh ∅ ∅ w w4 c (set_in_operation false)
             (λ _ w', ∃ n, objs w4 !! c = Some n ∧ objs w' !! c = Some (set_in_operation false n)
                           ∧ hists w' = hists w4));
      [assumption.. |]. intros n w5 ? ? ? _. eauto. }
  intros r w5 [Hm5 HP]. destruct r as [[]|e|]; simpl; [|by apply post_fail|by apply post_diverge].
  destruct (HP tt eq_refl) as (n & Hn4 & Hn5 & Hh5).
  apply ret_spec; [assumption|]. split; [assumption|].
  exists (set_in_operation false n). split; [assumption|]. simpl.
  assert (n = nc3) as -> by congruence.
  rewrite Hh5, Hhc in *. split; assumption.
Qed.

Lemma in_place_frame op self other w :
  wp (in_place op self other) w (post {[self]} ∅ w (λ r _, r = self)).
Proof. destruct op; simpl; eauto with specs. Qed.

Lemma binary_frame op self other w :
  wp (binary op self other) w
     (post ∅ ∅ w (λ c w', objs w !! c = None ∧
        ∃ nc, objs w' !! c = Some nc ∧ hists w !! _history nc = None ∧
              hists w' !! _history nc = Some ∅)).
Proof.
  destruct op; simpl; apply binary_op_frame; intros; eauto with specs.
Qed.

Lemma mods_empty_objs H w w' a ns :
  mods ∅ H w w' → objs w !! a = Some ns → objs w' !! a = Some ns.
Proof.
  intros Hm Ha. destruct (mods_objs _ _ _ _ Hm _ _ Ha) as (ns' & Ha' & _ & Heq).
  rewrite Ha', Heq; [done | set_solver].
Qed.

Lemma mods_empty_hists S w w' h s :
  mods S ∅ w w' → hists w !! h = Some s → hists w' !! h = Some s.
Proof.
  intros Hm Hh. destruct (mods_hists _ _ _ _ Hm _ _ Hh) as (s' & Hh' & Heq).
  rewrite Hh', Heq; [done | set_solver].
Qed.

(** C6. Whatever the right operand and whatever the outcome, [A + B],
    [A - B], [A | B] and [A & B] leave every name-set and every history set
    that existed (so [A]: its corpus, table, mean and history) as it was,
    and the name-set they return is a new object whose history is a new,
    empty set; [+=], [-=], [|=] and [&=] leave [A] holding the same history
    set, with the same content. *)
Theorem operators_frame (op : operator) (A : loc) (B : operand) (w : World) :
  (∀ r w', binary op A B w = (r, w') →
     (∀ a ns, objs w !! a = Some ns → objs w' !! a = Some ns) ∧
     (∀ h s, hists w !! h = Some s → hists w' !! h = Some s) ∧
     (∀ c, r = Ok c →
        objs w !! c = None ∧
        ∃ nc, objs w' !! c = Some nc ∧ hists w !! _history nc = None ∧
              hists w' !! _history nc = Some ∅)) ∧
  (∀ r w', in_place op A B w = (r, w') →
     (∀ ns, objs w !! A = Some ns →
        ∃ ns', objs w' !! A = Some ns' ∧ _history ns' = _history ns) ∧
     (∀ h s, hists w !! h = Some s → hists w' !! h = Some s) ∧
     (∀ c, r = Ok c → c = A)).
Proof.
  split; intros r w' Hrun.
  - destruct (wp_run _ _ _ _ _ Hrun (binary_frame op A B w)) as [Hm HP].
    split_and!; [eauto using mods_empty_objs | eauto using mods_empty_hists | exact HP].
  - destruct (wp_run _ _ _ _ _ Hrun (in_place_frame op A B w)) as [Hm HP].
    split_and!; [| eauto using mods_empty_hists | exact HP].
    intros ns Hns. destruct (mods_objs _ _ _ _ Hm _ _ Hns) as (ns' & ? & ? & _). eauto.
Qed.

(** ** Running a computation *)

Lemma run_bind {A B} (m : M A) (f : A → M B) w a w' :
  m w = (Ok a, w') → (m ≫= f) w = f a w'.
Proof. unfold mbind, M_bind. by intros ->. Qed.

Lemma run_get_obj l ns w : objs w !! l = Some ns → get_obj l w = (Ok ns, w).
Proof. unfold get_obj. by intros ->. Qed.

Lemma run_get_hist h s w : hists w !! h = Some s → get_hist h w = (Ok s, w).
Proof. unfold get_hist. by intros ->. Qed.

Lemma run_modify_obj l f ns w :
  objs w !! l = Some ns → modify_obj l f w = (Ok tt, with_objs (<[l := f ns]> (objs w)) w).
Proof. unfold modify_obj. by intros ->. Qed.

Lemma run_put_hist h s s0 w :
  hists w !! h = Some s0 → put_hist h s w = (Ok tt, with_hists (<[h := s]> (hists w)) w).
Proof. unfold put_hist. by intros ->. Qed.

(** ** Histories *)

Lemma run_get_history self ns s w :
  objs w !! self = Some ns → hists w !! _history ns = Some s →
  get_history self w = (Ok s, w).
Proof.
  intros Hns Hs. unfold get_history.
  erewrite run_bind by (by apply run_get_obj). by apply run_get_hist.
Qed.

Lemma get_history_inv self h w :
  eval (get_history self) w = Ok h →
  ∃ ns, objs w !! self = Some ns ∧ hists w !! _history ns = Some h.
Proof.
  unfold eval, get_history, mbind, M_bind, get_obj, get_hist.
  destruct (objs w !! self) as [ns|]; [|done]. simpl.
  destruct (hists w !! _history ns) as [s|] eqn:E; [|done]. simpl.
  intros [= <-]. eauto.
Qed.

Lemma run_add_to_history self ns s name_s new w :
  objs w !! self = Some ns → hists w !! _history ns = Some s → given name_s = Some new →
  add_to_history self name_s w
  = (Ok tt, with_hists (<[_history ns := s ∪ new]> (hists w)) w).
Proof.
  intros Hns Hs Hg. unfold add_to_history.
  assert (∀ k : gset string → M unit,
    (match name_s with
     | OStr s => mret {[ s ]}
     | _ => names ← operand_names name_s; mret (list_to_set names)
     end ≫= k) w = k new w) as ->.
  { intros k. destruct name_s; simplify_eq/=; reflexivity. }
  erewrite run_bind by (by apply run_get_obj).
  erewrite run_bind by (by apply run_get_hist).
  by eapply run_put_hist.
Qed.

Lemma run_clear_history self ns s w :
  objs w !! self = Some ns → hists w !! _history ns = Some s →
  clear_history self w = (Ok tt, with_hists (<[_history ns := ∅]> (hists w)) w).
Proof.
  intros Hns Hs. unfold clear_history.
  erewrite run_bind by (by apply run_get_obj). by eapply run_put_hist.
Qed.

Lemma run_unlink_history self ns s w :
  objs w !! self = Some ns → hists w !! _history ns = Some s →
  unlink_history self w
  = (Ok tt, with_objs (<[self := set_history (fresh (dom (hists w))) ns]> (objs w))
              (with_hists (<[fresh (dom (hists w)) := s]> (hists w)) w)).
Proof.
  intros Hns Hs. unfold unlink_history.
  erewrite run_bind by (by apply run_get_obj).
  erewrite run_bind by (by apply run_get_hist).
  erewrite run_bind by reflexivity.
  by erewrite run_modify_obj.
Qed.

Lemma run_read_histories (name_sets : list loc) w :
  (∀ s, s ∈ name_sets → ∃ h, eval (get_history s) w = Ok h) →
  ∃ hs, read_histories name_sets w = (Ok hs, w) ∧
        ∀ s h, s ∈ name_sets → eval (get_history s) w = Ok h → h ⊆ ⋃ hs.
Proof.
  induction name_sets as [|s rest IH]; intros Hall; simpl.
  - exists []. split; [done|]. intros ? ? []%elem_of_nil.
  - destruct (Hall s) as [h Hh]; [left|].
    destruct (get_history_inv _ _ _ Hh) as (ns & Hns & Hs).
    destruct IH as (hs & Hrun & Hsub); [intros; apply Hall; by right|].
    exists (h :: hs). split.
    + erewrite run_bind by (by apply run_get_obj).
      erewrite run_bind by (by apply run_get_hist).
      erewrite run_bind by exact Hrun. reflexivity.
    + intros s' h' [->|Hin]%elem_of_cons Hh'; simpl.
      * rewrite Hh in Hh'. injection Hh' as <-. set_solver.
      * specialize (Hsub s' h' Hin Hh'). set_solver.
Qed.

(** the loop that ends [link_histories] *)
Lemma run_link_loop (name_sets : list loc) (shared : loc) w :
  (∀ s, s ∈ name_sets → is_Some (objs w !! s)) →
  ∃ w', for_each name_sets (λ s, modify_obj s (set_history shared)) w = (Ok tt, w') ∧
        hists w' = hists w ∧
        ∀ a ns, objs w !! a = Some ns →
          ∃ ns', objs w' !! a = Some ns' ∧
                 (a ∈ name_sets → _history ns' = shared) ∧
                 (a ∉ name_sets → ns' = ns).
Proof.
  revert w. induction name_sets as [|s rest IH]; intros w Hall; simpl.
  - exists w. split_and!; [done..|]. intros a ns Ha. exists ns.
    split_and!; [done | intros []%elem_of_nil | done].
  - destruct (Hall s) as [ns Hns]; [left|].
    set (w1 := with_objs (<[s := set_history shared ns]> (objs w)) w).
    destruct (IH w1) as (w' & Hrun & Hh & Hobjs).
    { intros s' Hs'. simpl. destruct (decide (s' = s)) as [->|Hne].
      - rewrite lookup_insert_eq. eauto.
      - rewrite lookup_insert_ne by done. apply Hall. by right. }
    exists w'. split_and!.
    + erewrite run_bind by (by apply run_modify_obj). exact Hrun.
    + by rewrite Hh.
    + intros a na Ha. destruct (decide (a = s)) as [->|Hne].
      * destruct (Hobjs s (set_history shared ns)) as (ns' & Hns' & Hin & Hout).
        { simpl. apply lookup_insert_eq. }
        exists ns'. split_and!; [done| |].
        -- intros _. destruct (decide (s ∈ rest)) as [Hr|Hr]; [auto|].
           rewrite (Hout Hr). done.
        -- intros []. left.
      * destruct (Hobjs a na) as (ns' & Hns' & Hin & Hout).
        { simpl. by rewrite lookup_insert_ne. }
        exists ns'. split_and!; [done| |].
        -- intros [?|?]%elem_of_cons; [done | auto].
        -- intros Hnin. apply Hout. intros ?. apply Hnin. by right.
Qed.

Lemma run_link_histories self (others : list loc) hself w :
  (∀ s, s ∈ others → ∃ h, eval (get_history s) w = Ok h) →
  eval (get_history self) w = Ok hself →
  ∃ w' shared H,
    link_histories self others w = (Ok tt, w') ∧
    hists w !! shared = None ∧
    hists w' = <[shared := H]> (hists w) ∧
    hself ⊆ H ∧
    (∀ s h, s ∈ others → eval (get_history s) w = Ok h → h ⊆ H) ∧
    (∀ a ns, objs w !! a = Some ns →
       ∃ ns', objs w' !! a = Some ns' ∧
              (a ∈ self :: others → _history ns' = shared) ∧
              (a ∉ self :: others → ns' = ns)).
Proof.
  intros Hall Hself.
  destruct (run_read_histories others w Hall) as (hs & Hread & Hsub).
  destruct (get_history_inv _ _ _ Hself) as (ns & Hns & Hs).
  set (shared := fresh (dom (hists w))).
  set (w1 := with_hists (<[shared := hself ∪ ⋃ hs]> (hists w)) w).
  set (w2 := with_objs (<[self := set_history shared ns]> (objs w1)) w1).
  destruct (run_link_loop others shared w2) as (w' & Hloop & Hh & Hobjs).
  { intros s Hin. destruct (Hall s Hin) as [h Hh].
    destruct (get_history_inv _ _ _ Hh) as (n & Hn & _). simpl.
    destruct (decide (s = self)) as [->|Hne].
    - rewrite lookup_insert_eq. eauto.
    - rewrite lookup_insert_ne by done. eauto. }
  exists w', shared, (hself ∪ ⋃ hs). split_and!.
  - unfold link_histories.
    erewrite run_bind by exact Hread.
    erewrite run_bind by (by apply run_get_obj).
    erewrite run_bind by (by apply run_get_hist).
    erewrite run_bind by reflexivity.
    erewrite run_bind by (by apply run_modify_obj).
    exact Hloop.
  - apply fresh_hist_None.
  - rewrite Hh. reflexivity.
  - set_solver.
  - intros s h Hin Hh'. specialize (Hsub s h Hin Hh'). set_solver.
  - intros a na Ha. destruct (decide (a = self)) as [->|Hne].
    + destruct (Hobjs self (set_history shared ns)) as (ns' & Hns' & Hin & Hout).
      { simpl. apply lookup_insert_eq. }
      exists ns'. split_and!; [done| |].
      * intros _. destruct (decide (self ∈ others)) as [Hr|Hr]; [auto|].
        rewrite (Hout Hr). done.
      * intros []. left.
    + destruct (Hobjs a na) as (ns' & Hns' & Hin & Hout).
      { simpl. by rewrite lookup_insert_ne. }
      exists ns'. split_and!; [done| |].
      * intros [?|?]%elem_of_cons; [done | auto].
      * intros Hnin. apply Hout. intros ?. apply Hnin. by right.
Qed.

(** two name-sets that hold the same history set see each other's
    additions and clearings *)
Lemma shared_history_sync (X Y : loc) nx ny (H : gset string) w :
  objs w !! X = Some nx → objs w !! Y = Some ny →
  _history nx = _history ny → hists w !! _history nx = Some H →
  (∀ name_s new, given name_s = Some new →
     eval (add_to_history X name_s) w = Ok tt ∧
     eval (get_history X) (exec (add_to_history X name_s) w) = Ok (H ∪ new) ∧
     eval (get_history Y) (exec (add_to_history X name_s) w) = Ok (H ∪ new)) ∧
  (eval (clear_history X) w = Ok tt ∧
   eval (get_history X) (exec (clear_history X) w) = Ok ∅ ∧
   eval (get_history Y) (exec (clear_history X) w) = Ok ∅).
Proof.
  intros Hx Hy Heq HH. split; [intros name_s new Hg|]; unfold eval, exec.
  - rewrite (run_add_to_history X nx H name_s new w) by done. simpl.
    split; [done|].
    rewrite (run_get_history X nx (H ∪ new)); [| done | simpl; apply lookup_insert_eq].
    rewrite (run_get_history Y ny (H ∪ new)); [done | done |].
    simpl. rewrite <- Heq. apply lookup_insert_eq.
  - rewrite (run_clear_history X nx H w) by done. simpl.
    split; [done|].
    rewrite (run_get_history X nx ∅); [| done | simpl; apply lookup_insert_eq].
    rewrite (run_get_history Y ny ∅); [done | done |].
    simpl. rewrite <- Heq. apply lookup_insert_eq.
Qed.

(** C7. After [A.link_histories(..., B, ...)] the two name-sets read the
    same history, which holds what each had; names added through either are
    read through the other, and clearing through either clears both.  After
    [B.unlink_history()], [B] reads what it read before, and still does
    after names are added through [A]. *)
Theorem linked_histories (w : World) (A B : loc) (others : list loc) (hA hB : gset string) :
  A ≠ B → B ∈ others →
  (∀ s, s ∈ others → ∃ h, eval (get_history s) w = Ok h) →
  eval (get_history A) w = Ok hA →
  eval (get_history B) w = Ok hB →
  let w1 := exec (link_histories A others) w in
  eval (link_histories A others) w = Ok tt ∧
  ∃ H : gset string,
    hA ⊆ H ∧ hB ⊆ H ∧
    eval (get_history A) w1 = Ok H ∧
    eval (get_history B) w1 = Ok H ∧
    (* adding through A, reading through B *)
    (∀ name_s new, given name_s = Some new →
       eval (add_to_history A name_s) w1 = Ok tt ∧
       eval (get_history A) (exec (add_to_history A name_s) w1) = Ok (H ∪ new) ∧
       eval (get_history B) (exec (add_to_history A name_s) w1) = Ok (H ∪ new)) ∧
    (* adding through B, reading through A *)
    (∀ name_s new, given name_s = Some new →
       eval (add_to_history B name_s) w1 = Ok tt ∧
       eval (get_history B) (exec (add_to_history B name_s) w1) = Ok (H ∪ new) ∧
       eval (get_history A) (exec (add_to_history B name_s) w1) = Ok (H ∪ new)) ∧
    (* clearing through one clears both *)
    (eval (clear_history A) w1 = Ok tt ∧
     eval (get_history A) (exec (clear_history A) w1) = Ok ∅ ∧
     eval (get_history B) (exec (clear_history A) w1) = Ok ∅) ∧
    (eval (clear_history B) w1 = Ok tt ∧
     eval (get_history B) (exec (clear_history B) w1) = Ok ∅ ∧
     eval (get_history A) (exec (clear_history B) w1) = Ok ∅) ∧
    (* unlinking B *)
    (let w2 := exec (unlink_history B) w1 in
     eval (unlink_history B) w1 = Ok tt ∧
     eval (get_history B) w2 = Ok H ∧
     eval (get_history A) w2 = Ok H ∧
     ∀ name_s new, given name_s = Some new →
       let w3 := exec (add_to_history A name_s) w2 in
       eval (add_to_history A name_s) w2 = Ok tt ∧
       eval (get_history A) w3 = Ok (H ∪ new) ∧
       eval (get_history B) w3 = Ok H ∧
       (∀ (name : string) (h : gset string),
          name ∉ H → eval (get_history B) w3 = Ok h → name ∉ h)).
Proof.
  intros Hne HB Hall HhA HhB w1.
  destruct (run_link_histories A others hA w Hall HhA)
    as (w' & shared & H & Hrun & Hfresh & Hh' & HsubA & Hsub & Hobjs).
  assert (w1 = w') as -> by (unfold w1, exec; by rewrite Hrun).
  split; [unfold eval; by rewrite Hrun|].
  destruct (get_history_inv _ _ _ HhA) as (nA & HnA & HsA).
  destruct (get_history_inv _ _ _ HhB) as (nB & HnB & HsB).
  destruct (Hobjs A nA HnA) as (nA' & HnA' & HinA & _).
  destruct (Hobjs B nB HnB) as (nB' & HnB' & HinB & _).
  specialize (HinA ltac:(left)). specialize (HinB ltac:(by right)).
  assert (hists w' !! shared = Some H) as HH by (rewrite Hh'; apply lookup_insert_eq).
  exists H.
  refine (conj _ (conj _ (conj _ (conj _ (conj _ (conj _ (conj _ (conj _ _)))))))).
  - exact HsubA.
  - by eapply Hsub.
  - unfold eval. by rewrite (run_get_history A nA' H) by congruence.
  - unfold eval. by rewrite (run_get_history B nB' H) by congruence.
  - apply (shared_history_sync A B nA' nB' H w'); congruence.
  - apply (shared_history_sync B A nB' nA' H w'); congruence.
  - apply (shared_history_sync A B nA' nB' H w'); congruence.
  - apply (shared_history_sync B A nB' nA' H w'); congruence.
  - simpl. unfold eval, exec.
    rewrite (run_unlink_history B nB' H w') by congruence. simpl.
    set (hf := fresh (dom (hists w'))).
    set (w2 := with_objs _ _).
    assert (hf ≠ shared) as Hhf.
    { intros Heq. pose proof (fresh_hist_None w') as Hn. fold hf in Hn. congruence. }
    assert (objs w2 !! A = Some nA') as HA2.
    { unfold w2; simpl. by rewrite lookup_insert_ne. }
    assert (objs w2 !! B = Some (set_history hf nB')) as HB2.
    { unfold w2; simpl. apply lookup_insert_eq. }
    assert (hists w2 !! hf = Some H) as Hhf2.
    { unfold w2; simpl. apply lookup_insert_eq. }
    assert (hists w2 !! shared = Some H) as Hsh2.
    { unfold w2; simpl. by rewrite lookup_insert_ne. }
    refine (conj _ (conj _ (conj _ _))); [done | | |].
    + by rewrite (run_get_history B _ H w2 HB2).
    + rewrite (run_get_history A _ H w2 HA2); [done | congruence].
    + intros name_s new Hg.
      rewrite (run_add_to_history A nA' H name_s new w2); [| done | congruence | done].
      cbn [fst snd].
      assert (get_history B (with_hists (<[_history nA':=H ∪ new]> (hists w2)) w2)
              = (Ok H, with_hists (<[_history nA':=H ∪ new]> (hists w2)) w2)) as HgB.
      { apply (run_get_history B (set_history hf nB') H); [done|].
        simpl. rewrite HinA. by rewrite lookup_insert_ne. }
      refine (conj _ (conj _ (conj _ _))); [done | | |].
      * rewrite (run_get_history A nA' (H ∪ new)); [done | done |].
        simpl. apply lookup_insert_eq.
      * by rewrite HgB.
      * intros name h Hname. rewrite HgB. simpl. by intros [= <-].
Qed.

(** ** Which computations can raise [TypeError] *)

Lemma nte_bind {A B} (m : M A) (f : A → M B) :
  no_type_error m → (∀ a, no_type_error (f a)) → no_type_error (m ≫= f).
Proof.
  intros Hm Hf w. unfold mbind, M_bind. specialize (Hm w).
  destruct (m w) as [[a|e|] w']; simpl in *; [apply Hf | congruence | done].
Qed.

Lemma nte_ret {A} (a : A) : no_type_error (mret a).
Proof. by intros w. Qed.

Lemma nte_raise {A} e : e ≠ TypeError → no_type_error (@raise A e).
Proof. intros He w. simpl. congruence. Qed.

Lemma nte_diverge {A} : no_type_error (@diverge A).
Proof. by intros w. Qed.

Lemma nte_get_obj l : no_type_error (get_obj l).
Proof. intros w. unfold get_obj. by destruct (objs w !! l). Qed.

Lemma nte_modify_obj l f : no_type_error (modify_obj l f).
Proof. intros w. unfold modify_obj. by destruct (objs w !! l). Qed.

Lemma nte_alloc_obj ns : no_type_error (alloc_obj ns).
Proof. by intros w. Qed.

Lemma nte_get_hist h : no_type_error (get_hist h).
Proof. intros w. unfold get_hist. by destruct (hists w !! h). Qed.

Lemma nte_put_hist h s : no_type_error (put_hist h s).
Proof. intros w. unfold put_hist. by destruct (hists w !! h). Qed.

Lemma nte_alloc_hist s : no_type_error (alloc_hist s).
Proof. by intros w. Qed.

Lemma nte_warn c : no_type_error (warn c).
Proof. by intros w. Qed.

Lemma nte_pydiv a b : no_type_error (pydiv a b).
Proof. intros w. unfold pydiv. by destruct (Qeq_bool b 0). Qed.

Lemma nte_for_each {A} (l : list A) body :
  (∀ x, no_type_error (body x)) → no_type_error (for_each l body).
Proof.
  intros Hb. induction l as [|x l IH]; simpl; [apply nte_ret|].
  apply nte_bind; [apply Hb | intros; apply IH].
Qed.

Create HintDb nte discriminated.
#[export] Hint Resolve nte_ret nte_diverge nte_get_obj nte_modify_obj nte_alloc_obj
  nte_get_hist nte_put_hist nte_alloc_hist nte_warn nte_pydiv : nte.

Ltac nte :=
  repeat first
    [ lazymatch goal with |- ∀ _, _ => intro end
    | solve [eauto with nte]
    | lazymatch goal with |- no_type_error (_ ≫= _) => apply nte_bind end
    | lazymatch goal with |- no_type_error (for_each _ _) => apply nte_for_each end
    | apply nte_raise; discriminate
    | match goal with
      | |- no_type_error (if ?b then _ else _) => destruct b
      | |- no_type_error (match ?x with _ => _ end) => destruct x eqn:?
      end ].

Lemma nte_update_avg self : no_type_error (_update_avg_name_len self).
Proof. unfold _update_avg_name_len. nte. Qed.

Lemma nte_make_markov_dict self : no_type_error (_make_markov_dict self).
Proof. unfold _make_markov_dict. nte. Qed.
#[export] Hint Resolve nte_update_avg nte_make_markov_dict : nte.

Lemma nte_init names order f : no_type_error (__init__ names order f).
Proof. unfold __init__. nte. Qed.
#[export] Hint Resolve nte_init : nte.

Lemma nte_copy self : no_type_error (copy self).
Proof. unfold copy. nte. Qed.

Lemma nte_change_order self order : no_type_error (change_order self order).
Proof. unfold change_order. nte. Qed.

Lemma nte_change_name_len_func self f : no_type_error (change_name_len_func self f).
Proof. unfold change_name_len_func. nte. Qed.
#[export] Hint Resolve nte_copy nte_change_order nte_change_name_len_func : nte.

Lemma nte_operand_names other : no_type_error (operand_names other).
Proof. unfold operand_names. nte. Qed.

Lemma nte_warn_mismatch self other : no_type_error (warn_mismatch self other).
Proof. unfold warn_mismatch. nte. Qed.
#[export] Hint Resolve nte_operand_names nte_warn_mismatch : nte.

Lemma nte_as_name_set self other : is_str other = false → no_type_error (as_name_set self other).
Proof. destruct other; [done | |]; intros _; unfold as_name_set; nte. Qed.

Lemma nte_check_operand self other :
  is_str other = false → no_type_error (check_operand self other).
Proof. destruct other; [done | |]; intros _; unfold check_operand; nte. Qed.

Lemma nte_iadd self other : is_str other = false → no_type_error (__iadd__ self other).
Proof.
  intros Hs. unfold __iadd__. apply nte_bind; [by apply nte_as_name_set|]. nte.
Qed.

Lemma list_remove_all_exn letters l :
  (list_remove_all letters l).1 ≠ Raise TypeError.
Proof.
  revert l. induction letters as [|x letters IH]; intros l; simpl; [done|].
  destruct (bool_decide _); [apply IH | done].
Qed.

Lemma dict_remove_letters_exn d key letters :
  (dict_remove_letters d key letters).1 ≠ Raise TypeError.
Proof.
  unfold dict_remove_letters. destruct (d !! key) as [l|]; [|done].
  pose proof (list_remove_all_exn letters l) as Hl.
  destruct (list_remove_all letters l) as [[[]|e|] [|x l']]; simpl in *; done.
Qed.

Lemma nte_remove_letters self d key letters :
  no_type_error (let '(outcome, d') := dict_remove_letters d key letters in
                 modify_obj self (set_markov_dict d');;
                 match outcome with
                 | Ok _ => mret tt
                 | Raise e => raise e
                 | Diverge => diverge
                 end).
Proof.
  pose proof (dict_remove_letters_exn d key letters) as Hd.
  destruct (dict_remove_letters d key letters) as [outcome d']. simpl in Hd.
  apply nte_bind; [apply nte_modify_obj|]. intros [].
  destruct outcome as [[]|e|]; [apply nte_ret | apply nte_raise; congruence | apply nte_diverge].
Qed.

Lemma nte_remove self name : no_type_error (remove self name).
Proof. unfold remove. pose proof nte_remove_letters. nte. Qed.
#[export] Hint Resolve nte_remove : nte.

Lemma nte_remove_duplicates_loop self names seen :
  no_type_error (remove_duplicates_loop self names seen).
Proof.
  revert seen. induction names as [|name names IH]; intros seen; simpl; [apply nte_ret|].
  destruct (bool_decide _); [|apply IH].
  apply nte_bind; [apply nte_remove | intros; apply IH].
Qed.

Lemma nte_remove_duplicates self : no_type_error (remove_duplicates self).
Proof.
  unfold remove_duplicates. apply nte_bind; [apply nte_get_obj|].
  intros. apply nte_remove_duplicates_loop.
Qed.

Lemma nte_isub_step self name : no_type_error (isub_step self name).
Proof. unfold isub_step, __contains__. nte. Qed.

Lemma nte_iter_name_set steps o index body :
  (∀ x, no_type_error (body x)) → no_type_error (iter_name_set steps o index body).
Proof.
  intros Hb. revert index. induction steps as [|steps IH]; intros index; simpl; [apply nte_ret|].
  apply nte_bind; [apply nte_get_obj|]. intros ns.
  destruct (_ !! index); [|apply nte_ret].
  apply nte_bind; [apply Hb | intros; apply IH].
Qed.

Lemma nte_for_operand other body :
  (∀ x, no_type_error (body x)) → no_type_error (for_operand other body).
Proof.
  intros Hb. destruct other; simpl.
  - by apply nte_for_each.
  - unfold __len__. apply nte_bind; [nte|]. intros. by apply nte_iter_name_set.
  - by apply nte_for_each.
Qed.

Lemma nte_in_place op self other :
  is_str other = false → no_type_error (in_place op self other).
Proof.
  intros Hs. destruct op; simpl.
  - by apply nte_iadd.
  - unfold __isub__. apply nte_bind; [by apply nte_check_operand|]. intros.
    apply nte_bind; [|intros; apply nte_ret].
    apply nte_for_operand, nte_isub_step.
  - unfold __ior__. apply nte_bind; [by apply nte_check_operand|]. intros.
    apply nte_bind; [apply nte_operand_names|]. intros.
    apply nte_bind; [apply nte_get_obj|]. intros.
    apply nte_bind; [by apply nte_iadd|]. intros.
    apply nte_bind; [apply nte_remove_duplicates|]. intros. apply nte_ret.
  - unfold __iand__. apply nte_bind; [by apply nte_check_operand|]. nte.
Qed.

Lemma nte_binary op self other :
  is_str other = false → no_type_error (binary op self other).
Proof.
  intros Hs.
  assert (∀ iop, (∀ c, no_type_error (iop c other)) →
                 no_type_error (binary_op iop self other)) as Hb.
  { intros iop Hiop. unfold binary_op, clear_history. pose proof nte_copy. nte. }
  destruct op; simpl; apply Hb; intros c.
  - by apply (nte_in_place Add).
  - by apply (nte_in_place Sub).
  - by apply (nte_in_place Or).
  - by apply (nte_in_place And).
Qed.

(** ** What the constructor and [copy] build *)

Lemma nat_Q_S_nonzero n : Qeq_bool (nat_Q (S n)) 0 = false.
Proof.
  unfold nat_Q, Qeq_bool, inject_Z. reflexivity.
Qed.

Lemma py_int_nat_Q n : py_int (nat_Q n) = Z.of_nat n.
Proof. unfold py_int, nat_Q, inject_Z. simpl. apply Z.quot_1_r. Qed.

Lemma order_checks_nat_Q n :
  negb (Qeq_bool (inject_Z (py_int (nat_Q n))) (nat_Q n)) = false ∧
  negb (Qle_bool 0 (nat_Q n)) = false.
Proof.
  rewrite py_int_nat_Q. split.
  - apply negb_false_iff, Qeq_bool_iff. reflexivity.
  - apply negb_false_iff, Qle_bool_iff. unfold nat_Q, Qle, inject_Z. simpl. lia.
Qed.

Lemma run_update_avg_name_len self ns w :
  objs w !! self = Some ns →
  _update_avg_name_len self w
  = (Ok tt, with_objs (<[self := set_avg_name_len (mean_of (_name_len_func ns) (_names ns)) ns]>
                         (objs w)) w).
Proof.
  intros Hns. unfold _update_avg_name_len.
  erewrite run_bind by (by apply run_get_obj).
  unfold mean_of. destruct (_names ns) as [|x l] eqn:E.
  - by apply run_modify_obj.
  - unfold pydiv. simpl length. rewrite nat_Q_S_nonzero.
    erewrite run_bind by reflexivity. by apply run_modify_obj.
Qed.

Lemma run_make_markov_dict self ns w :
  objs w !! self = Some ns →
  _make_markov_dict self w
  = (Ok tt, with_objs (<[self := set_markov_dict (make_markov_dict (_names ns) (_order ns)) ns]>
                         (objs w)) w).
Proof.
  intros Hns. unfold _make_markov_dict.
  by rewrite (run_modify_obj self _ ns) by done.
Qed.

Lemma run_init names (order : nat) f w :
  let h := fresh (dom (hists w)) in
  let l := fresh (dom (objs w)) in
  __init__ names (nat_Q order) f w
  = (Ok l, with_objs (<[l := new_name_set names order f h]> (objs w))
             (with_hists (<[h := ∅]> (hists w)) w)).
Proof.
  intros h l. unfold __init__.
  destruct (order_checks_nat_Q order) as [-> ->].
  erewrite run_bind by reflexivity.
  erewrite run_bind by reflexivity.
  erewrite run_bind.
  2:{ apply run_update_avg_name_len. simpl. apply lookup_insert_eq. }
  erewrite run_bind.
  2:{ apply run_make_markov_dict. simpl. apply lookup_insert_eq. }
  simpl. unfold with_objs, with_hists; simpl.
  rewrite !insert_insert_eq. rewrite py_int_nat_Q, Nat2Z.id. reflexivity.
Qed.

Ltac wsimpl :=
  cbn [objs hists banned_words rng_draws rng_pos warnings
       with_objs with_hists with_banned_words with_rng_pos with_warnings].

(** one more step of a run: [m] is run by [tac] and its continuation entered *)
Ltac run_step tac := erewrite run_bind by (wsimpl; tac); wsimpl.
Ltac run_modify := run_step ltac:(apply run_modify_obj; wsimpl; apply lookup_insert_eq).

Lemma run_copy self ns s w :
  objs w !! self = Some ns → hists w !! _history ns = Some s →
  ∃ c hc w',
    copy self w = (Ok c, w') ∧
    objs w !! c = None ∧ hists w !! hc = None ∧
    objs w' = <[c := set_in_operation false (set_history hc ns)]> (objs w) ∧
    hists w' !! hc = Some s ∧
    (∀ h x, hists w !! h = Some x → hists w' !! h = Some x) ∧
    banned_words w' = banned_words w ∧ rng_draws w' = rng_draws w ∧
    rng_pos w' = rng_pos w.
Proof.
  intros Hns Hs.
  set (h0 := fresh (dom (hists w))).
  set (c := fresh (dom (objs w))).
  set (hc := fresh (dom (<[h0 := ∅]> (hists w)))).
  assert (hists w !! h0 = None) as Hh0 by apply fresh_hist_None.
  assert (objs w !! c = None) as Hc by apply fresh_obj_None.
  assert ((<[h0 := ∅]> (hists w) : gmap loc (gset string)) !! hc = None) as Hhc.
  { apply not_elem_of_dom, is_fresh. }
  assert (hc ≠ h0) as Hne.
  { intros Heq. rewrite Heq, lookup_insert_eq in Hhc. done. }
  assert (hists w !! hc = None) as Hhc'.
  { by rewrite lookup_insert_ne in Hhc. }
  eexists c, hc, _. split.
  - unfold copy.
    run_step ltac:(by apply run_get_obj).
    unfold order_Q. run_step ltac:(apply run_init).
    fold h0 c.
    do 4 run_modify.
    run_step ltac:(apply run_get_hist; wsimpl; rewrite lookup_insert_ne;
                   [exact Hs | intros ?; congruence]).
    run_step ltac:(reflexivity).
    run_modify.
    reflexivity.
  - wsimpl. fold hc. split_and!; try done.
    + rewrite !insert_insert_eq. destruct ns; reflexivity.
    + apply lookup_insert_eq.
    + intros h x Hx. rewrite !lookup_insert_ne; [done | congruence..].
Qed.

(** ** Bare strings *)

Lemma in_place_str op self s w : in_place op self (OStr s) w = (Raise TypeError, w).
Proof. destruct op; reflexivity. Qed.

Lemma binary_str op self ns h s w :
  objs w !! self = Some ns → hists w !! _history ns = Some h →
  eval (binary op self (OStr s)) w = Raise TypeError.
Proof.
  intros Hns Hh.
  destruct (run_copy self ns h w Hns Hh) as (c & hc & w' & Hrun & _ & _ & Hobjs & _).
  assert (∀ iop, (∀ w, iop c (OStr s) w = (Raise TypeError, w)) →
                 eval (binary_op iop self (OStr s)) w = Raise TypeError) as Hb.
  { intros iop Hiop. unfold eval, binary_op.
    erewrite run_bind by exact Hrun.
    erewrite run_bind by (apply run_modify_obj; rewrite Hobjs; apply lookup_insert_eq).
    unfold mbind, M_bind. by rewrite Hiop. }
  destruct op; apply Hb; intros w0.
  - apply (in_place_str Add).
  - apply (in_place_str Sub).
  - apply (in_place_str Or).
  - apply (in_place_str And).
Qed.

(** C8, as the code has it.  The four operators and their in-place forms
    refuse a bare string with [TypeError] (the in-place forms before they
    touch anything), and never answer [TypeError] to a collection that holds
    one string; [add_to_history] takes a bare string as one name, with the
    effect of adding the collection that holds it. *)
Theorem bare_string_operand (op : operator) (w : World) (self : loc) (ns : NameSet)
    (h : gset string) (s : string) :
  objs w !! self = Some ns → hists w !! _history ns = Some h →
  in_place op self (OStr s) w = (Raise TypeError, w) ∧
  eval (binary op self (OStr s)) w = Raise TypeError ∧
  eval (in_place op self (OColl [s])) w ≠ Raise TypeError ∧
  eval (binary op self (OColl [s])) w ≠ Raise TypeError ∧
  add_to_history self (OStr s) w
  = (Ok tt, with_hists (<[_history ns := h ∪ {[ s ]}]> (hists w)) w) ∧
  add_to_history self (OColl [s]) w = add_to_history self (OStr s) w.
Proof.
  intros Hns Hh. split_and!.
  - apply in_place_str.
  - by eapply binary_str.
  - by apply nte_in_place.
  - by apply nte_binary.
  - by apply (run_add_to_history self ns h).
  - rewrite (run_add_to_history self ns h (OStr s) {[ s ]}) by done.
    rewrite (run_add_to_history self ns h (OColl [s]) (list_to_set [s])) by done.
    simpl. by rewrite (right_id_L ∅ (∪)).
Qed.

(** C8, as stated, fails for [add_to_history]: a bare string is accepted
    and recorded. *)
Lemma add_to_history_accepts_str :
  let w := exec (__init__ ["name1"] 3%Q DEFAULT_NAME_LEN_FUNC) empty_world in
  eval (add_to_history 0 (OStr "hey")) w ≠ Raise TypeError ∧
  eval (add_to_history 0 (OStr "hey")) w = Ok tt ∧
  eval (get_history 0) (exec (add_to_history 0 (OStr "hey")) w) = Ok {[ "hey" ]}.
Proof. vm_compute. split_and!; [discriminate | reflexivity..]. Qed.

Lemma bare_string_operand_witness :
  let w := exec (__init__ ["name1"] 3%Q DEFAULT_NAME_LEN_FUNC) empty_world in
  eval (binary Sub 0 (OStr "hi")) w = Raise TypeError ∧
  eval (binary Sub 0 (OColl ["hi"])) w ≠ Raise TypeError.
Proof.
  intros w.
  destruct (bare_string_operand Sub w 0
              (new_name_set ["name1"] 3 DEFAULT_NAME_LEN_FUNC 0) ∅ "hi")
    as (_ & H1 & _ & H2 & _).
  - vm_compute. reflexivity.
  - vm_compute. reflexivity.
  - split; assumption.
Defined.

(** ** The validity filter *)

Lemma append_cons c s t : String c s +:+ t = String c (s +:+ t).
Proof. reflexivity. Qed.










(** ** Ranking the candidates *)













(** ** The candidates *)

Lemma same_but_rng_refl w : same_but_rng w w.
Proof. by destruct w. Qed.

Lemma same_but_rng_trans w1 w2 w3 :
  same_but_rng w1 w2 → same_but_rng w2 w3 → same_but_rng w1 w3.
Proof. unfold same_but_rng. intros -> ->. reflexivity. Qed.

Lemma bind_ok_inv {A B} (m : M A) (f : A → M B) w b w' :
  (m ≫= f) w = (Ok b, w') → ∃ a w1, m w = (Ok a, w1) ∧ f a w1 = (Ok b, w').
Proof.
  unfold mbind, M_bind. destruct (m w) as [[a|e|] w1]; [eauto | done..].
Qed.

Lemma replicate_M_S_inv {A} k (m : M A) w l w' :
  replicate_M (S k) m w = (Ok l, w') →
  ∃ x xs w1, l = x :: xs ∧ m w = (Ok x, w1) ∧ replicate_M k m w1 = (Ok xs, w').
Proof.
  simpl. intros (x & w1 & Hm & H)%bind_ok_inv.
  apply bind_ok_inv in H as (xs & w2 & Hxs & [= <- <-]). eauto 10.
Qed.

Lemma replicate_M_cons {A} k (m : M A) w x xs w1 w' :
  m w = (Ok x, w1) → replicate_M k m w1 = (Ok xs, w') →
  replicate_M (S k) m w = (Ok (x :: xs), w').
Proof.
  intros Hm Hk. simpl. erewrite run_bind by exact Hm. by erewrite run_bind by exact Hk.
Qed.

Lemma replicate_M_app {A} a b (m : M A) w l1 l2 w1 w2 :
  replicate_M a m w = (Ok l1, w1) → replicate_M b m w1 = (Ok l2, w2) →
  replicate_M (a + b) m w = (Ok (l1 ++ l2), w2).
Proof.
  revert w l1. induction a as [|a IH]; intros w l1.
  - simpl. by intros [= <- <-].
  - intros (x & xs & w' & -> & Hm & Hxs)%replicate_M_S_inv Hb.
    simpl plus. simpl app. eapply replicate_M_cons; eauto.
Qed.

(** a shorter run of a run that ends well ends well *)
Lemma replicate_M_le {A} a k (m : M A) w l w' :
  replicate_M k m w = (Ok l, w') → a ≤ k →
  ∃ l1 w1, replicate_M a m w = (Ok l1, w1).
Proof.
  revert k w l. induction a as [|a IH]; intros k w l Hk Hle; [by eexists _, _|].
  destruct k as [|k]; [lia|].
  apply replicate_M_S_inv in Hk as (x & xs & w1 & -> & Hm & Hxs).
  destruct (IH k w1 xs Hxs ltac:(lia)) as (l1 & w2 & H1).
  eexists _, _. by eapply replicate_M_cons.
Qed.

Section generation.
Context (fuel : nat) (self : loc).

Lemma get_letter_rng key w r w' :
  _get_letter self key w = (r, w') → same_but_rng w w'.
Proof.
  unfold _get_letter, try_except, mbind, M_bind, get_obj, dict_get, choice.
  destruct (objs w !! self) as [ns|]; simpl; [|intros [= <- <-]; apply same_but_rng_refl].
  destruct (_markov_dict ns !! key) as [[|x l]|]; simpl;
    intros [= <- <-]; try apply same_but_rng_refl.
  by destruct w.
Qed.

Lemma make_name_raw_loop_rng name key w r w' :
  _make_name_raw_loop fuel self name key w = (r, w') → same_but_rng w w'.
Proof.
  revert name key w. induction fuel as [|fuel' IH]; intros name key w; simpl.
  - intros [= <- <-]. apply same_but_rng_refl.
  - unfold mbind at 1, M_bind at 1.
    destruct (_get_letter self key w) as [[[c|]|e|] w1] eqn:E;
      pose proof (get_letter_rng _ _ _ _ E) as H1;
      try (intros [= <- <-]; exact H1).
    unfold mbind, M_bind, get_obj.
    destruct (objs w1 !! self) as [ns|]; [|intros [= <- <-]; exact H1].
    intros H2%IH. by eapply same_but_rng_trans.
Qed.

Lemma make_name_raw_rng w r w' :
  _make_name_raw fuel self w = (r, w') → same_but_rng w w'.
Proof. apply make_name_raw_loop_rng. Qed.

Lemma replicate_raw_rng k w l w' :
  replicate_M k (_make_name_raw fuel self) w = (Ok l, w') → same_but_rng w w'.
Proof.
  revert w l. induction k as [|k IH]; intros w l.
  - intros [= <- <-]. apply same_but_rng_refl.
  - intros (x & xs & w1 & -> & Hm & Hxs)%replicate_M_S_inv.
    eapply same_but_rng_trans; [by eapply make_name_raw_rng | by eapply IH].
Qed.

Context (args : kw.t) (ns : NameSet) (hist : gset string) (w0 : World).
Context (Hns : objs w0 !! self = Some ns) (Hhist : hists w0 !! _history ns = Some hist).

Let valid := name_valid args (_names_set ns) hist (banned_words w0).
Let gen := _make_name_raw fuel self.

Lemma attempt_loop_spec m w k raws w_end :
  same_but_rng w0 w →
  replicate_M k gen w = (Ok raws, w_end) → m ≤ k →
  ∃ tried found w1,
    attempt_loop fuel self args m w = (Ok found, w1) ∧
    replicate_M (length tried) gen w = (Ok tried, w1) ∧
    slot_run valid m tried found ∧
    ∃ raws', replicate_M (k - length tried) gen w1 = (Ok raws', w_end).
Proof.
  revert w k raws. induction m as [|m IH]; intros w k raws Hw Hgen Hle.
  - exists [], None, w. simpl. split_and!; [done.. | by constructor |].
    rewrite Nat.sub_0_r. eauto.
  - destruct k as [|k]; [lia|].
    apply replicate_M_S_inv in Hgen as (x & xs & w1 & -> & Hx & Hxs).
    assert (same_but_rng w0 w1) as Hw1.
    { eapply same_but_rng_trans; [exact Hw | by eapply make_name_raw_rng]. }
    assert (objs w1 !! self = Some ns) as Hns1 by (rewrite Hw1; exact Hns).
    assert (hists w1 !! _history ns = Some hist) as Hh1 by (rewrite Hw1; exact Hhist).
    assert (banned_words w1 = banned_words w0) as Hb1 by (by rewrite Hw1).
    assert (attempt_loop fuel self args (S m) w
            = if valid x then (Ok (Some x), w1) else attempt_loop fuel self args m w1) as Hrun.
    { simpl. erewrite run_bind by exact Hx.
      erewrite run_bind by (by apply run_get_obj).
      erewrite run_bind by (by apply run_get_hist).
      erewrite run_bind by reflexivity.
      rewrite Hb1. fold valid. by destruct (valid x). }
    destruct (valid x) eqn:Hv.
    + exists [x], (Some x), w1. split_and!.
      * exact Hrun.
      * by eapply replicate_M_cons.
      * apply (slot_found valid (S m) [] x); [simpl; lia | constructor | done].
      * simpl. rewrite Nat.sub_0_r. eauto.
    + destruct (IH w1 k xs Hw1 Hxs ltac:(lia))
        as (tried & found & w2 & Hloop & Htried & Hslot & Hrest).
      exists (x :: tried), found, w2. split_and!.
      * by rewrite Hrun.
      * by eapply replicate_M_cons.
      * destruct Hslot as [pre c Hlen Hpre Hc | tried Hlen Hall].
        -- apply (slot_found valid (S m) (x :: pre) c);
             [simpl; lia | by constructor | done].
        -- apply slot_empty; [simpl; lia | by constructor].
      * exact Hrest.
Qed.

Lemma slot_run_length m tried found : slot_run valid m tried found → length tried ≤ m.
Proof.
  intros [pre c Hlen _ _ | tried' Hlen _]; [|lia].
  rewrite length_app. simpl. lia.
Qed.

Lemma candidates_loop_spec n acc w k raws w_end :
  same_but_rng w0 w →
  replicate_M k gen w = (Ok raws, w_end) → n * kw.max_attempts args ≤ k →
  ∃ trieds cands w1,
    candidates_loop fuel self args n acc w = (Ok (acc ++ cands), w1) ∧
    slots_run valid (kw.max_attempts args) n trieds cands ∧
    replicate_M (length (concat trieds)) gen w = (Ok (concat trieds), w1).
Proof.
  revert acc w k raws. induction n as [|n IH]; intros acc w k raws Hw Hgen Hle.
  - exists [], [], w. simpl. rewrite app_nil_r. split_and!; [done | constructor | done].
  - destruct (attempt_loop_spec (kw.max_attempts args) w k raws w_end Hw Hgen ltac:(lia))
      as (tried & found & w1 & Hloop & Htried & Hslot & raws' & Hrest).
    pose proof (slot_run_length _ _ _ Hslot) as Hlen.
    assert (same_but_rng w0 w1) as Hw1.
    { eapply same_but_rng_trans; [exact Hw | by eapply replicate_raw_rng]. }
    destruct (IH (match found with Some name => acc ++ [name] | None => acc end)
                w1 (k - length tried) raws' Hw1 Hrest ltac:(simpl in Hle; lia))
      as (trieds & cands & w2 & Hloop2 & Hslots & Htrieds).
    exists (tried :: trieds), (option_list found ++ cands), w2. split_and!.
    + simpl. erewrite run_bind by exact Hloop. rewrite Hloop2.
      destruct found; simpl; by rewrite <- ?app_assoc.
    + by constructor.
    + simpl. rewrite length_app. by eapply replicate_M_app.
Qed.
End generation.



Lemma run_map_M_pydiv_zero {A} (g : A → Q) (d : Q) (x : A) (l : list A) w :
  Qeq_bool d 0 = true →
  map_M (λ x, pydiv (g x) d) (x :: l) w = (Raise ZeroDivisionError, w).
Proof. intros Hd. simpl. unfold mbind, M_bind, pydiv. by rewrite Hd. Qed.

(** [make_name], once the candidates are known *)
Lemma make_name_candidates fuel self args w cands w1 :
  candidates_loop fuel self args (kw.n_candidates args) [] w = (Ok cands, w1) →
  make_name fuel self args w
  = match cands with
    | [] => (Ok EmptyString, w1)
    | _ :: _ =>
        (ns ← get_obj self;
         sort_key ←
           (if (kw.pref_candidate args =? AVG)%Z
            then mret (λ name : string,
                   pydiv (Qabs (lf_call (_name_len_func ns) name - _avg_name_len ns))
                         (_avg_name_len ns))
            else if (kw.pref_candidate args =? MIN)%Z || (kw.pref_candidate args =? MAX)%Z
            then mret (λ name : string, mret (lf_call (_name_len_func ns) name))
            else raise ValueError);
         keys ← map_M sort_key cands;
         match list_sort keys cands (kw.pref_candidate args =? MAX)%Z with
         | [] => raise IndexError
         | name :: _ =>
             (if kw.add_to_history args then add_to_history self (OStr name) else mret tt);;
             mret name
         end) w1
    end.
Proof.
  intros Hc. unfold make_name. erewrite run_bind by exact Hc. by destruct cands.
Qed.



(** ** Where [make_name] fails to report, or fails *)

(** C4: what the code does.  With preference [AVG] and a mean of 0,
    [make_name] raises [ZeroDivisionError] as soon as one candidate was
    found: the sort key divides by the mean. *)
Theorem make_name_avg_zero_mean (fuel : nat) (w : World) (self : loc) (ns : NameSet)
    (hist : gset string) (args : kw.t) (raws : list string) (w_end : World) :
  objs w !! self = Some ns →
  hists w !! _history ns = Some hist →
  replicate_M (kw.n_candidates args * kw.max_attempts args) (_make_name_raw fuel self) w
  = (Ok raws, w_end) →
  kw.pref_candidate args = AVG →
  (_avg_name_len ns == 0)%Q →
  ∃ trieds cands w1,
    slots_run (name_valid args (_names_set ns) hist (banned_words w))
              (kw.max_attempts args) (kw.n_candidates args) trieds cands ∧
    (cands ≠ [] → make_name fuel self args w = (Raise ZeroDivisionError, w1)).
Proof.
  intros Hns Hhist Hgen Hpref Havg.
  destruct (candidates_loop_spec fuel self args ns hist w Hns Hhist
              (kw.n_candidates args) [] w _ raws w_end (same_but_rng_refl w) Hgen (le_n _))
    as (trieds & cands & w1 & Hloop & Hslots & Htried).
  simpl in Hloop.
  pose proof (replicate_raw_rng _ _ _ _ _ _ Htried) as Hw1.
  exists trieds, cands, w1. split; [done|]. intros Hne.
  rewrite (make_name_candidates _ _ _ _ _ _ Hloop).
  destruct cands as [|c cands]; [done|].
  assert (objs w1 !! self = Some ns) as Hns1 by (rewrite Hw1; exact Hns).
  erewrite run_bind by (by apply run_get_obj).
  rewrite Hpref. simpl Z.eqb. cbv iota.
  erewrite run_bind by reflexivity.
  apply Qeq_bool_iff in Havg.
  unfold mbind, M_bind. by rewrite run_map_M_pydiv_zero.
Qed.

(** the generator on a table with no entry for the empty context *)
Lemma run_make_name_raw_empty fuel self ns w :
  objs w !! self = Some ns → _markov_dict ns !! EmptyString = None →
  _make_name_raw (S fuel) self w = (Ok EmptyString, w).
Proof.
  intros Hns Hd. unfold _make_name_raw. simpl.
  unfold mbind, M_bind, _get_letter, try_except, mbind, M_bind, get_obj, dict_get.
  rewrite Hns. simpl. by rewrite Hd.
Qed.

Lemma name_valid_empty args names_set history banned :
  name_valid args names_set history banned EmptyString = false.
Proof. reflexivity. Qed.

Lemma run_attempt_loop_empty fuel self ns hist args m w :
  objs w !! self = Some ns → hists w !! _history ns = Some hist →
  _markov_dict ns !! EmptyString = None →
  attempt_loop (S fuel) self args m w = (Ok None, w).
Proof.
  intros Hns Hh Hd. induction m as [|m IH]; [done|].
  cbn [attempt_loop].
  erewrite run_bind by (by eapply run_make_name_raw_empty).
  erewrite run_bind by (by apply run_get_obj).
  erewrite run_bind by (by apply run_get_hist).
  erewrite run_bind by reflexivity.
  by rewrite name_valid_empty.
Qed.

Lemma run_candidates_loop_empty fuel self ns hist args n acc w :
  objs w !! self = Some ns → hists w !! _history ns = Some hist →
  _markov_dict ns !! EmptyString = None →
  candidates_loop (S fuel) self args n acc w = (Ok acc, w).
Proof.
  intros Hns Hh Hd. revert acc. induction n as [|n IH]; intros acc; [done|].
  cbn [candidates_loop].
  erewrite run_bind by (by eapply run_attempt_loop_empty). apply IH.
Qed.

(** C10: what the code does.  On a name-set whose table is empty (so one
    built from an empty corpus) [make_name] finds no candidate and returns
    the empty string whatever its arguments are: a [pref_candidate] that is
    none of [MIN], [MAX] and [AVG] is not reported. *)
Theorem make_name_unknown_preference (fuel : nat) (w : World) (self : loc) (ns : NameSet)
    (hist : gset string) (args : kw.t) :
  objs w !! self = Some ns →
  hists w !! _history ns = Some hist →
  _markov_dict ns !! EmptyString = None →
  make_name (S fuel) self args w = (Ok EmptyString, w).
Proof.
  intros Hns Hh Hd.
  by rewrite (make_name_candidates _ _ _ _ [] w)
    by (by eapply run_candidates_loop_empty).
Qed.

(** with a candidate, the same value is reported *)
Lemma make_name_unknown_preference_candidates (fuel : nat) (w : World) (self : loc)
    (ns : NameSet) (hist : gset string) (args : kw.t) (raws : list string) (w_end : World) :
  objs w !! self = Some ns →
  hists w !! _history ns = Some hist →
  replicate_M (kw.n_candidates args * kw.max_attempts args) (_make_name_raw fuel self) w
  = (Ok raws, w_end) →
  kw.pref_candidate args ∉ [MIN; MAX; AVG] →
  ∃ trieds cands w1,
    slots_run (name_valid args (_names_set ns) hist (banned_words w))
              (kw.max_attempts args) (kw.n_candidates args) trieds cands ∧
    make_name fuel self args w
    = match cands with
      | [] => (Ok EmptyString, w1)
      | _ :: _ => (Raise ValueError, w1)
      end.
Proof.
  intros Hns Hhist Hgen Hpref.
  destruct (candidates_loop_spec fuel self args ns hist w Hns Hhist
              (kw.n_candidates args) [] w _ raws w_end (same_but_rng_refl w) Hgen (le_n _))
    as (trieds & cands & w1 & Hloop & Hslots & Htried).
  simpl in Hloop.
  pose proof (replicate_raw_rng _ _ _ _ _ _ Htried) as Hw1.
  exists trieds, cands, w1. split; [done|].
  rewrite (make_name_candidates _ _ _ _ _ _ Hloop).
  destruct cands as [|c cands]; [done|].
  assert (objs w1 !! self = Some ns) as Hns1 by (rewrite Hw1; exact Hns).
  erewrite run_bind by (by apply run_get_obj).
  assert ((kw.pref_candidate args =? AVG)%Z = false) as ->.
  { apply Z.eqb_neq. intros Heq. apply Hpref. rewrite Heq. set_solver. }
  assert ((kw.pref_candidate args =? MIN)%Z = false) as ->.
  { apply Z.eqb_neq. intros Heq. apply Hpref. rewrite Heq. set_solver. }
  assert ((kw.pref_candidate args =? MAX)%Z = false) as ->.
  { apply Z.eqb_neq. intros Heq. apply Hpref. rewrite Heq. set_solver. }
  reflexivity.
Qed.

(** the order is checked by the constructor and by [change_order] *)
Lemma order_checked names order f self w :
  (¬ (inject_Z (py_int order) == order)%Q ∨ (order < 0)%Q) →
  __init__ names order f w = (Raise ValueError, w) ∧
  change_order self order w = (Raise ValueError, w).
Proof.
  intros Hbad. unfold __init__, change_order.
  destruct (Qeq_bool (inject_Z (py_int order)) order) eqn:E; simpl; [|done].
  destruct (Qle_bool 0 order) eqn:L; simpl; [|done].
  apply Qeq_bool_iff in E. apply Qle_bool_iff in L.
  destruct Hbad as [Hn|Hlt]; [done|]. by apply Qlt_not_le in Hlt.
Qed.

(** ** Concrete runs of [make_name] *)


Lemma make_name_avg_zero_mean_witness :
  let zero := {| lf_id := 2; lf_call := λ _, 0%Q |} in
  let w := one_name_set ["ab"%string] 3%Q zero (λ n, n) in
  let args := kw.mk false true true 2 AVG 1000 None in
  eval (make_name 10 0 args) w = Raise ZeroDivisionError.
Proof.
  intros zero w args.
  edestruct (make_name_avg_zero_mean 10 w 0 (new_name_set ["ab"%string] 3 zero 0) ∅ args)
    as (trieds & cands & w1 & Hslots & Hres).
  - vm_compute. reflexivity.
  - vm_compute. reflexivity.
  - vm_compute. reflexivity.
  - reflexivity.
  - reflexivity.
  - vm_compute. reflexivity.
Defined.

Lemma make_name_unknown_preference_witness :
  let w := one_name_set [] 3%Q DEFAULT_NAME_LEN_FUNC (λ n, n) in
  let args := kw.mk true true true 2 7 1000 None in
  make_name 10 0 args w = (Ok EmptyString, w).
Proof.
  intros w args.
  apply (make_name_unknown_preference 9 w 0 (new_name_set [] 3 DEFAULT_NAME_LEN_FUNC 0) ∅ args).
  - vm_compute. reflexivity.
  - vm_compute. reflexivity.
  - vm_compute. reflexivity.
Defined.

(** ** The cached mean *)

(** C1: where the code fails.  [remove] corrects the mean with the number
    of characters of the name, not with its metric: from the corpus
    ["hello"; "hi"] measured in syllables (2 and 1), removing "hello"
    leaves the mean at -2 where the corpus ["hi"] has mean 1. *)
Theorem remove_breaks_mean :
  let w := one_name_set ["hello"; "hi"]%string 3%Q estimate_syllables (λ n, n) in
  (∃ ns, objs w !! 0 = Some ns ∧ avg_ok ns) ∧
  eval (remove 0 "hello") w = Ok tt ∧
  ∃ ns, object_after (remove 0 "hello") w 0 = Some ns ∧
        _names ns = ["hi"%string] ∧
        (_avg_name_len ns == -2)%Q ∧
        (mean_of (_name_len_func ns) (_names ns) == 1)%Q ∧
        ¬ avg_ok ns.
Proof.
  intros w. split_and!.
  - eexists. split; [vm_compute; reflexivity|]. reflexivity.
  - vm_compute. reflexivity.
  - eexists. split; [vm_compute; reflexivity|].
    split_and!; [reflexivity.. |]. intros H. vm_compute in H. discriminate.
Qed.

(** removing the last name divides by the new length, 0 *)
Lemma remove_last_name_raises :
  let w := one_name_set ["name1"%string] 3%Q DEFAULT_NAME_LEN_FUNC (λ n, n) in
  eval (remove 0 "name1") w = Raise ZeroDivisionError ∧
  ∃ ns, object_after (remove 0 "name1") w 0 = Some ns ∧
        _names ns = [] ∧ ¬ avg_ok ns.
Proof.
  intros w. split; [vm_compute; reflexivity|].
  eexists. split; [vm_compute; reflexivity|].
  split; [reflexivity|]. intros H. vm_compute in H. discriminate.
Qed.

(** C9: where the code fails.  Adding an empty collection, or an empty
    name-set, to an empty name-set divides by the sum of the lengths, 0. *)
Theorem add_empty_raises :
  let w := one_name_set [] 3%Q DEFAULT_NAME_LEN_FUNC (λ n, n) in
  eval (__add__ 0 (OColl [])) w = Raise ZeroDivisionError ∧
  eval (__iadd__ 0 (OColl [])) w = Raise ZeroDivisionError ∧
  eval (other ← __init__ [] 3%Q DEFAULT_NAME_LEN_FUNC; __add__ 0 (ONameSet other)) w
  = Raise ZeroDivisionError.
Proof. vm_compute. split_and!; reflexivity. Qed.

(** C5: where the code fails.  A subtraction that takes every name away
    raises from [remove]; so do the sum and the union of two empty
    corpora, from [__iadd__]. *)
Theorem algebra_raises :
  let john3 := one_name_set ["John"; "John"; "John"]%string 3%Q DEFAULT_NAME_LEN_FUNC (λ n, n) in
  let empty := one_name_set [] 3%Q DEFAULT_NAME_LEN_FUNC (λ n, n) in
  eval (__sub__ 0 (OColl ["John"; "John"; "John"]%string)) john3 = Raise ZeroDivisionError ∧
  eval (__sub__ 0 (ONameSet 0)) john3 = Raise ZeroDivisionError ∧
  eval (__add__ 0 (OColl [])) empty = Raise ZeroDivisionError ∧
  eval (__or__ 0 (OColl [])) empty = Raise ZeroDivisionError.
Proof. vm_compute. split_and!; reflexivity. Qed.

(** ** Concrete runs of the operators and of the history *)

Lemma operators_frame_witness :
  let w := two_name_sets in
  let r := eval (binary Sub 0 (ONameSet 1)) w in
  let w' := exec (binary Sub 0 (ONameSet 1)) w in
  (∀ a ns, objs w !! a = Some ns → objs w' !! a = Some ns) ∧
  (∀ h s, hists w !! h = Some s → hists w' !! h = Some s) ∧
  (∀ c, r = Ok c →
     objs w !! c = None ∧
     ∃ nc, objs w' !! c = Some nc ∧ hists w !! _history nc = None ∧
           hists w' !! _history nc = Some ∅).
Proof.
  intros w r w'.
  apply (proj1 (operators_frame Sub 0 (ONameSet 1) w) r w').
  vm_compute. reflexivity.
Defined.

Lemma linked_histories_witness :
  let w := two_name_sets in
  let w1 := exec (link_histories 0 [1]) w in
  eval (link_histories 0 [1]) w = Ok tt ∧
  eval (get_history 1) (exec (add_to_history 0 (OStr "c")) w1) = Ok {[ "a"; "b"; "c" ]}%string.
Proof.
  intros w w1.
  destruct (linked_histories w 0 1 [1] {[ "a"%string ]} {[ "b"%string ]})
    as (Hlink & H & _ & _ & HA & HB & Hadd & _).
  - discriminate.
  - apply list_elem_of_singleton. reflexivity.
  - intros s ->%list_elem_of_singleton. eexists. vm_compute. reflexivity.
  - vm_compute. reflexivity.
  - vm_compute. reflexivity.
  - split; [exact Hlink|].
    destruct (Hadd (OStr "c") {[ "c"%string ]} eq_refl) as (_ & _ & Hread).
    fold w1 in Hread. rewrite Hread. f_equal.
    fold w1 in HA. revert HA. vm_compute. intros [= <-]. reflexivity.
Defined.

(** ** The corpus through the operators *)

Lemma corpus_mods S H w w' l names :
  mods S H w w' → l ∉ S → corpus w l names → corpus w' l names.
Proof.
  intros Hm Hl (ns & Hns & Hn & Hs).
  destruct (mods_objs _ _ _ _ Hm _ _ Hns) as (ns' & Hns' & _ & Heq).
  exists ns. rewrite Hns', (Heq Hl). done.
Qed.

(** a field assignment that leaves the corpus alone *)
Lemma modify_obj_corpus l g names w :
  (∀ ns, _history (g ns) = _history ns ∧ _names (g ns) = _names ns ∧
         _names_set (g ns) = _names_set ns) →
  corpus w l names →
  wp (modify_obj l g) w (post {[l]} ∅ w (λ _ w', corpus w' l names)).
Proof.
  intros Hg (ns & Hns & Hn & Hs).
  eapply wp_post_mono; [apply modify_obj_spec; intros; apply Hg|].
  intros [] w' (ns0 & Hns0 & Hns'). assert (ns0 = ns) as -> by congruence.
  exists (g ns). destruct (Hg ns) as (_ & -> & ->). done.
Qed.

Lemma update_avg_name_len_corpus self names w :
  corpus w self names →
  wp (_update_avg_name_len self) w (post {[self]} ∅ w (λ _ w', corpus w' self names)).
Proof.
  intros Hc. unfold _update_avg_name_len. pose proof (mods_refl {[self]} ∅ w) as Hm.
  step. intros ns w1 _ _ [-> Hns].
  destruct (_names ns) as [|n0 l].
  - by apply modify_obj_corpus.
  - step. intros avg w1 _ _ ->. by apply modify_obj_corpus.
Qed.

Lemma make_markov_dict_corpus self names w :
  corpus w self names →
  wp (_make_markov_dict self) w (post {[self]} ∅ w (λ _ w', corpus w' self names)).
Proof. intros Hc. by apply modify_obj_corpus. Qed.

Lemma change_order_corpus self order names w :
  corpus w self names →
  wp (change_order self order) w (post {[self]} ∅ w (λ _ w', corpus w' self names)).
Proof.
  intros Hc. unfold change_order. pose proof (mods_refl {[self]} ∅ w) as Hm.
  destruct (negb _); [by apply raise_spec|].
  destruct (negb _); [by apply raise_spec|].
  step_with ltac:(by apply (modify_obj_corpus self _ names)). intros [] w1 Hm1 _ Hc1.
  step_with ltac:(by apply make_markov_dict_corpus). done.
Qed.

Lemma change_name_len_func_corpus self f names w :
  corpus w self names →
  wp (change_name_len_func self f) w (post {[self]} ∅ w (λ _ w', corpus w' self names)).
Proof.
  intros Hc. unfold change_name_len_func. pose proof (mods_refl {[self]} ∅ w) as Hm.
  step_with ltac:(by apply (modify_obj_corpus self _ names)). intros [] w1 Hm1 _ Hc1.
  step_with ltac:(by apply update_avg_name_len_corpus). done.
Qed.

Lemma init_corpus names order f w :
  wp (__init__ names order f) w
     (post ∅ ∅ w (λ l w', objs w !! l = None ∧ corpus w' l names)).
Proof.
  unfold __init__. pose proof (mods_refl ∅ ∅ w) as Hm.
  destruct (negb _); [by apply raise_spec|].
  destruct (negb _); [by apply raise_spec|].
  step. intros h w1 Hm1 _ (Hh & Hh1 & Ho1).
  step. intros self w2 Hm2 _ (Hs & Hs2 & Hh2).
  assert (objs w !! self = None) as Hfresh by congruence.
  assert (corpus w2 self names) as Hc2 by (eexists; split; [exact Hs2 | done]).
  step_with ltac:(by apply update_avg_name_len_corpus). intros [] w3 Hm3 _ Hc3.
  step_with ltac:(by apply make_markov_dict_corpus). intros [] w4 Hm4 _ Hc4.
  by apply ret_spec.
Qed.

(** an assignment to an object that did not exist in [w0], read back *)
Lemma wp_modify_obj_new S H w0 w l g ns P :
  mods S H w0 w → objs w0 !! l = None → objs w !! l = Some ns →
  (∀ w1, objs w1 !! l = Some (g ns) → hists w1 = hists w → mods S H w0 w1 → P tt w1) →
  wp (modify_obj l g) w (post S H w0 P).
Proof.
  intros Hm Hl Hns HP. apply wp_modify_obj_fresh; [done..|].
  intros ns0 w1 Hns0 ? ? ?. assert (ns0 = ns) as -> by congruence. by apply HP.
Qed.

Lemma copy_corpus self names w :
  corpus w self names →
  wp (copy self) w (post ∅ ∅ w (λ c w', objs w !! c = None ∧ corpus w' c names)).
Proof.
  intros (ns & Hns & Hn & Hs). unfold copy. pose proof (mods_refl ∅ ∅ w) as Hm.
  step. intros ns' w1 _ _ [-> Hns']. assert (ns' = ns) as -> by congruence.
  step_with ltac:(apply init_frame). intros c w1 Hm1 _ (Hc & nc & Hnc & _).
  apply wp_bind. eapply wp_mono.
  { eapply (wp_modify_obj_new ∅ ∅ w w1 c _ nc
              (λ _ w', objs w' !! c = Some (set_names (_names ns) nc))); [done..|].
    intros w2 ? _ _. done. }
  intros r w2 [Hm2 HP]. destruct r as [[]|e|]; simpl; [|by apply post_fail|by apply post_diverge].
  specialize (HP tt eq_refl).
  apply wp_bind. eapply wp_mono.
  { eapply (wp_modify_obj_new ∅ ∅ w w2 c _ _
              (λ _ w', objs w' !! c = Some (set_names_set (_names_set ns)
                                              (set_names (_names ns) nc)))); [done..|].
    intros w3 ? _ _. done. }
  clear HP. intros r w3 [Hm3 HP].
  destruct r as [[]|e|]; simpl; [|by apply post_fail|by apply post_diverge].
  specialize (HP tt eq_refl).
  assert (corpus w3 c names) as Hc3.
  { eexists. split; [exact HP|]. simpl. by rewrite Hn, Hs. }
  assert (∀ g, (∀ ns, _names (g ns) = _names ns ∧ _names_set (g ns) = _names_set ns) →
          ∀ w3, mods ∅ ∅ w w3 → corpus w3 c names →
          wp (modify_obj c g) w3 (post ∅ ∅ w (λ _ w', corpus w' c names))) as Hkeep.
  { intros g Hg w' Hm' (n' & Hn' & Hnames' & Hset').
    eapply (wp_modify_obj_new ∅ ∅ w w' c g n'); [done..|].
    intros w'' Hn'' _ _. exists (g n'). destruct (Hg n') as [-> ->]. done. }
  clear HP Hm2 Hnc.
  apply wp_bind. eapply wp_mono; [by apply Hkeep|].
  intros r w4 [Hm4 HP].
  destruct r as [[]|e|]; simpl; [|by apply post_fail|by apply post_diverge].
  specialize (HP tt eq_refl).
  apply wp_bind. eapply wp_mono; [by apply Hkeep|].
  clear HP. intros r w5 [Hm5 HP].
  destruct r as [[]|e|]; simpl; [|by apply post_fail|by apply post_diverge].
  specialize (HP tt eq_refl).
  step. intros h w6 _ _ [-> Hh].
  step. intros hc w6 Hm6 _ (Hhc & Hhc6 & Ho6).
  assert (corpus w6 c names) as Hc6.
  { destruct HP as (n & ? & ?). exists n. by rewrite Ho6. }
  apply wp_bind. eapply wp_mono; [by apply Hkeep|].
  clear HP. intros r w7 [Hm7 HP].
  destruct r as [[]|e|]; simpl; [|by apply post_fail|by apply post_diverge].
  apply ret_spec; [done|]. split; [done|]. by apply (HP tt).
Qed.

Lemma corpus_exists w l names : corpus w l names → is_Some (objs w !! l).
Proof. intros (ns & -> & _). eauto. Qed.

Lemma as_name_set_corpus self other namesA namesB w :
  corpus w self namesA → operand_corpus w self other namesB →
  wp (as_name_set self other) w
     (post ∅ ∅ w (λ o w', o ≠ self ∧ corpus w' o namesB)).
Proof.
  intros Hself Hother. pose proof (mods_refl ∅ ∅ w) as Hm.
  destruct other as [s|o|names]; simpl in *; [done | |].
  - by apply ret_spec.
  - subst. step. intros ns w1 _ _ [-> Hns].
    step_with ltac:(apply init_corpus). intros o w1 _ _ [Ho Hc].
    split; [|done]. intros ->. congruence.
Qed.

(** the second and third [if] of [__iadd__] keep the corpus of the operand *)
Lemma adjusted_copy_corpus (b : bool) (other self : loc) (adjust : loc → M unit) c names
    namesA w :
  (∀ l w, wp (adjust l) w (post {[l]} ∅ w any)) →
  (∀ l w, corpus w l names → wp (adjust l) w (post {[l]} ∅ w (λ _ w', corpus w' l names))) →
  other ≠ self → corpus w other names → corpus w self namesA →
  wp (if b then warn c;; other' ← copy other; adjust other';; mret other'
      else mret other) w
     (post ∅ ∅ w (λ o w', o ≠ self ∧ corpus w' o names)).
Proof.
  intros Hadj Hadjc Hne Hc Hself. pose proof (mods_refl ∅ ∅ w) as Hm.
  destruct b; [|by apply ret_spec].
  step. intros [] w1 Hm1 Hm1' _.
  assert (corpus w1 other names) as Hc1 by (eapply corpus_mods; [done | set_solver | done]).
  step_with ltac:(by apply copy_corpus). intros l w2 Hm2 _ (Hl & Hcl).
  step_with ltac:(by apply Hadjc). intros [] w3 Hm3 _ Hc3.
  apply ret_spec; [done|]. split; [|done].
  intros ->. apply corpus_exists in Hself as [? Hself].
  pose proof (mods_None_obj _ _ _ _ _ Hm1' Hl). congruence.
Qed.

Lemma iadd_corpus self other namesA namesB w :
  corpus w self namesA → operand_corpus w self other namesB →
  wp (__iadd__ self other) w
     (post {[self]} ∅ w (λ r w', r = self ∧ corpus w' self (namesA ++ namesB))).
Proof.
  intros Hself Hother. unfold __iadd__. pose proof (mods_refl {[self]} ∅ w) as Hm.
  assert (∀ w', mods ∅ ∅ w w' → corpus w' self namesA) as Hkeep.
  { intros w' Hm'. eapply corpus_mods; [exact Hm' | set_solver | done]. }
  step_with ltac:(by eapply as_name_set_corpus). intros o w1 Hm1 Hm1' [Hne Ho].
  pose proof (Hkeep _ Hm1') as Hs1.
  step. intros ns w2 _ _ [-> Hns].
  step. intros on w2 _ _ [-> Hon].
  step_with ltac:(eapply (adjusted_copy_corpus _ o self _ _ namesB namesA);
                  [intros; apply change_order_frame
                  |intros; by apply change_order_corpus | done..]).
  intros o2 w2 Hm2 Hm2' [Hne2 Ho2].
  assert (corpus w2 self namesA) as Hs2 by (eapply corpus_mods; [exact Hm2' | set_solver | done]).
  step. intros on2 w3 _ _ [-> Hon2].
  step_with ltac:(eapply (adjusted_copy_corpus _ o2 self _ _ namesB namesA);
                  [intros; apply change_name_len_func_frame
                  |intros; by apply change_name_len_func_corpus | done..]).
  intros o3 w3 Hm3 Hm3' [Hne3 Ho3].
  assert (corpus w3 self namesA) as Hs3 by (eapply corpus_mods; [exact Hm3' | set_solver | done]).
  step. intros on3 w4 _ _ [-> Hon3].
  step. intros avg w4 _ _ ->.
  step_with ltac:(by apply (modify_obj_corpus self _ namesA)). intros [] w4 Hm4 Hm4' Hs4.
  assert (corpus w4 o3 namesB) as Ho4 by (eapply corpus_mods; [exact Hm4' | set_solver | done]).
  step. intros on4 w5 _ _ [-> Hon4].
  step_modify. intros [] w5 Hm5 Hm5' (n4 & Hn4 & Hn5).
  assert (corpus w5 o3 namesB) as Ho5 by (eapply corpus_mods; [exact Hm5' | set_solver | done]).
  step. intros on5 w6 _ _ [-> Hon5].
  step_modify. intros [] w6 Hm6 Hm6' (n5 & Hn5' & Hn6).
  assert (corpus w6 o3 namesB) as Ho6 by (eapply corpus_mods; [exact Hm6' | set_solver | done]).
  step. intros on6 w7 _ _ [-> Hon6].
  step_modify. intros [] w7 Hm7 Hm7' (n6 & Hn6' & Hn7).
  apply ret_spec; [done|]. split; [done|].
  destruct Hs4 as (n4' & Hn4' & Hnames4 & Hset4).
  destruct Ho4 as (o4 & Ho4 & Hnames_o4 & Hset_o4).
  destruct Ho5 as (o5 & Ho5 & Hnames_o5 & Hset_o5).
  simplify_eq. eexists. split; [exact Hn7|]. simpl.
  split; [done|]. rewrite list_to_set_app_L. congruence.
Qed.

(** a loop with an invariant on what is left to do *)
Lemma for_each_inv {A} S H (I : list A → World → Prop) (l : list A) body w :
  I l w →
  (∀ x rest w1, I (x :: rest) w1 → wp (body x) w1 (post S H w1 (λ _ w2, I rest w2))) →
  wp (for_each l body) w (post S H w (λ _ w', I [] w')).
Proof.
  intros HI Hbody. revert w HI. induction l as [|x l IH]; intros w HI; simpl.
  - apply ret_spec; [apply mods_refl | done].
  - pose proof (mods_refl S H w) as Hm.
    step_with ltac:(by apply Hbody). intros [] w1 Hm1 _ HI1.
    step_with ltac:(by apply IH). done.
Qed.

Lemma elem_of_remove_first_ne {A} `{EqDecision A} (x y : A) l :
  x ≠ y → x ∈ remove_first y l ↔ x ∈ l.
Proof.
  intros Hne. induction l as [|z l IH]; simpl; [done|].
  destruct (decide (y = z)) as [->|Hyz].
  - rewrite elem_of_cons. tauto.
  - rewrite !elem_of_cons, IH. done.
Qed.

Lemma elem_of_remove_first {A} `{EqDecision A} (x y : A) l :
  x ∈ remove_first y l → x ∈ l.
Proof.
  induction l as [|z l IH]; simpl; [done|].
  destruct (decide (y = z)) as [->|Hyz]; rewrite !elem_of_cons; tauto.
Qed.

Lemma list_to_set_remove_first (name : string) names :
  list_to_set (remove_first name names) =@{gset string}
  if bool_decide (name ∈ remove_first name names)
  then list_to_set names else list_to_set names ∖ {[name]}.
Proof.
  apply set_eq. intros x. case_bool_decide as Hin.
  - rewrite !elem_of_list_to_set. destruct (decide (x = name)) as [->|Hne].
    + split; [apply elem_of_remove_first | done].
    + by apply elem_of_remove_first_ne.
  - rewrite elem_of_difference, !elem_of_list_to_set, elem_of_singleton.
    destruct (decide (x = name)) as [->|Hne]; [tauto|].
    rewrite elem_of_remove_first_ne by done. tauto.
Qed.

Lemma remove_corpus self name names w :
  corpus w self names →
  wp (remove self name) w
     (post {[self]} ∅ w (λ _ w', name ∈ names ∧ corpus w' self (remove_first name names))).
Proof.
  intros (ns & Hns & Hn & Hs). unfold remove. pose proof (mods_refl {[self]} ∅ w) as Hm.
  step. intros ns' w1 _ _ [-> Hns']. assert (ns' = ns) as -> by congruence.
  rewrite Hn. case_bool_decide as Hin; [|apply wp_bind, wp_raise; by apply post_fail].
  step_modify. intros [] w1 Hm1 _ (n0 & Hn0 & Hn1). assert (n0 = ns) as -> by congruence.
  step. intros ns1 w2 _ _ [-> Hns1]. simplify_eq. simpl.
  eapply (wp_seq _ _ _ _ _ _ {[self]} ∅
            (λ _ w2, corpus w2 self (remove_first name (_names ns)))); [done | | side..|].
  { case_bool_decide as Hin2.
    - apply ret_spec; [apply mods_refl|]. eexists. split; [exact Hn1|]. simpl.
      split; [done|]. rewrite list_to_set_remove_first, Hs. by rewrite bool_decide_true.
    - case_bool_decide as Hin3; [|by apply raise_spec, mods_refl].
      eapply wp_post_mono; [apply modify_obj_spec; done|].
      intros [] w2 (n1 & Hn1' & Hn2). simplify_eq. eexists. split; [exact Hn2|]. simpl.
      split; [done|]. rewrite list_to_set_remove_first, Hs. by rewrite bool_decide_false. }
  intros [] w2 Hm2 _ Hc2.
  step. intros r w3 Hm3 Hm3' _.
  assert (corpus w3 self (remove_first name (_names ns))) as Hc3.
  { eapply corpus_mods; [exact Hm3' | set_solver | done]. }
  step. intros rn w4 _ _ [-> Hrn].
  eapply (wp_seq _ _ _ _ _ _ {[self]} ∅
            (λ _ w4, corpus w4 self (remove_first name (_names ns)))); [done | | side..|].
  { eapply wp_post_mono.
    - apply (for_each_inv {[self]} ∅
               (λ _ w4, corpus w4 self (remove_first name (_names ns)))); [done|].
      intros [key letters] rest w4 Hc4. pose proof (mods_refl {[self]} ∅ w4) as Hm4.
      step. intros n4 w5 _ _ [-> Hn4].
      destruct (dict_remove_letters _ _ _) as [outcome d].
      step_with ltac:(by apply (modify_obj_corpus self _ (remove_first name (_names ns)))).
      intros [] w5 Hm5 _ Hc5.
      destruct outcome; [by apply ret_spec | by apply raise_spec | by apply post_diverge].
    - done. }
  intros [] w4 Hm4 _ Hc4.
  step. intros n5 w5 _ _ [-> Hn5].
  step. intros avg w5 _ _ ->.
  step_with ltac:(by apply (modify_obj_corpus self _ (remove_first name (_names ns)))).
  done.
Qed.

Lemma contains_corpus self name names w :
  corpus w self names →
  wp (__contains__ self name) w
     (post ∅ ∅ w (λ b w', w' = w ∧ b = bool_decide (name ∈ names))).
Proof.
  intros (ns & Hns & Hn & Hs). unfold __contains__. pose proof (mods_refl ∅ ∅ w) as Hm.
  step. intros ns' w1 _ _ [-> Hns']. assert (ns' = ns) as -> by congruence.
  apply ret_spec; [done|]. split; [done|].
  rewrite Hs. apply bool_decide_ext, elem_of_list_to_set.
Qed.

Lemma len_corpus self names w :
  corpus w self names →
  wp (__len__ self) w (post ∅ ∅ w (λ n w', w' = w ∧ n = length names)).
Proof.
  intros (ns & Hns & Hn & Hs). unfold __len__. pose proof (mods_refl ∅ ∅ w) as Hm.
  step. intros ns' w1 _ _ [-> Hns']. assert (ns' = ns) as -> by congruence.
  apply ret_spec; [done|]. by rewrite Hn.
Qed.

Lemma isub_step_corpus self name names w :
  corpus w self names →
  wp (isub_step self name) w
     (post {[self]} ∅ w
        (λ _ w', corpus w' self
                   (if bool_decide (name ∈ names) then remove_first name names else names))).
Proof.
  intros Hc. unfold isub_step. pose proof (mods_refl {[self]} ∅ w) as Hm.
  step_with ltac:(by eapply contains_corpus). intros b w1 _ _ [-> ->].
  case_bool_decide.
  - eapply wp_post_mono; [by apply remove_corpus|]. by intros [] w' [_ ?].
  - by apply ret_spec.
Qed.

Lemma for_each_isub_corpus self namesA namesB w :
  corpus w self namesA →
  wp (for_each namesB (isub_step self)) w
     (post {[self]} ∅ w (λ _ w', corpus w' self (sub_names namesA namesB))).
Proof.
  intros Hc.
  eapply wp_post_mono.
  - apply (for_each_inv {[self]} ∅
             (λ rest w1, ∃ L, corpus w1 self L ∧ sub_names L rest = sub_names namesA namesB)).
    + by exists namesA.
    + intros x rest w1 (L & HL & Heq).
      eapply wp_post_mono; [by apply isub_step_corpus|].
      intros [] w2 Hc2. eexists. split; [exact Hc2|]. exact Heq.
  - intros [] w' (L & HL & Heq). simpl in Heq. by subst.
Qed.

(** the iterator over a name-set that the body leaves alone does the loop
    over its names *)
Lemma iter_name_set_corpus self o namesA namesB done w :
  o ≠ self → corpus w self namesA → corpus w o (done ++ namesB) →
  wp (iter_name_set (length namesB) o (length done) (isub_step self)) w
     (post {[self]} ∅ w (λ _ w', corpus w' self (sub_names namesA namesB))).
Proof.
  intros Hne. revert done namesA w.
  induction namesB as [|name namesB IH]; intros done namesA w Hself Ho; simpl.
  - apply ret_spec; [apply mods_refl | done].
  - pose proof (mods_refl {[self]} ∅ w) as Hm.
    step. intros no w1 _ _ [-> Hno].
    destruct Ho as (no' & Hno' & Hnames & Hset). assert (no' = no) as -> by congruence.
    rewrite Hnames, lookup_app_r, Nat.sub_diag by done. simpl.
    step_with ltac:(by apply isub_step_corpus). intros [] w1 Hm1 Hm1' Hc1.
    eapply (wp_last _ _ _ _ _ {[self]} ∅); [done | | side.. | intros ? ? _ _ HP; exact HP].
    replace (S (length done)) with (length (done ++ [name])) by (rewrite length_app; simpl; lia).
    apply IH; [done|].
    eapply corpus_mods; [exact Hm1' | set_solver |].
    exists no. by rewrite <- app_assoc.
Qed.

Lemma check_operand_corpus self other w :
  wp (check_operand self other) w (post ∅ ∅ w (λ _ _, is_str other = false)).
Proof.
  pose proof (mods_refl ∅ ∅ w) as Hm.
  destruct other as [s|o|names]; simpl.
  - by apply raise_spec.
  - eapply wp_post_mono; [apply warn_mismatch_frame | done].
  - by apply ret_spec.
Qed.

Lemma isub_corpus self other namesA namesB w :
  corpus w self namesA → operand_corpus w self other namesB →
  wp (__isub__ self other) w
     (post {[self]} ∅ w (λ r w', r = self ∧ corpus w' self (sub_names namesA namesB))).
Proof.
  intros Hself Hother. unfold __isub__. pose proof (mods_refl {[self]} ∅ w) as Hm.
  step_with ltac:(apply check_operand_corpus). intros [] w1 Hm1 Hm1' _.
  assert (corpus w1 self namesA) as Hs1 by (eapply corpus_mods; [exact Hm1' | set_solver | done]).
  eapply (wp_seq _ _ _ _ _ _ {[self]} ∅
            (λ _ w2, corpus w2 self (sub_names namesA namesB))); [done | | side..|].
  { destruct other as [s|o|names]; simpl in *; [done | |].
    - destruct Hother as [Hne Ho].
      assert (corpus w1 o namesB) as Ho1 by (eapply corpus_mods; [exact Hm1' | set_solver | done]).
      pose proof (mods_refl {[self]} ∅ w1) as Hm0.
      step_with ltac:(by eapply len_corpus). intros n w2 _ _ [-> ->].
      by apply (iter_name_set_corpus self o namesA namesB []).
    - subst. by apply for_each_isub_corpus. }
  intros [] w2 Hm2 _ Hc2. by apply ret_spec.
Qed.

Lemma remove_duplicates_loop_corpus self names todo seen w :
  corpus w self names →
  wp (remove_duplicates_loop self todo seen) w
     (post {[self]} ∅ w (λ _ w', corpus w' self (dedup_names names todo seen))).
Proof.
  revert names seen w. induction todo as [|name todo IH]; intros names seen w Hc; simpl.
  - apply ret_spec; [apply mods_refl | done].
  - pose proof (mods_refl {[self]} ∅ w) as Hm. case_bool_decide.
    + step_with ltac:(by apply remove_corpus). intros [] w1 Hm1 _ [_ Hc1].
      step_with ltac:(by apply IH). done.
    + by apply IH.
Qed.

Lemma remove_duplicates_corpus self names w :
  corpus w self names →
  wp (remove_duplicates self) w
     (post {[self]} ∅ w (λ _ w', corpus w' self (dedup_names names names ∅))).
Proof.
  intros Hc. unfold remove_duplicates. pose proof (mods_refl {[self]} ∅ w) as Hm.
  step. intros ns w1 _ _ [-> Hns].
  destruct Hc as (ns' & Hns' & Hnames & Hset). assert (ns' = ns) as -> by congruence.
  rewrite Hnames. apply remove_duplicates_loop_corpus. by exists ns.
Qed.

Lemma operand_names_corpus self other namesB w :
  operand_corpus w self other namesB →
  wp (operand_names other) w (post ∅ ∅ w (λ names w', w' = w ∧ names = namesB)).
Proof.
  intros Ho. pose proof (mods_refl ∅ ∅ w) as Hm.
  destruct other as [s|o|names]; simpl in *; [done | |].
  - destruct Ho as [_ (no & Hno & Hnames & _)].
    step. intros no' w1 _ _ [-> Hno']. apply ret_spec; [done|]. split; congruence.
  - by apply ret_spec.
Qed.

Lemma ior_corpus self other namesA namesB w :
  corpus w self namesA → operand_corpus w self other namesB →
  wp (__ior__ self other) w
     (post {[self]} ∅ w
        (λ r w', r = self ∧
                 let all := namesA ++ new_names namesA namesB in
                 corpus w' self (dedup_names all all ∅))).
Proof.
  intros Hself Hother. unfold __ior__. pose proof (mods_refl {[self]} ∅ w) as Hm.
  step_with ltac:(apply check_operand_corpus). intros [] w1 Hm1 Hm1' _.
  assert (corpus w1 self namesA) as Hs1 by (eapply corpus_mods; [exact Hm1' | set_solver | done]).
  assert (operand_corpus w1 self other namesB) as Ho1.
  { destruct other as [s|o|names]; simpl in *; [done | | done].
    destruct Hother as [Hne Ho]. split; [done|].
    eapply corpus_mods; [exact Hm1' | set_solver | done]. }
  step_with ltac:(by eapply operand_names_corpus). intros names w2 _ _ [-> ->].
  step. intros ns w2 _ _ [-> Hns].
  destruct Hs1 as (ns' & Hns' & Hnames & Hset). assert (ns' = ns) as -> by congruence.
  rewrite Hset. fold (new_names namesA namesB).
  step_with ltac:(apply (iadd_corpus self _ namesA (new_names namesA namesB));
                  [by exists ns | done]).
  intros ? w2 Hm2 _ [-> Hc2].
  step_with ltac:(by apply remove_duplicates_corpus). intros [] w3 Hm3 _ Hc3.
  by apply ret_spec.
Qed.

Lemma iand_corpus self other namesA namesB w :
  corpus w self namesA → operand_corpus w self other namesB →
  wp (__iand__ self other) w
     (post {[self]} ∅ w (λ r w', r = self ∧ corpus w' self (shared_names namesA namesB))).
Proof.
  intros Hself Hother. unfold __iand__. pose proof (mods_refl {[self]} ∅ w) as Hm.
  step_with ltac:(apply check_operand_corpus). intros [] w1 Hm1 Hm1' _.
  assert (corpus w1 self namesA) as Hs1 by (eapply corpus_mods; [exact Hm1' | set_solver | done]).
  assert (operand_corpus w1 self other namesB) as Ho1.
  { destruct other as [s|o|names]; simpl in *; [done | | done].
    destruct Hother as [Hne Ho]. split; [done|].
    eapply corpus_mods; [exact Hm1' | set_solver | done]. }
  step_with ltac:(by eapply operand_names_corpus). intros names w2 _ _ [-> ->].
  step. intros ns w2 _ _ [-> Hns].
  destruct Hs1 as (ns' & Hns' & Hnames & Hset). assert (ns' = ns) as -> by congruence.
  rewrite Hnames.
  step_modify. intros [] w2 Hm2 _ (n1 & Hn1 & Hn2). assert (n1 = ns) as -> by congruence.
  step_modify. intros [] w3 Hm3 _ (n2 & Hn2' & Hn3). simplify_eq.
  assert (corpus w3 self (shared_names (_names ns) namesB)) as Hc3.
  { eexists. split; [exact Hn3 | done]. }
  step_with ltac:(by apply make_markov_dict_corpus). intros [] w4 Hm4 _ Hc4.
  step_with ltac:(by apply update_avg_name_len_corpus). intros [] w5 Hm5 _ Hc5.
  by apply ret_spec.
Qed.

Lemma wp_post_conj {A} S H w0 (P P' : A → World → Prop) (m : M A) w :
  wp m w (post S H w0 P) → wp m w (post S H w0 P') →
  wp m w (post S H w0 (λ a w', P a w' ∧ P' a w')).
Proof.
  unfold wp, post. intros [? HP] [_ HP']. split; [done|]. intros a Ha. split; auto.
Qed.

Lemma binary_op_corpus iop (F : list string → list string → list string)
    self other namesA namesB w :
  (∀ c w, corpus w c namesA → operand_corpus w c other namesB →
          wp (iop c other) w
             (post {[c]} ∅ w (λ r w', r = c ∧ corpus w' c (F namesA namesB)))) →
  corpus w self namesA → right_operand w other namesB →
  wp (binary_op iop self other) w
     (post ∅ ∅ w (λ c w', objs w !! c = None ∧ corpus w' c (F namesA namesB))).
Proof.
  intros Hiop Hself Hother. unfold binary_op. pose proof (mods_refl ∅ ∅ w) as Hm.
  step_with ltac:(apply wp_post_conj; [apply copy_frame | by apply copy_corpus]).
  intros c w1 Hm1 _ [(Hc & nc & Hnc & Hh & Hh1) [_ Hcc]].
  step_modify. intros [] w2 Hm2 Hm2' (n1 & Hn1 & Hn2).
  assert (n1 = nc) as -> by congruence.
  destruct (mods_objs _ _ _ _ Hm2' _ _ Hnc) as (nc2 & Hnc2 & Hhist2 & _).
  assert (corpus w2 c namesA) as Hc2.
  { destruct Hcc as (n & Hn & ? & ?). assert (n = nc) as -> by congruence.
    eexists. split; [exact Hn2 | done]. }
  assert (operand_corpus w2 c other namesB) as Ho2.
  { destruct other as [s|o|names]; simpl in *; [done | | done].
    split; [destruct Hother as (? & ? & _); congruence|].
    eapply corpus_mods; [exact Hm2 | set_solver | done]. }
  step_with ltac:(by apply Hiop). intros c' w3 Hm3 Hm3' [-> Hc3].
  destruct (mods_objs _ _ _ _ Hm3' _ _ Hnc2) as (nc3 & Hnc3 & Hhist3 & _).
  assert (_history nc3 = _history nc) as Hhc by congruence.
  step_with ltac:(apply (clear_history_spec c nc3); assumption).
  { intros h ->%elem_of_singleton. right. congruence. }
  intros [] w4 Hm4 _ [Hh4 Ho4].
  assert (corpus w4 c (F namesA namesB)) as Hc4.
  { destruct Hc3 as (n & ? & ?). exists n. by rewrite Ho4. }
  apply wp_bind. eapply wp_mono.
  { apply (wp_modify_obj_fresh ∅ ∅ w w4 c (set_in_operation false)
             (λ _ w', corpus w' c (F namesA namesB))); [assumption..|].
    intros n w5 Hn4 Hn5 _ _. destruct Hc4 as (n' & ? & ? & ?).
    assert (n' = n) as -> by congruence. eexists. split; [exact Hn5 | done]. }
  intros r w5 [Hm5 HP]. destruct r as [[]|e|]; simpl; [|by apply post_fail|by apply post_diverge].
  apply ret_spec; [assumption|]. split; [assumption | by apply (HP tt)].
Qed.

(** *** Multiplicities *)

Lemma count_app {A} `{EqDecision A} (x : A) l1 l2 :
  count x (l1 ++ l2) = (count x l1 + count x l2)%nat.
Proof. induction l1 as [|y l1 IH]; simpl; [done|]. rewrite IH. lia. Qed.

Lemma elem_of_count {A} `{EqDecision A} (x : A) l : x ∈ l ↔ (0 < count x l)%nat.
Proof.
  induction l as [|y l IH]; simpl.
  - split; [by intros ?%elem_of_nil | lia].
  - rewrite elem_of_cons, IH. destruct (decide (x = y)).
    + split; [lia | by left].
    + split; [intros [?|?]; [done | lia] | right; lia].
Qed.

Lemma count_remove_first {A} `{EqDecision A} (x y : A) l :
  count x (remove_first y l) = if decide (x = y) then pred (count x l) else count x l.
Proof.
  induction l as [|z l IH]; simpl; [by destruct (decide (x = y))|].
  destruct (decide (y = z)) as [->|Hyz]; simpl.
  - destruct (decide (x = z)); simpl; done.
  - rewrite IH. destruct (decide (x = y)) as [->|]; [|done].
    rewrite decide_False by done. done.
Qed.

Lemma NoDup_count {A} `{EqDecision A} (l : list A) :
  (∀ x, (count x l ≤ 1)%nat) → NoDup l.
Proof.
  induction l as [|y l IH]; intros Hc; [constructor|].
  apply NoDup_cons. split.
  - rewrite elem_of_count. specialize (Hc y). simpl in Hc.
    rewrite decide_True in Hc by done. lia.
  - apply IH. intros x. specialize (Hc x). simpl in Hc. lia.
Qed.

Lemma count_sub_names (x : string) namesA namesB :
  count x (sub_names namesA namesB)
  = (count x namesA - Nat.min (count x namesB) (count x namesA))%nat.
Proof.
  revert namesA. induction namesB as [|b namesB IH]; intros namesA; simpl; [lia|].
  rewrite IH. case_bool_decide as Hb.
  - rewrite count_remove_first. apply elem_of_count in Hb.
    destruct (decide (x = b)) as [->|]; lia.
  - destruct (decide (x = b)) as [->|]; [|lia].
    assert (count b namesA = 0)%nat by (rewrite elem_of_count in Hb; lia). lia.
Qed.

Lemma count_shared_names (x : string) namesA namesB :
  count x (shared_names namesA namesB) = Nat.min (count x namesA) (count x namesB).
Proof.
  revert namesB. induction namesA as [|a namesA IH]; intros namesB; simpl; [done|].
  case_bool_decide as Ha; simpl; rewrite IH.
  - rewrite count_remove_first. apply elem_of_count in Ha.
    destruct (decide (x = a)) as [->|]; lia.
  - destruct (decide (x = a)) as [->|]; [|lia].
    assert (count a namesB = 0)%nat by (rewrite elem_of_count in Ha; lia). lia.
Qed.

Lemma count_dedup_names (names todo : list string) (seen : gset string) (past : list string) :
  seen = list_to_set past →
  (∀ x, count x names = (Nat.min 1 (count x past) + count x todo)%nat) →
  ∀ x, count x (dedup_names names todo seen) = Nat.min 1 (count x (past ++ todo)).
Proof.
  revert names seen past.
  induction todo as [|r todo IH]; intros names seen past -> Hinv x; cbn [dedup_names].
  - rewrite app_nil_r, Hinv. cbn [count]. lia.
  - case_bool_decide as Hr.
    + apply elem_of_list_to_set, elem_of_count in Hr.
      rewrite (IH _ _ past eq_refl).
      * rewrite !count_app. cbn [count]. destruct (decide (x = r)) as [->|]; lia.
      * intros y. rewrite count_remove_first, Hinv. cbn [count].
        destruct (decide (y = r)) as [->|]; lia.
    + assert (count r past = 0)%nat as H0.
      { rewrite elem_of_list_to_set, elem_of_count in Hr. lia. }
      rewrite (IH _ _ (past ++ [r])).
      * by rewrite <- app_assoc.
      * rewrite list_to_set_app_L. simpl. by rewrite (right_id_L ∅ (∪)).
      * intros y. rewrite Hinv, count_app. cbn [count].
        destruct (decide (y = r)) as [->|]; lia.
Qed.

Lemma count_remove_duplicates (names : list string) (x : string) :
  count x (dedup_names names names ∅) = Nat.min 1 (count x names).
Proof. apply (count_dedup_names names names ∅ []); [done|]. intros y. cbn [count]. lia. Qed.

Lemma elem_of_new_names (x : string) namesA namesB :
  x ∈ namesA ++ new_names namesA namesB ↔ x ∈ namesA ∨ x ∈ namesB.
Proof.
  unfold new_names. rewrite elem_of_app, list_elem_of_filter, elem_of_list_to_set.
  destruct (decide (x ∈ namesA)); tauto.
Qed.

Lemma algebra_names_clause op namesA namesB :
  algebra_clause op namesA namesB (algebra_names op namesA namesB).
Proof.
  destruct op; simpl.
  - split; [done|]. split; [apply length_app|]. intros x. apply count_app.
  - intros x. apply count_sub_names.
  - set (all := namesA ++ new_names namesA namesB).
    assert (∀ x, count x (dedup_names all all ∅)
                 = if bool_decide (x ∈ namesA ∨ x ∈ namesB) then 1 else 0)%nat as Hc.
    { intros x. rewrite count_remove_duplicates.
      pose proof (elem_of_new_names x namesA namesB) as Hx. fold all in Hx.
      rewrite elem_of_count in Hx. case_bool_decide.
      - assert (0 < count x all)%nat by tauto. lia.
      - assert (¬ (0 < count x all)%nat) by tauto. lia. }
    split; [exact Hc|].
    rewrite <- (size_list_to_set (C := gset string)).
    + f_equal. apply set_eq. intros x.
      rewrite elem_of_list_to_set, elem_of_union, !elem_of_list_to_set, elem_of_count, Hc.
      case_bool_decide; [split; [tauto | lia] | split; [lia | tauto]].
    + apply NoDup_count. intros x. rewrite Hc. case_bool_decide; lia.
  - intros x. apply count_shared_names.
Qed.

Lemma in_place_corpus op self other namesA namesB w :
  corpus w self namesA → operand_corpus w self other namesB →
  wp (in_place op self other) w
     (post {[self]} ∅ w
        (λ r w', r = self ∧ corpus w' self (algebra_names op namesA namesB))).
Proof.
  intros Hself Hother. destruct op; simpl.
  - by apply iadd_corpus.
  - by apply isub_corpus.
  - by apply ior_corpus.
  - by apply iand_corpus.
Qed.

Lemma binary_corpus op self other namesA namesB w :
  corpus w self namesA → right_operand w other namesB →
  wp (binary op self other) w
     (post ∅ ∅ w
        (λ c w', objs w !! c = None ∧ corpus w' c (algebra_names op namesA namesB))).
Proof.
  intros Hself Hother.
  assert (binary op = binary_op (in_place op)) as -> by (by destruct op).
  apply (binary_op_corpus _ (algebra_names op)); [|done..].
  intros c w1 Hc Ho. by apply in_place_corpus.
Qed.

(** Whenever [A op B] returns, the corpus of the name-set it returns is
    the one the four clauses describe: the two corpora one after the other
    for [+]; for [-], of every value as many occurrences fewer as the
    operand has, and at most all; every value of either side once for [|];
    the smaller multiplicity of every value for [&]. *)
Theorem algebra_when_returns (op : operator) (A : loc) (B : operand)
    (namesA namesB : list string) (w w' : World) (c : loc) :
  corpus w A namesA → right_operand w B namesB →
  binary op A B w = (Ok c, w') →
  ∃ names, corpus w' c names ∧ algebra_clause op namesA namesB names.
Proof.
  intros HA HB Hrun.
  pose proof (binary_corpus op A B namesA namesB w HA HB) as Hwp.
  unfold wp in Hwp. rewrite Hrun in Hwp. destruct Hwp as [_ Hpost].
  destruct (Hpost c eq_refl) as [_ Hc].
  exists (algebra_names op namesA namesB). split; [exact Hc | apply algebra_names_clause].
Qed.

(** ** The cached mean through the operations *)

Lemma fold_left_Qplus l a : (fold_left Qplus l a == a + sum l)%Q.
Proof.
  unfold sum. revert a. induction l as [|x l IH]; intros a; simpl.
  - ring.
  - rewrite (IH (a + x)%Q), (IH (0 + x)%Q). ring.
Qed.

Lemma sum_cons x l : (sum (x :: l) == x + sum l)%Q.
Proof. unfold sum at 1. simpl. rewrite fold_left_Qplus. ring. Qed.

Lemma sum_app l1 l2 : (sum (l1 ++ l2) == sum l1 + sum l2)%Q.
Proof. unfold sum at 1. rewrite fold_left_app. fold (sum l1). apply fold_left_Qplus. Qed.

Lemma nat_Q_add a b : (nat_Q (a + b) == nat_Q a + nat_Q b)%Q.
Proof. unfold nat_Q. rewrite Nat2Z.inj_add, inject_Z_plus. reflexivity. Qed.

Lemma nat_Q_nonzero n : n ≠ 0%nat → ¬ (nat_Q n == 0)%Q.
Proof. unfold nat_Q, Qeq. simpl. lia. Qed.

Lemma mean_of_nonempty f names :
  names ≠ [] → mean_of f names = (sum (lf_call f <$> names) / nat_Q (length names))%Q.
Proof. by destruct names. Qed.

Lemma mean_times_length f names :
  (mean_of f names * nat_Q (length names) == sum (lf_call f <$> names))%Q.
Proof.
  destruct names as [|x l]; [reflexivity|].
  rewrite mean_of_nonempty by done. field. apply nat_Q_nonzero. simpl. lia.
Qed.

(** the size-weighted combination of two means is the mean of the two
    corpora together *)
Lemma weighted_mean f namesA namesB (avgA avgB : Q) :
  (avgA == mean_of f namesA)%Q → (avgB == mean_of f namesB)%Q →
  (length namesA + length namesB ≠ 0)%nat →
  ((avgA * nat_Q (length namesA) + avgB * nat_Q (length namesB))
   / (nat_Q (length namesA) + nat_Q (length namesB))
   == mean_of f (namesA ++ namesB))%Q.
Proof.
  intros -> -> Hlen.
  rewrite !mean_times_length, mean_of_nonempty.
  - rewrite fmap_app, sum_app, length_app, nat_Q_add. reflexivity.
  - intros [-> ->]%app_eq_nil. simpl in Hlen. lia.
Qed.

Lemma nat_Q_sum_nonzero a b :
  (a + b ≠ 0)%nat → Qeq_bool (nat_Q a + nat_Q b) 0 = false.
Proof.
  intros H. apply not_true_iff_false. intros Heq%Qeq_bool_iff.
  rewrite <- nat_Q_add in Heq. by apply nat_Q_nonzero in Heq.
Qed.

Ltac look :=
  wsimpl; repeat (rewrite lookup_insert_ne by done);
  first [apply lookup_insert_eq | eassumption].

(** [self += other] for a name-set of the same order and metric succeeds
    as soon as one of the two corpora has a name *)
Lemma run_iadd_name_set self other ns o w :
  objs w !! self = Some ns → objs w !! other = Some o → other ≠ self →
  _order o = _order ns → _name_len_func o = _name_len_func ns →
  (length (_names ns) + length (_names o) ≠ 0)%nat →
  __iadd__ self (ONameSet other) w
  = (Ok self, with_objs (<[self := iadd_result ns o]> (objs w)) w).
Proof.
  intros Hns Ho Hne Hord Hf Hlen. unfold __iadd__, as_name_set.
  run_step ltac:(reflexivity).
  run_step ltac:(by apply run_get_obj).
  run_step ltac:(by apply run_get_obj).
  rewrite Hord, Nat.eqb_refl. cbn [negb].
  run_step ltac:(reflexivity).
  run_step ltac:(by apply run_get_obj).
  unfold func_is. rewrite Hf, Nat.eqb_refl. cbn [negb].
  run_step ltac:(reflexivity).
  run_step ltac:(by apply run_get_obj).
  unfold pydiv. rewrite nat_Q_sum_nonzero by done.
  run_step ltac:(reflexivity).
  run_step ltac:(by apply run_modify_obj).
  run_step ltac:(apply run_get_obj; look).
  run_step ltac:(apply run_modify_obj; look).
  run_step ltac:(apply run_get_obj; look).
  run_step ltac:(apply run_modify_obj; look).
  run_step ltac:(apply run_get_obj; look).
  run_step ltac:(apply run_modify_obj; look).
  unfold mret, M_ret, with_objs. rewrite !insert_insert_eq. reflexivity.
Qed.

(** [self += names] for a collection: the collection is first made a
    name-set of the order and the metric of [self] *)
Lemma run_iadd_collection self ns names w :
  objs w !! self = Some ns → (length (_names ns) + length names ≠ 0)%nat →
  ∃ w' h, __iadd__ self (OColl names) w = (Ok self, w')
          ∧ objs w' !! self
            = Some (iadd_result ns (new_name_set names (_order ns) (_name_len_func ns) h)).
Proof.
  intros Hns Hlen.
  set (o := fresh (dom (objs w))).
  set (h := fresh (dom (hists w))).
  assert (o ≠ self) as Hne.
  { intros Heq. pose proof (fresh_obj_None w) as Hf. fold o in Hf. congruence. }
  pose proof (run_iadd_name_set self o ns (new_name_set names (_order ns) (_name_len_func ns) h)
                (with_objs (<[o := new_name_set names (_order ns) (_name_len_func ns) h]> (objs w))
                   (with_hists (<[h := ∅]> (hists w)) w))) as Hrun.
  eexists _, h. split.
  - unfold __iadd__ in *. unfold as_name_set at 1.
    erewrite run_bind.
    2:{ erewrite run_bind by (by apply run_get_obj). apply run_init. }
    fold o h. apply Hrun; [look | look | done..].
  - wsimpl. by rewrite lookup_insert_eq.
Qed.

Lemma new_name_set_avg_ok names order f h : avg_ok (new_name_set names order f h).
Proof. unfold avg_ok. reflexivity. Qed.

Lemma iadd_result_avg_ok ns o :
  avg_ok ns → avg_ok o → _name_len_func o = _name_len_func ns →
  (length (_names ns) + length (_names o) ≠ 0)%nat →
  avg_ok (iadd_result ns o).
Proof.
  unfold avg_ok. intros Hns Ho Hf Hlen. cbn [iadd_result _avg_name_len _name_len_func _names].
  rewrite Hf in Ho. by apply weighted_mean.
Qed.

(** [A + B] for two name-sets of the same order and metric, one of them
    with a name: the sum is a new name-set, its corpus the two corpora one
    after the other, its mean the size-weighted combination of the two *)
Lemma run_add_name_set A B ns o s w :
  objs w !! A = Some ns → hists w !! _history ns = Some s →
  objs w !! B = Some o →
  _order o = _order ns → _name_len_func o = _name_len_func ns →
  (length (_names ns) + length (_names o) ≠ 0)%nat →
  ∃ c hc w',
    __add__ A (ONameSet B) w = (Ok c, w') ∧
    objs w !! c = None ∧
    objs w' !! c = Some (set_in_operation false (set_history hc (iadd_result ns o))) ∧
    hists w' !! hc = Some ∅.
Proof.
  intros Hns Hs Ho Hord Hf Hlen.
  destruct (run_copy A ns s w Hns Hs)
    as (c & hc & w1 & Hcopy & Hc & Hhc & Hobjs1 & Hhists1 & _).
  assert (B ≠ c) as Hne by (intros ->; congruence).
  exists c, hc. eexists. split; [|split; [exact Hc|]].
  - unfold __add__, binary_op.
    run_step ltac:(exact Hcopy).
    run_step ltac:(apply run_modify_obj; rewrite Hobjs1; apply lookup_insert_eq).
    erewrite run_bind.
    2:{ eapply (run_iadd_name_set c B _ o); wsimpl;
          [apply lookup_insert_eq | rewrite lookup_insert_ne, Hobjs1, lookup_insert_ne by done;
                                    exact Ho | done..]. }
    wsimpl.
    run_step ltac:(eapply run_clear_history; wsimpl;
                   [apply lookup_insert_eq | exact Hhists1]).
    run_step ltac:(apply run_modify_obj; apply lookup_insert_eq).
    reflexivity.
  - wsimpl. split.
    + rewrite lookup_insert_eq. reflexivity.
    + apply lookup_insert_eq.
Qed.

(** the sum [A + B] of two name-sets of the same order and metric, one of
    them with a name, is returned, with the two corpora one after the other
    and the size-weighted mean; the mean is right when the two were *)
Lemma add_weighted_mean A B ns o s w :
  objs w !! A = Some ns → hists w !! _history ns = Some s →
  objs w !! B = Some o →
  _order o = _order ns → _name_len_func o = _name_len_func ns →
  (length (_names ns) + length (_names o) ≠ 0)%nat →
  ∃ c nc,
    eval (__add__ A (ONameSet B)) w = Ok c ∧
    objs (exec (__add__ A (ONameSet B)) w) !! c = Some nc ∧
    _names nc = _names ns ++ _names o ∧
    _avg_name_len nc
    = ((_avg_name_len ns * nat_Q (length (_names ns))
        + _avg_name_len o * nat_Q (length (_names o)))
       / (nat_Q (length (_names ns)) + nat_Q (length (_names o))))%Q ∧
    (avg_ok ns → avg_ok o → avg_ok nc).
Proof.
  intros Hns Hs Ho Hord Hf Hlen.
  destruct (run_add_name_set A B ns o s w Hns Hs Ho Hord Hf Hlen)
    as (c & hc & w' & Hrun & _ & Hc & _).
  exists c. eexists. unfold eval, exec. rewrite Hrun. simpl.
  split; [done|]. split; [exact Hc|]. split; [done|]. split; [done|].
  intros HA HB. by apply (iadd_result_avg_ok ns o).
Qed.

(** [self += other] on two empty corpora divides by 0, whatever the two
    name-sets otherwise are *)
Lemma run_iadd_name_set_empty self other ns o w :
  objs w !! self = Some ns → objs w !! other = Some o →
  _order o = _order ns → _name_len_func o = _name_len_func ns →
  _names ns = [] → _names o = [] →
  __iadd__ self (ONameSet other) w = (Raise ZeroDivisionError, w).
Proof.
  intros Hns Ho Hord Hf Hn Hno. unfold __iadd__, as_name_set.
  run_step ltac:(reflexivity).
  run_step ltac:(by apply run_get_obj).
  run_step ltac:(by apply run_get_obj).
  rewrite Hord, Nat.eqb_refl. cbn [negb].
  run_step ltac:(reflexivity).
  run_step ltac:(by apply run_get_obj).
  unfold func_is. rewrite Hf, Nat.eqb_refl. cbn [negb].
  run_step ltac:(reflexivity).
  run_step ltac:(by apply run_get_obj).
  rewrite Hn, Hno. reflexivity.
Qed.

Lemma run_iadd_collection_empty self ns w :
  objs w !! self = Some ns → _names ns = [] →
  ∃ w', __iadd__ self (OColl []) w = (Raise ZeroDivisionError, w').
Proof.
  intros Hns Hn.
  set (o := fresh (dom (objs w))).
  set (h := fresh (dom (hists w))).
  assert (o ≠ self) as Hne.
  { intros Heq. pose proof (fresh_obj_None w) as Hf. fold o in Hf. congruence. }
  pose proof (run_iadd_name_set_empty self o ns (new_name_set [] (_order ns) (_name_len_func ns) h)
                (with_objs (<[o := new_name_set [] (_order ns) (_name_len_func ns) h]> (objs w))
                   (with_hists (<[h := ∅]> (hists w)) w))) as Hrun.
  eexists. unfold __iadd__ in *. unfold as_name_set at 1.
  erewrite run_bind.
  2:{ erewrite run_bind by (by apply run_get_obj). apply run_init. }
  fold o h. apply Hrun; [look | look | done..].
Qed.

(** the sum of two empty corpora: [A + []] and [A + B] raise
    [ZeroDivisionError] for every empty [A] (and empty [B] of the same
    order and metric) *)
Lemma add_empty_corpora_raises A ns s w :
  objs w !! A = Some ns → hists w !! _history ns = Some s → _names ns = [] →
  eval (__add__ A (OColl [])) w = Raise ZeroDivisionError ∧
  ∀ B o, objs w !! B = Some o → _order o = _order ns →
         _name_len_func o = _name_len_func ns → _names o = [] →
         eval (__add__ A (ONameSet B)) w = Raise ZeroDivisionError.
Proof.
  intros Hns Hs Hn.
  destruct (run_copy A ns s w Hns Hs)
    as (c & hc & w1 & Hcopy & Hc & Hhc & Hobjs1 & Hhists1 & _).
  split.
  - unfold eval, __add__, binary_op.
    run_step ltac:(exact Hcopy).
    run_step ltac:(apply run_modify_obj; rewrite Hobjs1; apply lookup_insert_eq).
    match goal with
    | |- context [(__iadd__ c (OColl []) ≫= _) ?w2] =>
        destruct (run_iadd_collection_empty c
                    (set_in_operation true (set_in_operation false (set_history hc ns))) w2)
          as [w3 Hrun]; [apply lookup_insert_eq | exact Hn |]
    end.
    unfold mbind, M_bind. rewrite Hrun. reflexivity.
  - intros B o Ho Hord Hf Hno.
    assert (B ≠ c) as Hne by (intros ->; congruence).
    unfold eval, __add__, binary_op.
    run_step ltac:(exact Hcopy).
    run_step ltac:(apply run_modify_obj; rewrite Hobjs1; apply lookup_insert_eq).
    unfold mbind, M_bind.
    erewrite (run_iadd_name_set_empty c B _ o); [reflexivity | wsimpl ..].
    + apply lookup_insert_eq.
    + rewrite lookup_insert_ne, Hobjs1, lookup_insert_ne by done. exact Ho.
    + done.
    + done.
    + exact Hn.
    + exact Hno.
Qed.

(** *** [remove] where the metric is the number of characters *)

Lemma measured_mods S H w w' l names f avg :
  mods S H w w' → l ∉ S → measured w l names f avg → measured w' l names f avg.
Proof.
  intros Hm Hl (ns & Hns & Hrest).
  destruct (mods_objs _ _ _ _ Hm _ _ Hns) as (ns' & Hns' & _ & Heq).
  exists ns. rewrite Hns', (Heq Hl). done.
Qed.

Lemma modify_obj_measured l g names f avg w :
  (∀ ns, _history (g ns) = _history ns ∧ _names (g ns) = _names ns ∧
         _name_len_func (g ns) = _name_len_func ns ∧
         _avg_name_len (g ns) = _avg_name_len ns) →
  measured w l names f avg →
  wp (modify_obj l g) w (post {[l]} ∅ w (λ _ w', measured w' l names f avg)).
Proof.
  intros Hg (ns & Hns & Hn & Hf & Ha).
  eapply wp_post_mono; [apply modify_obj_spec; intros; apply Hg|].
  intros [] w' (ns0 & Hns0 & Hns'). assert (ns0 = ns) as -> by congruence.
  exists (g ns). destruct (Hg ns) as (_ & -> & -> & ->). done.
Qed.

Lemma pydiv_value_spec a b w :
  wp (pydiv a b) w
     (post ∅ ∅ w (λ q w', w' = w ∧ q = (a / b)%Q ∧ Qeq_bool b 0 = false)).
Proof.
  apply wp_pydiv. destruct (Qeq_bool b 0) eqn:E.
  - apply post_fail, mods_refl.
  - apply post_ok; [apply mods_refl | done].
Qed.

Lemma remove_measured self name names f avg w :
  measured w self names f avg →
  wp (remove self name) w
     (post {[self]} ∅ w
        (λ _ w', name ∈ names ∧ remove_first name names ≠ [] ∧
                 measured w' self (remove_first name names) f
                   (mean_after_remove avg name (remove_first name names)))).
Proof.
  intros (ns & Hns & Hn & Hf & Ha). unfold remove. pose proof (mods_refl {[self]} ∅ w) as Hm.
  step. intros ns' w1 _ _ [-> Hns']. assert (ns' = ns) as -> by congruence.
  rewrite Hn. case_bool_decide as Hin; [|apply wp_bind, wp_raise; by apply post_fail].
  step_modify. intros [] w1 Hm1 _ (n0 & Hn0 & Hn1). assert (n0 = ns) as -> by congruence.
  assert (measured w1 self (remove_first name names) f avg) as Hc1.
  { eexists. split; [exact Hn1 | done]. }
  step. intros ns1 w2 _ _ [-> Hns1]. simplify_eq. simpl.
  eapply (wp_seq _ _ _ _ _ _ {[self]} ∅
            (λ _ w2, measured w2 self (remove_first name (_names ns)) (_name_len_func ns)
                       (_avg_name_len ns))); [done | | side..|].
  { case_bool_decide as Hin2.
    - by apply ret_spec; [apply mods_refl|].
    - case_bool_decide as Hin3; [|by apply raise_spec, mods_refl].
      by apply modify_obj_measured. }
  intros [] w2 Hm2 _ Hc2.
  step. intros r w3 Hm3 Hm3' _.
  assert (measured w3 self (remove_first name (_names ns)) (_name_len_func ns)
            (_avg_name_len ns)) as Hc3.
  { eapply measured_mods; [exact Hm3' | set_solver | done]. }
  step. intros rn w4 _ _ [-> Hrn].
  eapply (wp_seq _ _ _ _ _ _ {[self]} ∅
            (λ _ w4, measured w4 self (remove_first name (_names ns)) (_name_len_func ns)
                       (_avg_name_len ns))); [done | | side..|].
  { eapply wp_post_mono.
    - apply (for_each_inv {[self]} ∅
               (λ _ w4, measured w4 self (remove_first name (_names ns)) (_name_len_func ns)
                          (_avg_name_len ns))); [done|].
      intros [key letters] rest w4 Hc4. pose proof (mods_refl {[self]} ∅ w4) as Hm4.
      step. intros n4 w5 _ _ [-> Hn4].
      destruct (dict_remove_letters _ _ _) as [outcome d].
      step_with ltac:(by apply (modify_obj_measured self _ (remove_first name (_names ns))
                                  (_name_len_func ns) (_avg_name_len ns))).
      intros [] w5 Hm5 _ Hc5.
      destruct outcome; [by apply ret_spec | by apply raise_spec | by apply post_diverge].
    - done. }
  intros [] w4 Hm4 _ Hc4.
  step. intros n5 w5 _ _ [-> Hn5].
  destruct Hc4 as (n5' & Hn5' & Hnames5 & Hf5 & Ha5). assert (n5' = n5) as -> by congruence.
  rewrite Hnames5, Ha5.
  step_with ltac:(apply pydiv_value_spec). intros avg w5 _ _ (-> & -> & Hnz).
  eapply wp_last; [eassumption | apply modify_obj_spec; done | side.. |].
  intros [] w5 _ _ (n6 & Hn6 & Hn7). assert (n6 = n5) as -> by congruence.
  split; [done|]. split.
  - intros Heq. rewrite Heq in Hnz. discriminate.
  - eexists. split; [exact Hn7|]. done.
Qed.

Lemma sum_remove_first (g : string → Q) name names :
  name ∈ names →
  (sum (g <$> names) == g name + sum (g <$> remove_first name names))%Q.
Proof.
  induction names as [|x names IH]; [by intros ?%elem_of_nil|].
  intros Hin. cbn [remove_first fmap list_fmap]. destruct (decide (name = x)) as [->|Hne].
  - apply sum_cons.
  - apply elem_of_cons in Hin as [?|Hin]; [done|].
    cbn [fmap list_fmap]. rewrite !sum_cons, (IH Hin). ring.
Qed.

Lemma length_remove_first {A} `{EqDecision A} (x : A) l :
  x ∈ l → length l = S (length (remove_first x l)).
Proof.
  induction l as [|y l IH]; [by intros ?%elem_of_nil|].
  intros Hin. simpl. destruct (decide (x = y)) as [->|Hne]; [done|].
  apply elem_of_cons in Hin as [?|Hin]; [done|]. simpl. by rewrite <- IH.
Qed.

Lemma nat_Q_S n : (nat_Q (S n) == nat_Q n + 1)%Q.
Proof. replace (S n) with (n + 1)%nat by lia. rewrite nat_Q_add. reflexivity. Qed.

(** the mean that [remove] stores is the mean of what is left exactly when
    the metric of the removed name is its number of characters *)
Lemma mean_after_remove_ok f name names avg :
  (avg == mean_of f names)%Q → name ∈ names → remove_first name names ≠ [] →
  (mean_after_remove avg name (remove_first name names)
   == mean_of f (remove_first name names))%Q
  ↔ (lf_call f name == len name)%Q.
Proof.
  intros Havg Hin Hrest. unfold mean_after_remove.
  rewrite mean_of_nonempty by done.
  set (rest := remove_first name names) in *.
  assert (¬ (nat_Q (length rest) == 0)%Q) as Hnz.
  { apply nat_Q_nonzero. by destruct rest. }
  assert (avg * (nat_Q (length rest) + 1)
          == lf_call f name + sum (lf_call f <$> rest))%Q as ->.
  { unfold rest. rewrite <- nat_Q_S, <- (length_remove_first name names Hin), Havg,
      mean_times_length.
    by apply sum_remove_first. }
  split.
  - intros Heq.
    assert (lf_call f name + sum (lf_call f <$> rest) - len name
            == sum (lf_call f <$> rest))%Q as Hnum.
    { transitivity ((lf_call f name + sum (lf_call f <$> rest) - len name)
                    / nat_Q (length rest) * nat_Q (length rest))%Q;
        [field; exact Hnz|].
      rewrite Heq. field. exact Hnz. }
    transitivity (lf_call f name + sum (lf_call f <$> rest) - len name
                  - sum (lf_call f <$> rest) + len name)%Q; [ring|].
    rewrite Hnum. ring.
  - intros ->. field. exact Hnz.
Qed.

(** Whenever [remove] returns, it has kept the cached mean right exactly
    when the metric of the removed name is its number of characters. *)
Lemma remove_mean self name ns w :
  objs w !! self = Some ns → avg_ok ns →
  wp (remove self name) w
     (post {[self]} ∅ w
        (λ _ w', mean_ok w' self ↔ (lf_call (_name_len_func ns) name == len name)%Q)).
Proof.
  intros Hns Havg.
  eapply wp_post_mono.
  - apply (remove_measured self name (_names ns) (_name_len_func ns) (_avg_name_len ns)).
    by exists ns.
  - intros [] w' (Hin & Hrest & ns' & Hns' & Hnames & Hf & Ha). cbv beta.
    rewrite <- (mean_after_remove_ok _ name (_names ns) (_avg_name_len ns)) by done.
    unfold mean_ok, avg_ok. split.
    + intros (n & Hn & Hok). assert (n = ns') as -> by congruence.
      by rewrite Ha, Hf, Hnames in Hok.
    + intros Hok. exists ns'. split; [done|]. by rewrite Ha, Hf, Hnames.
Qed.

(** *** The operations that keep the mean right *)

Lemma init_mean_ok names (order : nat) f w :
  let l := fresh (dom (objs w)) in
  eval (__init__ names (nat_Q order) f) w = Ok l
  ∧ mean_ok (exec (__init__ names (nat_Q order) f) w) l.
Proof.
  intros l. unfold eval, exec. rewrite run_init. wsimpl. split; [done|].
  eexists. split; [apply lookup_insert_eq | apply new_name_set_avg_ok].
Qed.

Lemma change_name_len_func_mean_ok self ns f w :
  objs w !! self = Some ns →
  eval (change_name_len_func self f) w = Ok tt
  ∧ mean_ok (exec (change_name_len_func self f) w) self.
Proof.
  intros Hns. unfold eval, exec, change_name_len_func.
  run_step ltac:(by apply run_modify_obj).
  erewrite run_update_avg_name_len by look. wsimpl. split; [done|].
  eexists. split; [apply lookup_insert_eq | reflexivity].
Qed.

Lemma iadd_collection_mean_ok self ns names w :
  objs w !! self = Some ns → avg_ok ns →
  (length (_names ns) + length names ≠ 0)%nat →
  eval (__iadd__ self (OColl names)) w = Ok self
  ∧ mean_ok (exec (__iadd__ self (OColl names)) w) self.
Proof.
  intros Hns Hok Hlen.
  destruct (run_iadd_collection self ns names w Hns Hlen) as (w' & h & Hrun & Hself).
  unfold eval, exec. rewrite Hrun. split; [done|].
  eexists. split; [exact Hself|].
  apply iadd_result_avg_ok; [done | apply new_name_set_avg_ok | done..].
Qed.

Lemma append_mean_ok self ns name w :
  objs w !! self = Some ns → avg_ok ns →
  eval (append self name) w = Ok tt ∧ mean_ok (exec (append self name) w) self.
Proof.
  intros Hns Hok.
  destruct (run_iadd_collection self ns [name] w Hns) as (w' & h & Hrun & Hself).
  { simpl. lia. }
  unfold eval, exec, append. erewrite run_bind by exact Hrun. split; [done|].
  eexists. split; [exact Hself|].
  apply iadd_result_avg_ok; [done | apply new_name_set_avg_ok | done |]. simpl. lia.
Qed.

Lemma iand_collection_mean_ok self ns names w :
  objs w !! self = Some ns →
  eval (__iand__ self (OColl names)) w = Ok self
  ∧ mean_ok (exec (__iand__ self (OColl names)) w) self.
Proof.
  intros Hns. unfold eval, exec, __iand__.
  run_step ltac:(reflexivity).
  run_step ltac:(reflexivity).
  run_step ltac:(by apply run_get_obj).
  run_step ltac:(by apply run_modify_obj).
  run_step ltac:(apply run_modify_obj; look).
  run_step ltac:(apply run_make_markov_dict; look).
  run_step ltac:(apply run_update_avg_name_len; look).
  split; [done|]. eexists. split; [simpl; apply lookup_insert_eq | reflexivity].
Qed.

(** ** The tests of the repository, on the model *)

(** [test_add_with_duplicates], [test_sub_with_duplicates],
    [test_or_with_duplicates], [test_and_with_duplicates] and their
    in-place forms *)
Example test_with_duplicates :
  names_of (__add__ 0 (ONameSet 1)) test_sets = Some (test_names_3 ++ test_names_4) ∧
  names_of (__sub__ 0 (ONameSet 1)) test_sets = Some ["name1"; "name1"; "name2"; "name2"]%string ∧
  names_of (__or__ 0 (ONameSet 1)) test_sets = Some ["name1"; "name2"; "name3"]%string ∧
  names_of (__and__ 0 (ONameSet 1)) test_sets = Some ["name2"; "name2"]%string ∧
  names_of (__iadd__ 0 (ONameSet 1)) test_sets = Some (test_names_3 ++ test_names_4) ∧
  names_of (__isub__ 0 (ONameSet 1)) test_sets = Some ["name1"; "name1"; "name2"; "name2"]%string ∧
  names_of (__ior__ 0 (ONameSet 1)) test_sets = Some ["name1"; "name2"; "name3"]%string ∧
  names_of (__iand__ 0 (ONameSet 1)) test_sets = Some ["name2"; "name2"]%string.
Proof. vm_compute. split_and!; reflexivity. Qed.

(** [test_remove]: the corpus, the mean and the table after
    [n1.remove('name 1')] are those of a name-set made of the other names,
    and a second [remove] raises [ValueError] *)
Example test_remove :
  let w := one_name_set test_names_1 3%Q DEFAULT_NAME_LEN_FUNC (λ n, n) in
  let w' := exec (remove 0 "name 1") w in
  eval (remove 0 "name 1") w = Ok tt ∧
  (∃ ns, objs w' !! 0 = Some ns ∧
         _names ns = ["name2"; "name3"; "name4"]%string ∧
         _names_set ns = list_to_set (_names ns) ∧
         avg_ok ns ∧
         _markov_dict ns = make_markov_dict ["name2"; "name3"; "name4"]%string 3) ∧
  eval (remove 0 "name 1") w' = Raise ValueError.
Proof.
  intros w w'. split; [vm_compute; reflexivity|]. split.
  - eexists. split; [vm_compute; reflexivity|].
    split_and!; [reflexivity | vm_compute; reflexivity | reflexivity | vm_compute; reflexivity].
  - vm_compute. reflexivity.
Qed.

(** [test_remove_duplicates] *)
Example test_remove_duplicates :
  eval removing_duplicates test_set_3 = Ok tt ∧
  ∃ ns, objs (exec removing_duplicates test_set_3) !! 0 = Some ns ∧
        _names ns = ["name1"; "name2"; "change the avg len"]%string ∧
        _names_set ns = list_to_set (_names ns) ∧
        avg_ok ns ∧
        _markov_dict ns
        = make_markov_dict ["name1"; "name2"; "change the avg len"]%string 3.
Proof.
  split; [vm_compute; reflexivity|].
  eexists. split; [vm_compute; reflexivity|].
  split; [reflexivity|]. split; [vm_compute; reflexivity|].
  split; vm_compute; reflexivity.
Qed.

(** [test_add_to_nothing], [test_sub_from_nothing], [test_or_to_nothing]:
    an empty name-set on the left *)
Example test_to_nothing :
  let w := exec (empty_name_set ← __init__ [] 3%Q DEFAULT_NAME_LEN_FUNC;
                 __init__ test_names_1 3%Q DEFAULT_NAME_LEN_FUNC) empty_world in
  names_of (__add__ 0 (ONameSet 1)) w = Some test_names_1 ∧
  names_of (__sub__ 0 (ONameSet 1)) w = Some [] ∧
  names_of (__or__ 0 (ONameSet 1)) w = Some test_names_1.
Proof. vm_compute. split_and!; reflexivity. Qed.

(** [test_markov_dict] *)
Example test_markov_dict :
  make_markov_dict ["name 1"; "name2"]%string 2
  = list_to_map [(""%string, letters "nn"); ("n"%string, letters "aa");
                 ("na"%string, letters "mm"); ("am"%string, letters "ee");
                 ("me"%string, letters " 2"); ("e "%string, letters "1");
                 (" 1"%string, [_END]); ("e2"%string, [_END])] ∧
  make_markov_dict ["name 1"; "name2"]%string 3
  = list_to_map [(""%string, letters "nn"); ("n"%string, letters "aa");
                 ("na"%string, letters "mm"); ("nam"%string, letters "ee");
                 ("ame"%string, letters " 2"); ("me "%string, letters "1");
                 ("e 1"%string, [_END]); ("me2"%string, [_END])].
Proof. split; vm_compute; reflexivity. Qed.

(** [test_wrong_order] *)
Example test_wrong_order :
  eval (__init__ test_names_1 (3 # 2) DEFAULT_NAME_LEN_FUNC) empty_world = Raise ValueError ∧
  eval (__init__ test_names_1 (-1) DEFAULT_NAME_LEN_FUNC) empty_world = Raise ValueError ∧
  eval (__init__ test_names_1 0 DEFAULT_NAME_LEN_FUNC) empty_world = Ok 0%nat.
Proof. vm_compute. split_and!; reflexivity. Qed.

(** [test_exclude_real_names]: the chains of these two names only make
    the two names again *)
Example test_exclude_real_names :
  eval (make_name 20 0 kw.default)
       (one_name_set_banning ["name 1"; "name2"]%string ∅) = Ok ""%string ∧
  (∃ name, eval (make_name 20 0 allowing_real_names)
                (one_name_set_banning ["name 1"; "name2"]%string ∅) = Ok name
           ∧ name ∈ ["name 1"; "name2"]%string).
Proof.
  split; [vm_compute; reflexivity|].
  eexists. split; [vm_compute; reflexivity|]. apply elem_of_cons. by left.
Qed.

(** [test_history] *)
Example test_history :
  let w := one_name_set_banning ["name1"%string] ∅ in
  eval (make_name 20 0 not_recording) w = Ok "name1"%string ∧
  eval (make_name 20 0 not_recording;; get_history 0) w = Ok ∅ ∧
  eval (make_name 20 0 allowing_repeats;; make_name 20 0 allowing_repeats) w
  = Ok "name1"%string ∧
  eval (make_name 20 0 allowing_repeats;; get_history 0) w = Ok {[ "name1"%string ]} ∧
  eval (make_name 20 0 allowing_repeats;; make_name 20 0 allowing_real_names) w
  = Ok ""%string.
Proof. vm_compute. split_and!; reflexivity. Qed.

(** [test_banned_words] *)
Example test_banned_words :
  eval (make_name 20 0 allowing_real_names)
       (one_name_set_banning ["NAME1"; "name2"; " NaMe 3 "]%string {[ "name"%string ]})
  = Ok ""%string ∧
  eval (make_name 20 0 allowing_real_names)
       (one_name_set_banning ["NAME1"; "name2"; " NaMe 3 "]%string {[ "NAME"%string ]})
  = Ok ""%string.
Proof. vm_compute. split; reflexivity. Qed.

(** [test_candidate_selection], with draws that make the three names *)
Example test_candidate_selection :
  let w := one_name_set ["hey"; "hi"; "hello"]%string 3%Q DEFAULT_NAME_LEN_FUNC
             (λ n, n `div` 2)%nat in
  eval (candidates_loop 20 0 (best_of_20 MIN) 20 []) w
  = Ok ["hello"; "hey"; "hey"; "hi"; "hello"; "hey"; "hey"; "hi"; "hey"; "hi";
        "hello"; "hey"; "hey"; "hi"; "hey"; "hi"; "hello"; "hey"; "hey"; "hi"]%string ∧
  eval (make_name 20 0 (best_of_20 MIN)) w = Ok "hi"%string ∧
  eval (make_name 20 0 (best_of_20 AVG)) w = Ok "hey"%string ∧
  eval (make_name 20 0 (best_of_20 MAX)) w = Ok "hello"%string.
Proof. vm_compute. split_and!; reflexivity. Qed.


(** * The class invariant

    The membership set is the set of the corpus and the table is the
    table of the corpus, up to the order of the letters under a key: the
    constructor makes it so, and the methods keep it. *)

(** ** The chain table *)

Lemma following_app key ps qs :
  following key (ps ++ qs) = following key ps ++ following key qs.
Proof. unfold following. by rewrite filter_app, fmap_app. Qed.

Lemma following_cons key p ps :
  following key (p :: ps)
  = if decide (p.1 = key) then p.2 :: following key ps else following key ps.
Proof. unfold following. rewrite filter_cons. by destruct (decide (p.1 = key)). Qed.

Lemma letters_at_dict_append d k x key :
  letters_at (dict_append d k x) key
  = if decide (k = key) then letters_at d key ++ [x] else letters_at d key.
Proof.
  unfold letters_at, dict_append.
  destruct (decide (k = key)) as [->|Hne].
  - destruct (d !! key) as [l|] eqn:E; by rewrite lookup_insert_eq.
  - destruct (d !! k) as [l|] eqn:E; by rewrite lookup_insert_ne.
Qed.

Lemma no_empty_list_dict_append d k x :
  no_empty_list d → no_empty_list (dict_append d k x).
Proof.
  intros Hd key l. unfold dict_append.
  destruct (d !! k) as [l0|] eqn:E; (destruct (decide (k = key)) as [->|Hne];
    [rewrite lookup_insert_eq; intros [= <-] | rewrite lookup_insert_ne by done; apply Hd]).
  - by destruct l0.
  - done.
Qed.

Lemma letters_at_markov_add_name order d previous_letter name key :
  letters_at (markov_add_name order d previous_letter name) key
  = letters_at d key ++ following key (transitions order previous_letter name).
Proof.
  revert d previous_letter.
  induction name as [|letter rest IH]; intros d previous_letter; simpl.
  - rewrite letters_at_dict_append, following_cons. simpl.
    destruct (decide (previous_letter = key)); [done | by rewrite app_nil_r].
  - rewrite IH, letters_at_dict_append, following_cons. simpl.
    destruct (decide (previous_letter = key)); [by rewrite <- app_assoc | done].
Qed.

Lemma no_empty_list_markov_add_name order d previous_letter name :
  no_empty_list d → no_empty_list (markov_add_name order d previous_letter name).
Proof.
  revert d previous_letter.
  induction name as [|letter rest IH]; intros d previous_letter Hd; simpl.
  - by apply no_empty_list_dict_append.
  - by apply IH, no_empty_list_dict_append.
Qed.

Lemma letters_at_fold_names order names d key :
  letters_at (fold_left (λ d name, markov_add_name order d "" name) names d) key
  = letters_at d key ++ following key (corpus_transitions order names).
Proof.
  revert d. induction names as [|name names IH]; intros d; simpl.
  - by rewrite app_nil_r.
  - rewrite IH, letters_at_markov_add_name. unfold corpus_transitions. simpl.
    by rewrite following_app, app_assoc.
Qed.

Lemma no_empty_list_fold_names order names d :
  no_empty_list d →
  no_empty_list (fold_left (λ d name, markov_add_name order d "" name) names d).
Proof.
  revert d. induction names as [|name names IH]; intros d Hd; simpl; [done|].
  by apply IH, no_empty_list_markov_add_name.
Qed.

Lemma letters_at_make_markov_dict names order key :
  letters_at (make_markov_dict names order) key
  = following key (corpus_transitions order names).
Proof. unfold make_markov_dict. by rewrite letters_at_fold_names. Qed.

Lemma no_empty_list_make_markov_dict names order :
  no_empty_list (make_markov_dict names order).
Proof. apply no_empty_list_fold_names. intros key l. by rewrite lookup_empty. Qed.

(** a table without empty lists is known by its letters under each key *)
Lemma lookup_letters_at d key :
  no_empty_list d →
  d !! key = match letters_at d key with [] => None | l => Some l end.
Proof.
  intros Hd. unfold letters_at. destruct (d !! key) as [l|] eqn:E; simpl; [|done].
  specialize (Hd key l E). by destruct l.
Qed.

Lemma table_eq d1 d2 :
  no_empty_list d1 → no_empty_list d2 →
  (∀ key, letters_at d1 key = letters_at d2 key) → d1 = d2.
Proof.
  intros H1 H2 Heq. apply map_eq. intros key.
  by rewrite (lookup_letters_at d1), (lookup_letters_at d2), Heq.
Qed.

(** ** The table through [remove] *)

Lemma list_remove_all_ok letters l :
  (∀ x, count x letters ≤ count x l) →
  ∃ l', list_remove_all letters l = (Ok tt, l')
        ∧ ∀ x, count x l' = count x l - count x letters.
Proof.
  revert l. induction letters as [|letter letters IH]; intros l Hle; simpl.
  - exists l. split; [done|]. intros x. lia.
  - assert (letter ∈ l) as Hin.
    { apply elem_of_count. specialize (Hle letter). simpl in Hle.
      rewrite decide_True in Hle by done. lia. }
    rewrite bool_decide_true by done.
    destruct (IH (remove_first letter l)) as (l' & Hrun & Hcount).
    { intros x. rewrite count_remove_first. specialize (Hle x). simpl in Hle.
      destruct (decide (x = letter)); lia. }
    exists l'. split; [done|]. intros x. rewrite Hcount, count_remove_first.
    destruct (decide (x = letter)); lia.
Qed.

Lemma dict_remove_letters_ok d key letters :
  no_empty_list d → letters ≠ [] →
  (∀ x, count x letters ≤ count x (letters_at d key)) →
  ∃ d', dict_remove_letters d key letters = (Ok tt, d') ∧
        no_empty_list d' ∧
        ∀ key' x, count x (letters_at d' key')
                  = if decide (key' = key)
                    then count x (letters_at d key) - count x letters
                    else count x (letters_at d key').
Proof.
  intros Hd Hletters Hle. unfold dict_remove_letters.
  destruct (d !! key) as [l|] eqn:E.
  2:{ destruct letters as [|x letters]; [done|]. specialize (Hle x).
      unfold letters_at in Hle. rewrite E in Hle. simpl in Hle.
      rewrite decide_True in Hle by done. lia. }
  assert (letters_at d key = l) as Hl by (unfold letters_at; by rewrite E).
  rewrite Hl in Hle. destruct (list_remove_all_ok letters l Hle) as (l' & -> & Hcount).
  destruct l' as [|y l'].
  - exists (delete key d). split; [done|]. split.
    + intros k l0 [_ Hk]%lookup_delete_Some. by eapply Hd.
    + intros key' x. unfold letters_at. destruct (decide (key' = key)) as [->|Hne].
      * rewrite lookup_delete_eq, E. simpl. by rewrite <- Hcount.
      * by rewrite lookup_delete_ne.
  - exists (<[key := y :: l']> d). split; [done|]. split.
    + intros k l0. destruct (decide (key = k)) as [->|Hne].
      * rewrite lookup_insert_eq. by intros [= <-].
      * rewrite lookup_insert_ne by done. apply Hd.
    + intros key' x. unfold letters_at. destruct (decide (key' = key)) as [->|Hne].
      * rewrite lookup_insert_eq, E. simpl. by rewrite <- Hcount.
      * by rewrite lookup_insert_ne.
Qed.

Lemma remove_entries_ok d entries :
  no_empty_list d → NoDup entries.*1 →
  (∀ key ls, (key, ls) ∈ entries →
             ls ≠ [] ∧ ∀ x, count x ls ≤ count x (letters_at d key)) →
  ∃ d', remove_entries d entries = (Ok tt, d') ∧
        no_empty_list d' ∧
        ∀ key x, count x (letters_at d' key)
                 = count x (letters_at d key) - count x (entry_letters entries key).
Proof.
  revert d. induction entries as [|[k ls] entries IH]; intros d Hd Hnd Hle.
  - exists d. split; [done|]. split; [done|]. intros key x.
    unfold entry_letters, letters_at. cbn [list_to_map foldr]. rewrite lookup_empty. simpl. lia.
  - cbn [remove_entries]. rewrite fmap_cons in Hnd. apply NoDup_cons in Hnd as [Hk Hnd].
    destruct (Hle k ls) as [Hls Hcount]; [apply elem_of_cons; by left|].
    destruct (dict_remove_letters_ok d k ls Hd Hls Hcount) as (d1 & -> & Hd1 & Hc1).
    assert (∀ key ls', (key, ls') ∈ entries → key ≠ k) as Hother.
    { intros key ls' Hin ->. apply Hk. apply list_elem_of_fmap. by exists (k, ls'). }
    destruct (IH d1 Hd1 Hnd) as (d' & Hrun & Hd' & Hc').
    { intros key ls' Hin. destruct (Hle key ls') as [? Hc]; [apply elem_of_cons; by right|].
      split; [done|]. intros x. rewrite Hc1, decide_False by by eapply Hother. apply Hc. }
    exists d'. split; [done|]. split; [done|]. intros key x.
    rewrite Hc', Hc1. unfold entry_letters, letters_at. simpl.
    destruct (decide (key = k)) as [->|Hne].
    + rewrite lookup_insert_eq. simpl.
      assert ((list_to_map entries : gmap string (list (option ascii))) !! k = None) as ->.
      { by apply not_elem_of_list_to_map_1. }
      simpl. lia.
    + rewrite lookup_insert_ne by done. done.
Qed.

Lemma count_following_remove_first order name names key x :
  name ∈ names →
  count x (following key (corpus_transitions order names))
  = count x (following key (transitions order "" name))
    + count x (following key (corpus_transitions order (remove_first name names))).
Proof.
  unfold corpus_transitions.
  induction names as [|n names IH]; [by intros ?%elem_of_nil|].
  intros Hin. rewrite bind_cons. cbn [remove_first].
  destruct (decide (name = n)) as [->|Hne].
  - by rewrite following_app, count_app.
  - apply elem_of_cons in Hin as [?|Hin]; [done|].
    rewrite bind_cons, !following_app, !count_app, (IH Hin). lia.
Qed.

(** the table of a corpus without one of its names is what the loop of
    [remove] leaves *)
Lemma remove_entries_table d order name names :
  table_of d order names → name ∈ names →
  ∃ d', remove_entries d (map_to_list (make_markov_dict [name] order)) = (Ok tt, d')
        ∧ table_of d' order (remove_first name names).
Proof.
  intros [Hd Hcount] Hin.
  set (rd := make_markov_dict [name] order).
  assert (∀ key, letters_at rd key = following key (transitions order "" name)) as Hrd.
  { intros key. unfold rd. rewrite letters_at_make_markov_dict.
    unfold corpus_transitions. simpl. by rewrite app_nil_r. }
  destruct (remove_entries_ok d (map_to_list rd) Hd) as (d' & Hrun & Hd' & Hc').
  - apply NoDup_fst_map_to_list.
  - intros key ls Hkey%elem_of_map_to_list. split.
    + by eapply no_empty_list_make_markov_dict.
    + intros x. rewrite Hcount, (count_following_remove_first order name names key x Hin).
      rewrite <- Hrd. unfold letters_at. rewrite Hkey. simpl. lia.
  - exists d'. split; [done|]. split; [done|]. intros key x.
    rewrite Hc', Hcount, (count_following_remove_first order name names key x Hin).
    unfold entry_letters. rewrite list_to_map_to_list, Hrd. lia.
Qed.

(** ** [remove], to its end *)

Lemma with_objs_insert_id self ns w :
  objs w !! self = Some ns → with_objs (<[self := ns]> (objs w)) w = w.
Proof. intros H. rewrite insert_id by done. by destruct w. Qed.

Lemma run_remove_loop self ns entries w :
  objs w !! self = Some ns →
  for_each entries (λ '(key, remove_letters),
    ns ← get_obj self;
    let '(outcome, d) := dict_remove_letters (_markov_dict ns) key remove_letters in
    modify_obj self (set_markov_dict d);;
    match outcome with
    | Ok _ => mret tt
    | Raise e => raise e
    | Diverge => diverge
    end) w
  = ((remove_entries (_markov_dict ns) entries).1,
     with_objs (<[self := set_markov_dict (remove_entries (_markov_dict ns) entries).2 ns]>
                  (objs w)) w).
Proof.
  revert ns w. induction entries as [|[key ls] entries IH]; intros ns w Hns.
  - simpl. rewrite with_objs_insert_id; [done|]. rewrite Hns. by destruct ns.
  - cbn [for_each remove_entries].
    destruct (dict_remove_letters (_markov_dict ns) key ls) as [outcome d] eqn:E.
    assert (∀ k : unit → M unit,
      ((ns0 ← get_obj self;
        let '(outcome, d) := dict_remove_letters (_markov_dict ns0) key ls in
        modify_obj self (set_markov_dict d);;
        match outcome with
        | Ok _ => mret tt
        | Raise e => raise e
        | Diverge => diverge
        end) ≫= k) w
      = match outcome with
        | Ok _ => k tt (with_objs (<[self := set_markov_dict d ns]> (objs w)) w)
        | Raise e => (Raise e, with_objs (<[self := set_markov_dict d ns]> (objs w)) w)
        | Diverge => (Diverge, with_objs (<[self := set_markov_dict d ns]> (objs w)) w)
        end) as Hbody.
    { intros k. unfold mbind at 1, M_bind at 1.
      erewrite run_bind by (by apply run_get_obj). rewrite E.
      erewrite run_bind by (by apply run_modify_obj).
      by destruct outcome as [[]|e|]. }
    rewrite Hbody. destruct outcome as [[]|e|]; [|done..].
    rewrite (IH (set_markov_dict d ns)) by (simpl; apply lookup_insert_eq).
    simpl. unfold with_objs. simpl. by rewrite insert_insert_eq.
Qed.

Lemma nat_Q_zero_iff n : Qeq_bool (nat_Q n) 0 = bool_decide (n = 0%nat).
Proof.
  destruct n; [done|]. rewrite nat_Q_S_nonzero. by rewrite bool_decide_false.
Qed.

(** [remove] on a well-formed name-set that holds the name: the run, to
    its end *)
Lemma run_remove self ns name w :
  objs w !! self = Some ns → well_formed ns → name ∈ _names ns →
  ∃ d w',
    table_of d (_order ns) (remove_first name (_names ns)) ∧
    objs w' !! self = Some (removed ns name d) ∧
    remove self name w
    = (match remove_first name (_names ns) with
       | [] => Raise ZeroDivisionError
       | _ :: _ => Ok tt
       end, w').
Proof.
  intros Hns [Hset Htable] Hin.
  set (rest := remove_first name (_names ns)).
  set (ns2 := set_names_set (list_to_set rest) (set_names rest ns)).
  set (l := fresh (dom (<[self := ns2]> (objs w)))).
  assert (l ≠ self) as Hne.
  { intros Heq. pose proof (is_fresh (dom (<[self := ns2]> (objs w)))) as Hf.
    fold l in Hf. rewrite Heq in Hf. apply Hf, elem_of_dom. rewrite lookup_insert_eq. eauto. }
  destruct (remove_entries_table _ _ name _ Htable Hin) as (d & Hrun & Hd).
  exists d.
  eassert (remove self name w = _) as Hprefix.
  { unfold remove.
    run_step ltac:(by apply run_get_obj).
    rewrite bool_decide_true by done.
    run_step ltac:(by apply run_modify_obj).
    run_step ltac:(apply run_get_obj; look).
    cbn [_names _names_set set_names]. fold rest.
    (* the membership set *)
    assert (∀ k : unit → M unit,
      ((if bool_decide (name ∈ rest) then mret tt
        else if bool_decide (name ∈ _names_set ns)
             then modify_obj self (set_names_set (_names_set ns ∖ {[name]}))
             else raise KeyError) ≫= k)
        (with_objs (<[self := set_names rest ns]> (objs w)) w)
      = k tt (with_objs (<[self := ns2]> (objs w)) w)) as Hblock.
    { intros k. unfold ns2.
      assert (list_to_set rest =@{gset string}
              if bool_decide (name ∈ rest)
              then list_to_set (_names ns) else list_to_set (_names ns) ∖ {[name]}) as ->
        by apply list_to_set_remove_first.
      case_bool_decide as Hrest.
      - erewrite run_bind by reflexivity. do 2 f_equal.
        rewrite <- Hset. by destruct ns.
      - rewrite bool_decide_true by (rewrite Hset; by apply elem_of_list_to_set).
        erewrite run_bind by (apply run_modify_obj; look).
        unfold with_objs. simpl. rewrite insert_insert_eq. by rewrite Hset. }
    rewrite Hblock. clear Hblock.
    unfold order_Q. cbn [_order set_names].
    run_step ltac:(apply run_init).
    fold l.
    run_step ltac:(apply run_get_obj; look).
    cbn [_markov_dict new_name_set].
    erewrite run_bind.
    2:{ rewrite (run_remove_loop self ns2) by look.
        cbn [_markov_dict ns2 set_names_set set_names]. rewrite Hrun. reflexivity. }
    wsimpl. cbn [snd].
    run_step ltac:(apply run_get_obj; look).
    cbn [_names _avg_name_len set_markov_dict ns2 set_names_set set_names].
    unfold pydiv. rewrite nat_Q_zero_iff. reflexivity. }
  rewrite Hprefix. clear Hprefix. fold rest.
  fold rest in Hd.
  destruct rest as [|n rest'] eqn:Erest.
  - rewrite bool_decide_true by done. eexists. split; [exact Hd|]. split; [|reflexivity].
    wsimpl. rewrite lookup_insert_eq. f_equal. unfold removed. fold rest. by rewrite Erest.
  - rewrite bool_decide_false by done.
    eexists. split; [exact Hd|]. split.
    2:{ run_step ltac:(reflexivity). apply run_modify_obj. look. }
    wsimpl. rewrite lookup_insert_eq. f_equal. unfold removed. fold rest. by rewrite Erest.
Qed.

Lemma table_of_make_markov_dict names order :
  table_of (make_markov_dict names order) order names.
Proof.
  split; [apply no_empty_list_make_markov_dict|].
  intros key x. by rewrite letters_at_make_markov_dict.
Qed.

Lemma new_name_set_well_formed names order f h :
  well_formed (new_name_set names order f h).
Proof. split; [done | apply table_of_make_markov_dict]. Qed.

Lemma removed_well_formed ns name d :
  table_of d (_order ns) (remove_first name (_names ns)) → well_formed (removed ns name d).
Proof. intros Hd. by split. Qed.

Lemma letters_at_merge_dicts d o key :
  letters_at (merge_dicts d o) key = letters_at d key ++ letters_at o key.
Proof.
  unfold letters_at, merge_dicts. rewrite lookup_union_with.
  destruct (d !! key) as [l|], (o !! key) as [v|]; simpl; by rewrite ?app_nil_r.
Qed.

Lemma no_empty_list_merge_dicts d o :
  no_empty_list d → no_empty_list o → no_empty_list (merge_dicts d o).
Proof.
  intros Hd Ho key l. unfold merge_dicts. rewrite lookup_union_with.
  destruct (d !! key) as [l1|] eqn:E1, (o !! key) as [l2|] eqn:E2; simpl; intros [= <-].
  - specialize (Hd key l1 E1). by destruct l1.
  - by eapply Hd.
  - by eapply Ho.
Qed.

Lemma corpus_transitions_app order namesA namesB :
  corpus_transitions order (namesA ++ namesB)
  = corpus_transitions order namesA ++ corpus_transitions order namesB.
Proof. unfold corpus_transitions. apply bind_app. Qed.

Lemma iadd_result_well_formed ns o :
  well_formed ns → well_formed o → _order o = _order ns → well_formed (iadd_result ns o).
Proof.
  intros [Hs [Hd Hc]] [Hso [Hdo Hco]] Hord. split; simpl.
  - by rewrite Hs, Hso, list_to_set_app_L.
  - split; [by apply no_empty_list_merge_dicts|]. intros key x.
    rewrite letters_at_merge_dicts, corpus_transitions_app, following_app, !count_app.
    by rewrite Hc, Hco, Hord.
Qed.

(** [remove] of a name that the corpus does not hold raises [ValueError]
    and changes nothing *)
Lemma run_remove_absent self ns name w :
  objs w !! self = Some ns → name ∉ _names ns →
  remove self name w = (Raise ValueError, w).
Proof.
  intros Hns Hin. unfold remove.
  run_step ltac:(by apply run_get_obj).
  by rewrite bool_decide_false by done.
Qed.

(** ** [remove_duplicates], to its end *)

Lemma remove_dups_later {A} `{EqDecision A} (x : A) l1 l2 :
  x ∈ l2 → remove_dups (l1 ++ x :: l2) = remove_dups (l1 ++ l2).
Proof.
  intros Hx. induction l1 as [|a l1 IH]; simpl.
  - by destruct (decide_rel elem_of x l2).
  - rewrite IH. destruct (decide_rel elem_of a (l1 ++ x :: l2)) as [Ha|Ha];
      destruct (decide_rel elem_of a (l1 ++ l2)) as [Hb|Hb]; try done; exfalso.
    + apply Hb. rewrite elem_of_app, elem_of_cons in Ha. rewrite elem_of_app.
      destruct Ha as [?|[->|?]]; auto.
    + apply Ha. rewrite elem_of_app in Hb. rewrite elem_of_app, elem_of_cons. tauto.
Qed.

Lemma remove_dups_NoDup {A} `{EqDecision A} (l : list A) : NoDup l → remove_dups l = l.
Proof.
  induction 1 as [|x l Hx Hl IH]; simpl; [done|].
  destruct (decide_rel elem_of x l); [done | by rewrite IH].
Qed.

Lemma remove_first_app_l {A} `{EqDecision A} (x : A) l1 l2 :
  x ∈ l1 → remove_first x (l1 ++ l2) = remove_first x l1 ++ l2.
Proof.
  induction l1 as [|a l1 IH]; [by intros ?%elem_of_nil|].
  intros Hx. simpl. destruct (decide (x = a)); [done|].
  apply elem_of_cons in Hx as [?|Hx]; [done|]. simpl. by rewrite IH.
Qed.

Lemma NoDup_remove_first {A} `{EqDecision A} (x : A) l :
  NoDup l → NoDup (remove_first x l) ∧ x ∉ remove_first x l.
Proof.
  induction 1 as [|a l Ha Hl [IH1 IH2]]; simpl.
  - split; [constructor | apply not_elem_of_nil].
  - destruct (decide (x = a)) as [->|Hne]; [done|]. split.
    + apply NoDup_cons. split; [|done]. intros Hin. apply Ha.
      by apply elem_of_remove_first_ne in Hin.
    + rewrite elem_of_cons. tauto.
Qed.

(** the loop of [remove_duplicates] leaves every name once, in the order
    of the last occurrences *)
Lemma dedup_names_kept (kept todo : list string) (seen : gset string) :
  NoDup kept → seen = list_to_set kept →
  dedup_names (kept ++ todo) todo seen = remove_dups (kept ++ todo).
Proof.
  revert kept seen. induction todo as [|r todo IH]; intros kept seen Hnd ->; simpl.
  - rewrite app_nil_r. by rewrite remove_dups_NoDup.
  - case_bool_decide as Hr.
    + apply elem_of_list_to_set in Hr.
      destruct (NoDup_remove_first r kept Hnd) as [Hnd' Hr'].
      rewrite remove_first_app_l by done.
      rewrite (cons_middle r), app_assoc.
      rewrite (IH (remove_first r kept ++ [r])).
      * rewrite <- app_assoc. simpl.
        apply list_elem_of_split in Hr as (k1 & k2 & ->).
        assert (r ∉ k1) as Hk1.
        { apply NoDup_app in Hnd as (_ & Hd & _). intros Hin. apply (Hd r Hin).
          apply elem_of_cons. by left. }
        assert (remove_first r (k1 ++ r :: k2) = k1 ++ k2) as ->.
        { clear -Hk1. induction k1 as [|a k1 IH]; simpl; [by rewrite decide_True|].
          rewrite not_elem_of_cons in Hk1. destruct Hk1 as [? ?].
          rewrite decide_False by done. by rewrite IH. }
        rewrite <- !app_assoc. simpl. symmetry.
        apply remove_dups_later. rewrite elem_of_app, elem_of_cons. tauto.
      * apply NoDup_app. split; [done|]. split; [|apply NoDup_singleton].
        intros x Hx ->%list_elem_of_singleton. done.
      * apply set_eq. intros x.
        rewrite elem_of_list_to_set, list_to_set_app_L, elem_of_union, !elem_of_list_to_set.
        rewrite list_elem_of_singleton. split.
        -- intros Hx. destruct (decide (x = r)) as [->|Hne]; [by right|].
           left. by apply elem_of_remove_first_ne.
        -- intros [Hx| ->]; [|done]. by eapply elem_of_remove_first.
    + rewrite elem_of_list_to_set in Hr.
      rewrite (cons_middle r), app_assoc.
      apply IH.
      * apply NoDup_app. split; [done|]. split; [|apply NoDup_singleton].
        intros x Hx ->%list_elem_of_singleton. done.
      * rewrite list_to_set_app_L. simpl. by rewrite (right_id_L ∅ (∪)).
Qed.

Lemma dedup_names_remove_dups (names : list string) :
  dedup_names names names ∅ = remove_dups names.
Proof. by apply (dedup_names_kept [] names ∅); [constructor|]. Qed.

Lemma list_to_set_move_last (r : string) kept :
  r ∈ kept → list_to_set (remove_first r kept ++ [r]) =@{gset string} list_to_set kept.
Proof.
  intros Hr. apply set_eq. intros x.
  rewrite list_to_set_app_L, elem_of_union, !elem_of_list_to_set, list_elem_of_singleton.
  split.
  - intros [Hx| ->]; [|done]. by eapply elem_of_remove_first.
  - intros Hx. destruct (decide (x = r)) as [->|Hne]; [by right|].
    left. by apply elem_of_remove_first_ne.
Qed.

Lemma NoDup_move_last (r : string) kept :
  NoDup kept → NoDup (remove_first r kept ++ [r]).
Proof.
  intros Hnd. destruct (NoDup_remove_first r kept Hnd) as [Hnd' Hr'].
  apply NoDup_app. split; [done|]. split; [|apply NoDup_singleton].
  intros x Hx ->%list_elem_of_singleton. done.
Qed.

Lemma remove_dups_move_last (r : string) kept todo :
  NoDup kept → r ∈ kept →
  remove_dups ((remove_first r kept ++ [r]) ++ todo) = remove_dups (kept ++ r :: todo).
Proof.
  intros Hnd Hr.
  rewrite <- (dedup_names_kept _ todo (list_to_set (remove_first r kept ++ [r])))
    by (by try apply NoDup_move_last).
  rewrite <- (dedup_names_kept kept (r :: todo) (list_to_set kept)) by done.
  simpl. rewrite bool_decide_true by (by apply elem_of_list_to_set).
  rewrite remove_first_app_l by done. rewrite <- app_assoc. simpl.
  by rewrite list_to_set_move_last.
Qed.

Lemma run_remove_duplicates_loop (I : NameSet → Prop) self todo :
  kept_by_remove I →
  ∀ kept ns w,
    objs w !! self = Some ns → well_formed ns → I ns →
    _names ns = kept ++ todo → NoDup kept →
    ∃ w' ns',
      remove_duplicates_loop self todo (list_to_set kept) w = (Ok tt, w') ∧
      objs w' !! self = Some ns' ∧ well_formed ns' ∧ I ns' ∧
      _names ns' = remove_dups (kept ++ todo).
Proof.
  intros HI. induction todo as [|r todo IH]; intros kept ns w Hns Hwf Hi Hnames Hnd.
  - exists w, ns. rewrite app_nil_r in *. rewrite remove_dups_NoDup by done. done.
  - cbn [remove_duplicates_loop]. case_bool_decide as Hr.
    + apply elem_of_list_to_set in Hr.
      assert (r ∈ _names ns) as Hin by (rewrite Hnames, elem_of_app; by left).
      assert (remove_first r (_names ns) = (remove_first r kept ++ [r]) ++ todo) as Hrest.
      { rewrite Hnames, remove_first_app_l by done. by rewrite <- app_assoc. }
      assert (remove_first r (_names ns) ≠ []) as Hne.
      { rewrite Hrest. by destruct (remove_first r kept). }
      destruct (run_remove self ns r w Hns Hwf Hin) as (d & w1 & Hd & Hns1 & Hrun).
      destruct (remove_first r (_names ns)) as [|n rest] eqn:E; [done|].
      rewrite <- E in *.
      destruct (IH (remove_first r kept ++ [r]) (removed ns r d) w1)
        as (w' & ns' & Hloop & Hns' & Hwf' & Hi' & Hnames').
      * done.
      * by apply removed_well_formed.
      * by apply HI.
      * done.
      * by apply NoDup_move_last.
      * exists w', ns'. split.
        -- erewrite run_bind by exact Hrun. rewrite <- (list_to_set_move_last r kept) by done.
           exact Hloop.
        -- split; [done|]. split; [done|]. split; [done|].
           by rewrite Hnames', remove_dups_move_last.
    + rewrite elem_of_list_to_set in Hr.
      destruct (IH (kept ++ [r]) ns w) as (w' & ns' & Hloop & Hrest); [done.. | | |].
      * by rewrite <- app_assoc.
      * apply NoDup_app. split; [done|]. split; [|apply NoDup_singleton].
        intros x Hx ->%list_elem_of_singleton. done.
      * exists w', ns'. split.
        -- rewrite list_to_set_app_L in Hloop. simpl in Hloop.
           by rewrite (right_id_L ∅ (∪)) in Hloop.
        -- by rewrite <- app_assoc in Hrest.
Qed.

Lemma run_remove_duplicates (I : NameSet → Prop) self ns w :
  kept_by_remove I → objs w !! self = Some ns → well_formed ns → I ns →
  ∃ w' ns',
    remove_duplicates self w = (Ok tt, w') ∧
    objs w' !! self = Some ns' ∧ well_formed ns' ∧ I ns' ∧
    _names ns' = remove_dups (_names ns).
Proof.
  intros HI Hns Hwf Hi. unfold remove_duplicates.
  destruct (run_remove_duplicates_loop I self (_names ns) HI [] ns w)
    as (w' & ns' & Hrun & Hrest); [done.. | constructor |].
  exists w', ns'. split; [|done].
  by erewrite run_bind by (by apply run_get_obj).
Qed.

(** ** The in-place operators, to their end *)

Lemma sub_names_nil other : sub_names [] other = [].
Proof.
  induction other as [|b other IH]; cbn [sub_names]; [done|].
  by destruct (bool_decide (b ∈ [])).
Qed.

Lemma sub_names_cons_in b names other :
  b ∈ names → sub_names names (b :: other) = sub_names (remove_first b names) other.
Proof. intros Hb. cbn [sub_names]. by case_bool_decide. Qed.

Lemma sub_names_cons_out b names other :
  b ∉ names → sub_names names (b :: other) = sub_names names other.
Proof. intros Hb. cbn [sub_names]. by case_bool_decide. Qed.

Lemma empties_cons_in b names other :
  b ∈ names →
  empties names (b :: other)
  = match remove_first b names with
    | [] => true
    | rest => empties rest other
    end.
Proof.
  intros Hb. unfold empties.
  destruct names as [|n0 names0]; [by apply elem_of_nil in Hb|].
  rewrite sub_names_cons_in by done.
  destruct (remove_first b (n0 :: names0)); [by rewrite sub_names_nil | done].
Qed.

Lemma empties_cons_out b names other :
  b ∉ names → empties names (b :: other) = empties names other.
Proof.
  intros Hb. unfold empties. destruct names; [done|]. by rewrite sub_names_cons_out.
Qed.

Lemma run_contains self ns name w :
  objs w !! self = Some ns →
  __contains__ self name w = (Ok (bool_decide (name ∈ _names_set ns)), w).
Proof. intros Hns. unfold __contains__. by erewrite run_bind by (by apply run_get_obj). Qed.

Lemma run_isub_step self ns name w :
  objs w !! self = Some ns → well_formed ns →
  isub_step self name w
  = if bool_decide (name ∈ _names ns) then remove self name w else (Ok tt, w).
Proof.
  intros Hns [Hset _]. unfold isub_step.
  erewrite run_bind by (by apply run_contains).
  rewrite Hset, (bool_decide_ext _ (name ∈ _names ns)) by apply elem_of_list_to_set.
  by destruct (bool_decide _).
Qed.

(** the loop of [__isub__] over a collection *)
Lemma run_isub_loop (I : NameSet → Prop) self other :
  kept_by_remove I →
  ∀ ns w,
    objs w !! self = Some ns → well_formed ns → I ns →
    ∃ w' ns',
      for_each other (isub_step self) w
      = (if empties (_names ns) other then Raise ZeroDivisionError else Ok tt, w') ∧
      objs w' !! self = Some ns' ∧
      _names ns' = sub_names (_names ns) other ∧
      (empties (_names ns) other = false → well_formed ns' ∧ I ns').
Proof.
  intros HI. induction other as [|b other IH]; intros ns w Hns Hwf Hi.
  - exists w, ns. simpl. unfold empties. simpl. by destruct (_names ns).
  - cbn [for_each]. unfold mbind at 1, M_bind at 1.
    rewrite (run_isub_step self ns b w Hns Hwf).
    destruct (bool_decide (b ∈ _names ns)) eqn:Hb.
    + apply bool_decide_eq_true in Hb.
      destruct (run_remove self ns b w Hns Hwf Hb) as (d & w1 & Hd & Hns1 & Hrun).
      rewrite Hrun, sub_names_cons_in, empties_cons_in by done.
      destruct (remove_first b (_names ns)) as [|n rest] eqn:E.
      * exists w1, (removed ns b d). rewrite sub_names_nil.
        split; [done|]. split; [done|]. split; [|done].
        unfold removed. simpl. by rewrite E.
      * destruct (IH (removed ns b d) w1) as (w' & ns' & Hloop & Hns' & Hnames' & Hrest).
        -- done.
        -- apply removed_well_formed. by rewrite E.
        -- apply HI; try done; by rewrite E.
        -- exists w', ns'. cbn [removed _names] in *.
           rewrite E in Hloop, Hnames', Hrest. done.
    + apply bool_decide_eq_false in Hb.
      rewrite sub_names_cons_out, empties_cons_out by done.
      destruct (IH ns w Hns Hwf Hi) as (w' & ns' & Hloop & Hrest).
      exists w', ns'. by split.
Qed.

Lemma settings_of_refl ns : settings_of ns ns.
Proof. by repeat split. Qed.

Lemma settings_of_kept ns0 : kept_by_remove (settings_of ns0).
Proof.
  intros ns name d (Hord & Hf & Hh & Hop & Havg) Hwf Hin Hrest Hd.
  unfold settings_of, removed. simpl. repeat split; try done.
  intros Hlen Hok0. specialize (Havg Hlen Hok0). unfold avg_ok in *. simpl.
  destruct (remove_first name (_names ns)) as [|n rest] eqn:E; [done|].
  rewrite <- E. apply mean_after_remove_ok; [done | done | by rewrite E |].
  rewrite Hf. apply Hlen.
Qed.

Lemma settings_of_iadd_result ns0 ns o :
  settings_of ns0 ns → avg_ok o → _name_len_func o = _name_len_func ns →
  (length (_names ns) + length (_names o) ≠ 0)%nat →
  settings_of ns0 (iadd_result ns o).
Proof.
  intros (Hord & Hf & Hh & Hop & Havg) Ho Hfo Hlen.
  unfold settings_of. simpl. repeat split; try done.
  intros Hc Hok0. apply iadd_result_avg_ok; auto.
Qed.

(** the iterator over a name-set that the body leaves alone visits its
    names, in order *)
Lemma run_iter_name_set o no (body : string → M unit) :
  (∀ x w r w', body x w = (r, w') → objs w !! o = Some no → objs w' !! o = Some no) →
  ∀ rest before w,
    _names no = before ++ rest → objs w !! o = Some no →
    iter_name_set (length rest) o (length before) body w = for_each rest body w.
Proof.
  intros Hbody. induction rest as [|x rest IH]; intros before w Hnames Ho; [done|].
  cbn [length iter_name_set for_each].
  erewrite run_bind by (by apply run_get_obj).
  rewrite Hnames, lookup_app_r, Nat.sub_diag by done. cbn [lookup list_lookup].
  unfold mbind, M_bind. destruct (body x w) as [[[]|e|] w1] eqn:E; [|done..].
  replace (S (length before)) with (length (before ++ [x])) by (rewrite length_app; simpl; lia).
  apply IH; [by rewrite <- app_assoc | by eapply Hbody].
Qed.

Lemma others_kept self (m : M unit) w r w' o no :
  wp m w (post {[self]} ∅ w any) → m w = (r, w') → o ≠ self →
  objs w !! o = Some no → objs w' !! o = Some no.
Proof.
  intros Hwp Hrun Hne Ho. destruct (wp_run _ _ _ _ _ Hrun Hwp) as [Hm _].
  destruct (mods_objs _ _ _ _ Hm _ _ Ho) as (no' & Ho' & _ & Heq).
  rewrite Ho', Heq; [done | set_solver].
Qed.

(** the two [if]s that open [__isub__], [__ior__] and [__iand__], for an
    operand that is no [str]: at most two warnings *)
Lemma run_check_operand self ns other names w :
  objs w !! self = Some ns → right_operand w other names →
  ∃ ws, check_operand self other w = (Ok tt, with_warnings ws w).
Proof.
  intros Hns Hother. destruct other as [s|o|l]; simpl in *; [done | |].
  - destruct Hother as (no & Ho & _). unfold warn_mismatch.
    run_step ltac:(by apply run_get_obj).
    run_step ltac:(by apply run_get_obj).
    unfold warn. clear Hns Ho.
    destruct w, (negb (_order ns =? _order no)), (negb (func_is _ _)); eexists; reflexivity.
  - exists (warnings w). by destruct w.
Qed.

Lemma run_operand_names other names w :
  right_operand w other names → operand_names other w = (Ok names, w).
Proof.
  destruct other as [s|o|l]; simpl; [done | |].
  - intros (no & Ho & <- & _). by erewrite run_bind by (by apply run_get_obj).
  - by intros ->.
Qed.

Lemma right_operand_warnings ws w other names :
  right_operand w other names → right_operand (with_warnings ws w) other names.
Proof. by destruct other. Qed.

Lemma run_for_operand_isub self other names w :
  operand_corpus w self other names →
  for_operand other (isub_step self) w = for_each names (isub_step self) w.
Proof.
  destruct other as [s|o|l]; simpl; [done | |].
  - intros [Hne (no & Ho & Hnames & _)]. unfold __len__.
    erewrite run_bind.
    2:{ by erewrite run_bind by (by apply run_get_obj). }
    rewrite Hnames.
    apply (run_iter_name_set o no _) with (before := []); [|done..].
    intros x w0 r w' Hrun Ho0.
    by eapply (others_kept self _ _ _ _ _ _ (isub_step_frame self x w0)).
  - by intros ->.
Qed.

Lemma operand_corpus_warnings ws w self other names :
  operand_corpus w self other names →
  operand_corpus (with_warnings ws w) self other names.
Proof. by destruct other. Qed.

Lemma operand_corpus_right w self other names :
  operand_corpus w self other names → right_operand w other names.
Proof. destruct other; simpl; tauto. Qed.

(** [self -= other], to its end *)
Lemma run_isub self ns other names w :
  objs w !! self = Some ns → well_formed ns → operand_corpus w self other names →
  ∃ w' ns',
    __isub__ self other w
    = (if empties (_names ns) names then Raise ZeroDivisionError else Ok self, w') ∧
    objs w' !! self = Some ns' ∧
    _names ns' = sub_names (_names ns) names ∧
    (empties (_names ns) names = false → well_formed ns' ∧ settings_of ns ns').
Proof.
  intros Hns Hwf Hother. unfold __isub__.
  destruct (run_check_operand self ns other names w Hns) as [ws Hcheck];
    [by eapply operand_corpus_right|].
  run_step ltac:(exact Hcheck).
  destruct (run_isub_loop (settings_of ns) self names (settings_of_kept ns) ns
              (with_warnings ws w)) as (w' & ns' & Hloop & Hns' & Hnames & Hrest);
    [done | done | apply settings_of_refl |].
  exists w', ns'. split; [|done].
  unfold mbind at 1, M_bind at 1.
  rewrite run_for_operand_isub with (names := names)
    by (by apply operand_corpus_warnings).
  rewrite Hloop. by destruct (empties (_names ns) names).
Qed.

(** [self += names] for a collection, to its end *)
Lemma run_iadd self ns names w :
  objs w !! self = Some ns → well_formed ns →
  ∃ w' ns',
    __iadd__ self (OColl names) w
    = (match _names ns ++ names with
       | [] => Raise ZeroDivisionError
       | _ :: _ => Ok self
       end, w') ∧
    objs w' !! self = Some ns' ∧
    (_names ns ++ names ≠ [] →
     _names ns' = _names ns ++ names ∧ well_formed ns' ∧ settings_of ns ns').
Proof.
  intros Hns Hwf.
  destruct (_names ns ++ names) as [|n rest] eqn:E.
  - apply app_eq_nil in E as [Hn ->].
    destruct (run_iadd_collection_empty self ns w Hns Hn) as [w' Hrun].
    destruct (wp_run _ _ _ _ _ Hrun (iadd_frame self (OColl []) w)) as [Hm _].
    destruct (mods_objs _ _ _ _ Hm _ _ Hns) as (ns' & Hns' & _).
    by exists w', ns'.
  - destruct (run_iadd_collection self ns names w Hns) as (w' & h & Hrun & Hns').
    { intros Hlen. assert (length (_names ns ++ names) = 0%nat) as Hl
        by (rewrite length_app; lia).
      by rewrite E in Hl. }
    eexists w', _. split; [done|]. split; [done|]. intros _.
    split; [by rewrite <- E|]. split.
    + apply iadd_result_well_formed; [done | apply new_name_set_well_formed | done].
    + apply settings_of_iadd_result;
        [apply settings_of_refl | apply new_name_set_avg_ok | done |].
      simpl. intros Hlen.
      assert (length (_names ns ++ names) = 0%nat) as Hl by (rewrite length_app; lia).
      by rewrite E in Hl.
Qed.

(** [self &= other], to its end: it always returns *)
Lemma run_iand self ns other names w :
  objs w !! self = Some ns → right_operand w other names →
  ∃ ws, __iand__ self other w
        = (Ok self, with_warnings ws
                      (with_objs (<[self := iand_result ns names]> (objs w)) w)).
Proof.
  intros Hns Hother. unfold __iand__.
  destruct (run_check_operand self ns other names w Hns Hother) as [ws Hcheck].
  exists ws.
  run_step ltac:(exact Hcheck).
  run_step ltac:(apply run_operand_names; by apply right_operand_warnings).
  run_step ltac:(by apply run_get_obj).
  run_step ltac:(by apply run_modify_obj).
  run_step ltac:(apply run_modify_obj; look).
  run_step ltac:(apply run_make_markov_dict; look).
  run_step ltac:(apply run_update_avg_name_len; look).
  unfold mret, M_ret, with_warnings, with_objs. simpl.
  by rewrite !insert_insert_eq.
Qed.

Lemma iand_result_well_formed ns names :
  well_formed (iand_result ns names) ∧ avg_ok (iand_result ns names).
Proof.
  split; [split; [done | apply table_of_make_markov_dict] | unfold avg_ok; reflexivity].
Qed.

(** [self |= other], to its end *)
Lemma run_ior self ns other names w :
  objs w !! self = Some ns → well_formed ns → right_operand w other names →
  ∃ w' ns',
    __ior__ self other w
    = (match _names ns ++ names with
       | [] => Raise ZeroDivisionError
       | _ :: _ => Ok self
       end, w') ∧
    objs w' !! self = Some ns' ∧
    (_names ns ++ names ≠ [] →
     _names ns' = remove_dups (_names ns ++ new_names (_names ns) names) ∧
     well_formed ns' ∧ settings_of ns ns').
Proof.
  intros Hns Hwf Hother. unfold __ior__.
  destruct (run_check_operand self ns other names w Hns Hother) as [ws Hcheck].
  run_step ltac:(exact Hcheck).
  run_step ltac:(apply run_operand_names; by apply right_operand_warnings).
  run_step ltac:(by apply run_get_obj).
  destruct Hwf as [Hset Htable]. rewrite Hset. fold (new_names (_names ns) names).
  assert (well_formed ns) as Hwf by done.
  destruct (run_iadd self ns (new_names (_names ns) names) (with_warnings ws w))
    as (w1 & ns1 & Hadd & Hns1 & Hrest); [done..|].
  assert (_names ns ++ names = [] ↔ _names ns ++ new_names (_names ns) names = []) as Hnil.
  { split; intros [Ha Hb]%app_eq_nil.
    - by rewrite Ha, Hb.
    - rewrite Ha in *. destruct names as [|x names]; [done|]. exfalso.
      unfold new_names in Hb. rewrite filter_cons_True in Hb; [done|]. simpl. set_solver. }
  destruct (_names ns ++ new_names (_names ns) names) as [|n0 rest0] eqn:E.
  - rewrite (proj2 Hnil eq_refl). exists w1, ns1.
    unfold mbind at 1, M_bind at 1. by rewrite Hadd.
  - destruct (_names ns ++ names) as [|n1 rest1] eqn:E1;
      [by destruct Hnil as [Hnil _]; specialize (Hnil eq_refl)|].
    destruct Hrest as (Hnames1 & Hwf1 & Hset1); [done|].
    destruct (run_remove_duplicates (settings_of ns) self ns1 w1 (settings_of_kept ns))
      as (w' & ns' & Hrd & Hns' & Hwf' & Hset' & Hnames'); [done..|].
    exists w', ns'. split.
    + run_step ltac:(exact Hadd). run_step ltac:(exact Hrd). reflexivity.
    + split; [done|]. intros _. by rewrite Hnames', Hnames1.
Qed.

(** * Generation *)

Lemma elem_of_following key x ps : x ∈ following key ps ↔ (key, x) ∈ ps.
Proof.
  unfold following. rewrite list_elem_of_fmap. split.
  - intros ([k y] & -> & [Hk Hin]%list_elem_of_filter). simpl in *. by subst.
  - intros Hin. exists (key, x). split; [done|]. by apply list_elem_of_filter.
Qed.

Lemma table_of_elem d order names key x :
  table_of d order names →
  x ∈ letters_at d key ↔ (key, x) ∈ corpus_transitions order names.
Proof.
  intros [_ Hc]. by rewrite <- elem_of_following, !elem_of_count, Hc.
Qed.

Lemma transitions_head order prev name : ∃ x, (prev, x) ∈ transitions order prev name.
Proof. destruct name; eexists; simpl; apply elem_of_cons; by left. Qed.

Lemma transitions_next order prev name k c :
  (k, Some c) ∈ transitions order prev name →
  ∃ x, (push_letter order k c, x) ∈ transitions order prev name.
Proof.
  revert prev. induction name as [|l rest IH]; intros prev; simpl.
  - intros [=]%list_elem_of_singleton.
  - intros [[= -> ->]|Hin]%elem_of_cons.
    + destruct (transitions_head order (push_letter order prev l) rest) as [x Hx].
      exists x. apply elem_of_cons. by right.
    + destruct (IH _ Hin) as [x Hx]. exists x. apply elem_of_cons. by right.
Qed.

Lemma corpus_transitions_next order names k c :
  (k, Some c) ∈ corpus_transitions order names →
  ∃ x, (push_letter order k c, x) ∈ corpus_transitions order names.
Proof.
  unfold corpus_transitions. intros (n & Hin & Hn)%list_elem_of_bind.
  destruct (transitions_next _ _ _ _ _ Hin) as [x Hx].
  exists x. apply list_elem_of_bind. eauto.
Qed.

(** [_get_letter]: a letter of the list under the key, by the next draw;
    the end marker when the key is missing or its list is empty *)
Lemma run_get_letter self ns key w :
  objs w !! self = Some ns →
  _get_letter self key w
  = match letters_at (_markov_dict ns) key with
    | [] => (Ok _END, w)
    | x :: l => (Ok (nth (rng_draws w (rng_pos w) mod length (x :: l)) (x :: l) x),
                 with_rng_pos (S (rng_pos w)) w)
    end.
Proof.
  intros Hns.
  unfold _get_letter, try_except, mbind, M_bind, get_obj, dict_get, choice, letters_at.
  rewrite Hns. simpl. by destruct (_markov_dict ns !! key) as [[|x l]|].
Qed.

Lemma get_letter_elem self ns key w :
  objs w !! self = Some ns → letters_at (_markov_dict ns) key ≠ [] →
  ∃ x, _get_letter self key w = (Ok x, with_rng_pos (S (rng_pos w)) w)
       ∧ x ∈ letters_at (_markov_dict ns) key.
Proof.
  intros Hns Hl. rewrite (run_get_letter self ns) by done.
  destruct (letters_at (_markov_dict ns) key) as [|x l]; [done|].
  eexists. split; [done|].
  apply list_elem_of_In, nth_In, Nat.mod_upper_bound. done.
Qed.

Lemma append_assoc (a b c : string) : (a +:+ b) +:+ c = a +:+ (b +:+ c).
Proof. induction a as [|x a IH]; [done|]. by rewrite !append_cons, IH. Qed.

(** every transition of a generated name is a transition of the corpus *)
Lemma make_name_raw_loop_chain self ns order names fuel :
  _order ns = order → table_of (_markov_dict ns) order names →
  ∀ name key w result w',
    objs w !! self = Some ns →
    (∃ x, (key, x) ∈ corpus_transitions order names) →
    _make_name_raw_loop fuel self name key w = (Ok result, w') →
    ∃ suffix, result = name +:+ suffix ∧
              ∀ p, p ∈ transitions order key suffix → p ∈ corpus_transitions order names.
Proof.
  intros Hord Htable.
  induction fuel as [|fuel IH]; intros name key w result w' Hns [x0 Hx0]; [done|].
  cbn [_make_name_raw_loop].
  destruct (get_letter_elem self ns key w Hns) as (x & Hget & Hx).
  { intros Hnil. apply (table_of_elem _ _ _ key x0 Htable) in Hx0.
    rewrite Hnil in Hx0. by apply elem_of_nil in Hx0. }
  apply (table_of_elem _ _ _ key x Htable) in Hx.
  erewrite run_bind by exact Hget.
  destruct x as [c|].
  - erewrite run_bind by (by apply run_get_obj). rewrite Hord. intros Hloop.
    apply IH in Hloop as (suffix & -> & Hsuffix);
      [| done | by eapply corpus_transitions_next].
    exists (String c suffix). split.
    + by rewrite append_assoc.
    + intros p. simpl. intros [->|Hp]%elem_of_cons; [done | by apply Hsuffix].
  - intros [= <- <-]. exists EmptyString. split.
    + clear. induction name as [|c name IH]; [done|]. by rewrite append_cons, <- IH.
    + intros p. simpl. by intros ->%list_elem_of_singleton.
Qed.

Lemma length_append (a b : string) :
  String.length (a +:+ b) = String.length a + String.length b.
Proof. induction a as [|x a IH]; [done|]. rewrite append_cons. simpl. by rewrite IH. Qed.

Lemma append_empty_r (a : string) : a +:+ EmptyString = a.
Proof. induction a as [|x a IH]; [done|]. by rewrite append_cons, IH. Qed.

Lemma push_letter_uncut order key c :
  String.length key < order → push_letter order key c = key +:+ String c EmptyString.
Proof.
  intros Hlen. unfold push_letter. rewrite bool_decide_false; [done|].
  rewrite length_append. simpl. lia.
Qed.

(** while no key is cut, the keys of a name are its prefixes *)
Lemma transitions_uncut order prev name k x :
  String.length prev + String.length name ≤ order →
  (k, x) ∈ transitions order prev name →
  ∃ pre post, name = pre +:+ post ∧ k = prev +:+ pre ∧ x = head_letter post.
Proof.
  revert prev. induction name as [|c name IH]; intros prev Hlen; simpl in *.
  - intros [= -> ->]%list_elem_of_singleton.
    exists EmptyString, EmptyString. by rewrite !append_empty_r.
  - intros [[= -> ->]|Hin]%elem_of_cons.
    + exists EmptyString, (String c name). by rewrite !append_empty_r.
    + rewrite push_letter_uncut in Hin by lia.
      apply IH in Hin as (pre & post & -> & -> & ->).
      2:{ rewrite length_append. simpl. lia. }
      exists (String c pre), post. by rewrite append_assoc.
Qed.

Lemma corpus_transitions_uncut order names k x :
  (∀ n, n ∈ names → String.length n ≤ order) →
  (k, x) ∈ corpus_transitions order names →
  ∃ n post, n ∈ names ∧ n = k +:+ post ∧ x = head_letter post.
Proof.
  intros Hlen (n & Hin & Hn)%list_elem_of_bind.
  apply transitions_uncut in Hin as (pre & post & -> & -> & ->);
    [|simpl; by apply Hlen].
  by exists (pre +:+ post), post.
Qed.

(** with an order that no name exceeds, the chain follows one name of the
    corpus to its end: within [order + 1] letters the loop returns a name
    of the corpus *)
Lemma make_name_raw_loop_uncut self ns order names :
  _order ns = order → table_of (_markov_dict ns) order names →
  (∀ n, n ∈ names → String.length n ≤ order) →
  ∀ fuel name w,
    objs w !! self = Some ns →
    order < fuel + String.length name →
    (∃ x, (name, x) ∈ corpus_transitions order names) →
    ∃ result w',
      _make_name_raw_loop fuel self name name w = (Ok result, w') ∧
      result ∈ names ∧ same_but_rng w w'.
Proof.
  intros Hord Htable Hlen.
  induction fuel as [|fuel IH]; intros name w Hns Hfuel [x0 Hx0].
  - apply corpus_transitions_uncut in Hx0 as (n & post & Hn & -> & _); [|done].
    apply Hlen in Hn. rewrite length_append in Hn. simpl in Hfuel. lia.
  - cbn [_make_name_raw_loop].
    destruct (get_letter_elem self ns name w Hns) as (x & Hget & Hx).
    { intros Hnil. apply (table_of_elem _ _ _ name x0 Htable) in Hx0.
      rewrite Hnil in Hx0. by apply elem_of_nil in Hx0. }
    apply (table_of_elem _ _ _ name x Htable) in Hx.
    erewrite run_bind by exact Hget.
    destruct (corpus_transitions_uncut _ _ _ _ Hlen Hx) as (n & post & Hn & Heq & Hhead).
    destruct x as [c|].
    + erewrite run_bind by (by apply run_get_obj). rewrite Hord.
      assert (String.length name < order) as Hlt.
      { apply Hlen in Hn. rewrite Heq, length_append in Hn.
        destruct post; [done|]. simpl in Hn. lia. }
      rewrite push_letter_uncut by done.
      destruct (IH (name +:+ String c EmptyString) (with_rng_pos (S (rng_pos w)) w))
        as (result & w' & Hrun & Hres & Hrng).
      * done.
      * rewrite length_append. simpl. lia.
      * rewrite <- (push_letter_uncut order) by done.
        by eapply corpus_transitions_next.
      * exists result, w'. split; [done|]. split; [done|].
        eapply same_but_rng_trans; [|exact Hrng]. by destruct w.
    + exists name, (with_rng_pos (S (rng_pos w)) w). split; [done|]. split.
      * destruct post; [|done]. by rewrite append_empty_r in Heq; subst.
      * by destruct w.
Qed.

Lemma corpus_transitions_start order names :
  names ≠ [] → ∃ x, (EmptyString, x) ∈ corpus_transitions order names.
Proof.
  destruct names as [|n names]; [done|]. intros _.
  destruct (transitions_head order EmptyString n) as [x Hx].
  exists x. apply list_elem_of_bind. exists n. split; [done|]. apply elem_of_cons. by left.
Qed.

Lemma run_make_name_raw_uncut self ns fuel w :
  objs w !! self = Some ns → well_formed ns → _names ns ≠ [] →
  (∀ n, n ∈ _names ns → String.length n ≤ _order ns) →
  _order ns < fuel →
  ∃ result w',
    _make_name_raw fuel self w = (Ok result, w') ∧
    result ∈ _names ns ∧ same_but_rng w w'.
Proof.
  intros Hns [_ Htable] Hne Hlen Hfuel.
  apply (make_name_raw_loop_uncut self ns (_order ns) (_names ns)); try done.
  - simpl. lia.
  - by apply corpus_transitions_start.
Qed.

Lemma name_valid_real_name args names_set history banned name :
  kw.exclude_real_names args = true → name ∈ names_set →
  name_valid args names_set history banned name = false.
Proof.
  intros Hex Hin. unfold name_valid. rewrite Hex, bool_decide_true by done. simpl.
  by rewrite !andb_false_r.
Qed.

Section uncut.
Context (self : loc) (ns : NameSet) (hist : gset string) (fuel : nat) (args : kw.t).
Context (Hwf : well_formed ns) (Hne : _names ns ≠ []).
Context (Hlen : ∀ n, n ∈ _names ns → String.length n ≤ _order ns).
Context (Hfuel : _order ns < fuel).
Context (Hex : kw.exclude_real_names args = true).

Lemma run_attempt_loop_uncut m w :
  objs w !! self = Some ns → hists w !! _history ns = Some hist →
  ∃ w', attempt_loop fuel self args m w = (Ok None, w') ∧ same_but_rng w w'.
Proof.
  revert w. induction m as [|m IH]; intros w Hns Hh.
  - exists w. split; [done | apply same_but_rng_refl].
  - cbn [attempt_loop].
    destruct (run_make_name_raw_uncut self ns fuel w) as (name & w1 & Hrun & Hin & Hrng);
      [done..|].
    assert (objs w1 !! self = Some ns) as Hns1 by (by rewrite Hrng).
    assert (hists w1 !! _history ns = Some hist) as Hh1 by (by rewrite Hrng).
    destruct (IH w1 Hns1 Hh1) as (w' & Hloop & Hrng').
    exists w'. split; [|by eapply same_but_rng_trans].
    erewrite run_bind by exact Hrun.
    erewrite run_bind by (by apply run_get_obj).
    erewrite run_bind by (by apply run_get_hist).
    erewrite run_bind by reflexivity.
    rewrite name_valid_real_name; [done | done |].
    destruct Hwf as [-> _]. by apply elem_of_list_to_set.
Qed.

Lemma run_candidates_loop_uncut n acc w :
  objs w !! self = Some ns → hists w !! _history ns = Some hist →
  ∃ w', candidates_loop fuel self args n acc w = (Ok acc, w') ∧ same_but_rng w w'.
Proof.
  revert w. induction n as [|n IH]; intros w Hns Hh.
  - exists w. split; [done | apply same_but_rng_refl].
  - cbn [candidates_loop].
    destruct (run_attempt_loop_uncut (kw.max_attempts args) w Hns Hh) as (w1 & Hrun & Hrng).
    assert (objs w1 !! self = Some ns) as Hns1 by (by rewrite Hrng).
    assert (hists w1 !! _history ns = Some hist) as Hh1 by (by rewrite Hrng).
    destruct (IH w1 Hns1 Hh1) as (w' & Hloop & Hrng').
    exists w'. split; [|by eapply same_but_rng_trans].
    by erewrite run_bind by exact Hrun.
Qed.

End uncut.

(** [_make_name_raw] raises nothing: it returns a name or runs on *)
Lemma make_name_raw_loop_no_raise self ns fuel :
  ∀ name key w e,
    objs w !! self = Some ns →
    (_make_name_raw_loop fuel self name key w).1 ≠ Raise e.
Proof.
  induction fuel as [|fuel IH]; intros name key w e Hns; [done|].
  cbn [_make_name_raw_loop]. unfold mbind at 1, M_bind at 1.
  rewrite (run_get_letter self ns) by done.
  destruct (letters_at (_markov_dict ns) key) as [|x l]; [done|].
  destruct (nth _ _ _) as [c|]; [|done].
  erewrite run_bind by (by apply run_get_obj). by apply IH.
Qed.

(** * Cleaning names *)

Lemma lstrip_drop chars s :
  (∀ c, c ∈ s → (c ∈ chars ↔ isalnum c = false)) →
  lstrip chars s = drop_non_alnum s.
Proof.
  induction s as [|c s IH]; intros Hchars; simpl; [done|].
  destruct (isalnum c) eqn:Ec.
  - rewrite bool_decide_false; [done|]. rewrite (Hchars c) by (apply elem_of_cons; by left).
    by rewrite Ec.
  - rewrite bool_decide_true by (apply Hchars; [apply elem_of_cons; by left | done]).
    apply IH. intros c' Hc'. apply Hchars. apply elem_of_cons. by right.
Qed.

Lemma drop_non_alnum_suffix s : ∃ pre, s = pre ++ drop_non_alnum s ∧ Forall (λ c, isalnum c = false) pre.
Proof.
  induction s as [|c s (pre & Hs & Hpre)]; simpl.
  - by exists [].
  - destruct (isalnum c) eqn:Ec.
    + by exists [].
    + exists (c :: pre). split; [by rewrite <- app_comm_cons, <- Hs | by constructor].
Qed.

Lemma drop_non_alnum_head s c s' :
  drop_non_alnum s = c :: s' → isalnum c = true.
Proof.
  induction s as [|a s IH]; simpl; [done|].
  destruct (isalnum a) eqn:Ea; [by intros [= -> _] | apply IH].
Qed.

Lemma drop_non_alnum_alnum c s : isalnum c = true → drop_non_alnum (c :: s) = c :: s.
Proof. intros Hc. simpl. by rewrite Hc. Qed.

Lemma strip_non_alnum_core s :
  list_ascii_of_string (strip_non_alnum s) = core (list_ascii_of_string s).
Proof.
  unfold strip_non_alnum, strip, core.
  rewrite !list_ascii_of_string_of_list_ascii.
  set (l := list_ascii_of_string s).
  assert (∀ c, c ∈ l → c ∈ filter (λ char, isalnum char = false) l ↔ isalnum c = false)
    as Hchars.
  { intros c Hc. rewrite list_elem_of_filter. tauto. }
  rewrite (lstrip_drop _ l Hchars).
  rewrite lstrip_drop; [done|].
  intros c Hc. apply Hchars.
  rewrite elem_of_reverse in Hc.
  destruct (drop_non_alnum_suffix l) as (pre & Hl & _).
  assert (c ∈ pre ++ drop_non_alnum l) as Hin by (apply elem_of_app; by right).
  by rewrite <- Hl in Hin.
Qed.

(** what [strip_non_alnum] returns: the string without the run of
    non-alphanumeric characters at its start and the one at its end *)
Lemma core_spec s :
  ∃ pre post,
    s = pre ++ core s ++ post ∧
    Forall (λ c, isalnum c = false) pre ∧ Forall (λ c, isalnum c = false) post ∧
    match core s with
    | [] => True
    | c :: _ => isalnum c = true ∧ ∃ c', last (core s) = Some c' ∧ isalnum c' = true
    end.
Proof.
  unfold core.
  destruct (drop_non_alnum_suffix s) as (pre & Hs & Hpre).
  remember (drop_non_alnum s) as d eqn:Ed.
  destruct (drop_non_alnum_suffix (reverse d)) as (post & Hr & Hpost).
  remember (drop_non_alnum (reverse d)) as e eqn:Ee.
  assert (d = reverse e ++ reverse post) as Hd.
  { rewrite <- reverse_app, <- Hr. by rewrite reverse_involutive. }
  exists pre, (reverse post). split; [by rewrite <- Hd|]. split; [done|].
  split; [by apply Forall_reverse|].
  destruct (reverse e) as [|c t] eqn:E; [done|]. split.
  - rewrite Hd in Ed. simpl in Ed. symmetry in Ed. by eapply drop_non_alnum_head.
  - destruct e as [|b v]; [by rewrite reverse_nil in E|].
    exists b. split.
    + rewrite <- E, reverse_cons. by rewrite last_snoc.
    + symmetry in Ee. by eapply drop_non_alnum_head.
Qed.

Lemma drop_non_alnum_nil s :
  drop_non_alnum s = [] ↔ existsb isalnum s = false.
Proof.
  induction s as [|c s IH]; simpl; [done|].
  destruct (isalnum c); simpl; [split; discriminate | exact IH].
Qed.

Lemma core_nil s : core s = [] ↔ existsb isalnum s = false.
Proof.
  unfold core. rewrite <- drop_non_alnum_nil. split.
  - intros H. apply (f_equal reverse) in H. rewrite reverse_involutive, reverse_nil in H.
    destruct (drop_non_alnum s) as [|c t] eqn:E; [done|].
    destruct (drop_non_alnum_suffix (reverse (c :: t))) as (pre & Hr & Hpre).
    rewrite H, app_nil_r in Hr. subst pre.
    apply drop_non_alnum_head in E.
    rewrite Forall_forall in Hpre. specialize (Hpre c).
    rewrite Hpre in E; [done|]. rewrite elem_of_reverse. apply elem_of_cons. by left.
  - by intros ->.
Qed.

Lemma core_idem s : core (core s) = core s.
Proof.
  destruct (core_spec s) as (pre & post & _ & _ & _ & H).
  destruct (core s) as [|c t] eqn:E; [done|].
  destruct H as (Hc & c' & Hlast & Hc').
  unfold core at 1. rewrite (drop_non_alnum_alnum c t Hc).
  destruct (reverse (c :: t)) as [|b v] eqn:Er.
  { apply (f_equal reverse) in Er. by rewrite reverse_involutive in Er. }
  assert (b = c') as ->.
  { apply (f_equal reverse) in Er. rewrite reverse_involutive, reverse_cons in Er.
    rewrite Er, last_snoc in Hlast. by injection Hlast. }
  rewrite (drop_non_alnum_alnum c' v Hc'), <- Er. apply reverse_involutive.
Qed.

Lemma string_list_inj s t : list_ascii_of_string s = list_ascii_of_string t → s = t.
Proof.
  intros H. apply (f_equal string_of_list_ascii) in H.
  by rewrite !string_of_list_ascii_of_string in H.
Qed.

Lemma strip_non_alnum_idem s : strip_non_alnum (strip_non_alnum s) = strip_non_alnum s.
Proof. apply string_list_inj. rewrite !strip_non_alnum_core. apply core_idem. Qed.

Lemma strip_non_alnum_empty s : strip_non_alnum s = EmptyString ↔ has_alnum s = false.
Proof.
  unfold has_alnum. rewrite <- core_nil, <- strip_non_alnum_core. split.
  - by intros ->.
  - intros H. by apply string_list_inj.
Qed.

Lemma has_alnum_strip s : has_alnum (strip_non_alnum s) = has_alnum s.
Proof.
  destruct (has_alnum s) eqn:E.
  - apply not_false_iff_true. rewrite <- strip_non_alnum_empty, strip_non_alnum_idem.
    rewrite strip_non_alnum_empty. by rewrite E.
  - apply strip_non_alnum_empty. rewrite strip_non_alnum_idem. by apply strip_non_alnum_empty.
Qed.

Lemma clean_blanks_filter names blank_names :
  clean_blanks names blank_names
  = filter (λ n, has_alnum n = true ∧ n ∉ blank_names) names.
Proof.
  unfold clean_blanks. apply list_filter_iff. intros n.
  rewrite strip_non_alnum_empty. destruct (has_alnum n); intuition congruence.
Qed.

Lemma clean_filter names :
  clean names = strip_non_alnum <$> filter (λ n, has_alnum n = true) names.
Proof.
  unfold clean, clean_extra_symbols. rewrite clean_blanks_filter.
  induction names as [|n names IH]; [done|].
  rewrite fmap_cons, !filter_cons, IH.
  destruct (decide (has_alnum n = true)) as [Hn|Hn].
  - rewrite decide_True; [done|]. split; [by rewrite has_alnum_strip | apply not_elem_of_nil].
  - rewrite decide_False; [done|]. intros [H _]. by rewrite has_alnum_strip in H.
Qed.

(** * The steps of the chain *)

Lemma list_of_substring n m s :
  list_ascii_of_string (String.substring n m s) = take m (drop n (list_ascii_of_string s)).
Proof.
  revert n m. induction s as [|c s IH]; intros n m; simpl.
  - destruct n, m; by rewrite ?take_nil.
  - destruct n as [|n]; simpl.
    + destruct m as [|m]; simpl; [done|]. by rewrite (IH 0), drop_0.
    + apply IH.
Qed.

Lemma list_of_get i s : String.get i s = list_ascii_of_string s !! i.
Proof.
  revert i. induction s as [|c s IH]; intros i; simpl; [by destruct i|].
  destruct i; simpl; [done | apply IH].
Qed.

Lemma list_of_append a b :
  list_ascii_of_string (a +:+ b) = list_ascii_of_string a ++ list_ascii_of_string b.
Proof. induction a as [|c a IH]; simpl; [done | by rewrite IH]. Qed.

Lemma length_list_of s : length (list_ascii_of_string s) = String.length s.
Proof. induction s as [|c s IH]; simpl; [done | by rewrite IH]. Qed.

Lemma list_of_tail_str s : list_ascii_of_string (tail_str s) = tail (list_ascii_of_string s).
Proof. by destruct s. Qed.

Lemma tail_take {A} n (l : list A) : tail (take (S n) l) = take n (tail l).
Proof. destruct l; simpl; [by rewrite take_nil | done]. Qed.

Lemma push_letter_key_at order name i c :
  String.get i name = Some c →
  push_letter order (key_at order name i) c = key_at order name (S i).
Proof.
  intros Hc. rewrite list_of_get in Hc.
  pose proof (lookup_lt_Some _ _ _ Hc) as Hi.
  apply string_list_inj. unfold push_letter, key_at.
  set (L := list_ascii_of_string name) in *.
  assert (String.length (String.substring (i - order) (Nat.min i order) name
                         +:+ String c EmptyString) = S (Nat.min i order)) as Hlen.
  { rewrite <- length_list_of, list_of_append, length_app, list_of_substring.
    fold L. rewrite length_take, length_drop. simpl. lia. }
  rewrite Hlen. destruct (decide (order ≤ i)) as [Hle|Hlt].
  - rewrite bool_decide_true by lia.
    rewrite list_of_tail_str, list_of_append, !list_of_substring. fold L.
    replace (Nat.min i order) with order by lia.
    replace (Nat.min (S i) order) with order by lia.
    replace (S i - order) with (S (i - order)) by lia.
    cbn [list_ascii_of_string].
    assert (drop (i - order) L !! order = Some c) as HD.
    { rewrite lookup_drop. by replace (i - order + order) with i by lia. }
    rewrite <- (take_S_r _ _ _ HD), tail_take.
    f_equal. replace (S (i - order)) with (i - order + 1) by lia.
    rewrite <- (drop_drop L 1 (i - order)).
    by destruct (drop (i - order) L).
  - rewrite bool_decide_false by lia.
    rewrite list_of_append, !list_of_substring. fold L.
    replace (Nat.min i order) with i by lia.
    replace (Nat.min (S i) order) with (S i) by lia.
    replace (i - order) with 0 by lia. replace (S i - order) with 0 by lia.
    cbn [list_ascii_of_string]. rewrite !drop_0. symmetry. by apply take_S_r.
Qed.

Lemma transitions_steps order rest :
  ∀ before,
    transitions order (key_at order (before +:+ rest) (String.length before)) rest
    = (λ i, (key_at order (before +:+ rest) i, String.get i (before +:+ rest)))
        <$> seq (String.length before) (S (String.length rest)).
Proof.
  induction rest as [|c rest IH]; intros before.
  - simpl. do 2 f_equal. rewrite append_empty_r, list_of_get.
    symmetry. apply lookup_ge_None. by rewrite length_list_of.
  - assert (String.get (String.length before) (before +:+ String c rest) = Some c) as Hc.
    { rewrite list_of_get, list_of_append, lookup_app_r by (by rewrite length_list_of).
      by rewrite length_list_of, Nat.sub_diag. }
    cbn [transitions]. rewrite (push_letter_key_at _ _ _ _ Hc).
    cbn [String.length seq fmap list_fmap]. rewrite Hc. f_equal.
    specialize (IH (before +:+ String c EmptyString)).
    rewrite append_assoc, length_append in IH. simpl in IH.
    replace (String.length before + 1) with (S (String.length before)) in IH by lia.
    exact IH.
Qed.

Lemma transitions_chain_steps order name :
  transitions order "" name = chain_steps order name.
Proof.
  pose proof (transitions_steps order name EmptyString) as H.
  change (EmptyString +:+ name)%string with name in H.
  change (String.length EmptyString) with 0 in H.
  unfold chain_steps. rewrite <- H. f_equal. unfold key_at. simpl. by destruct name.
Qed.

Lemma corpus_transitions_chain_steps order names :
  corpus_transitions order names = names ≫= chain_steps order.
Proof.
  unfold corpus_transitions. induction names as [|n names IH]; [done|].
  by rewrite !bind_cons, IH, transitions_chain_steps.
Qed.

Lemma elem_of_chain_steps order name k x :
  (k, x) ∈ chain_steps order name
  ↔ ∃ i, i ≤ String.length name ∧ k = key_at order name i ∧ x = String.get i name.
Proof.
  unfold chain_steps. rewrite list_elem_of_fmap. split.
  - intros (i & [= -> ->] & Hi). apply elem_of_seq in Hi. exists i. split; [lia | done].
  - intros (i & Hi & -> & ->). exists i. split; [done|]. apply elem_of_seq. lia.
Qed.

(** * The operators again *)

(** ** When the subtraction empties the corpus *)

Lemma nil_count {A} `{EqDecision A} (l : list A) : l = [] ↔ ∀ x, count x l = 0.
Proof.
  split; [by intros ->|]. intros H. destruct l as [|y l]; [done|].
  specialize (H y). simpl in H. rewrite decide_True in H by done. lia.
Qed.

Lemma sub_names_nil_iff names other : sub_names names other = [] ↔ covered names other.
Proof.
  rewrite nil_count. unfold covered. split; intros H x; specialize (H x).
  - rewrite count_sub_names in H. lia.
  - rewrite count_sub_names. lia.
Qed.

Lemma empties_iff names other :
  empties names other = true ↔ names ≠ [] ∧ covered names other.
Proof.
  rewrite <- sub_names_nil_iff. unfold empties.
  destruct names as [|n names]; [intuition congruence|].
  destruct (sub_names (n :: names) other); intuition congruence.
Qed.

(** ** [self -= self] *)

Lemma remove_first_middle {A} `{EqDecision A} (x : A) l1 l2 :
  x ∉ l1 → remove_first x (l1 ++ x :: l2) = l1 ++ l2.
Proof.
  induction l1 as [|y l1 IH]; intros Hx; simpl.
  - by rewrite decide_True.
  - rewrite decide_False; [by rewrite IH by set_solver | set_solver].
Qed.

Lemma run_iter_name_set_end steps self ns index body w :
  objs w !! self = Some ns → length (_names ns) ≤ index →
  iter_name_set steps self index body w = (Ok tt, w).
Proof.
  intros Hns Hlen. destruct steps as [|steps]; [done|].
  cbn [iter_name_set]. run_step ltac:(by apply run_get_obj).
  by rewrite lookup_ge_None_2.
Qed.

(** the loop of [self -= self]: the iterator reads the list that the body
    shortens, and so passes over every second name *)
Lemma run_isub_self_loop (I : NameSet → Prop) self :
  kept_by_remove I →
  ∀ steps rest kept ns w,
    objs w !! self = Some ns → well_formed ns → I ns →
    _names ns = kept ++ rest → NoDup (kept ++ rest) →
    length rest ≤ steps → (kept = [] → length rest ≠ 1) →
    ∃ w' ns',
      iter_name_set steps self (length kept) (isub_step self) w = (Ok tt, w') ∧
      objs w' !! self = Some ns' ∧ well_formed ns' ∧ I ns' ∧
      _names ns' = kept ++ odd_items rest.
Proof.
  intros HI. induction steps as [|steps IH]; intros rest kept ns w Hns Hwf Hi Hnames Hnd Hlen H1.
  - destruct rest; [|simpl in Hlen; lia]. exists w, ns. by rewrite Hnames.
  - destruct rest as [|x rest].
    { exists w, ns. rewrite Hnames. split; [|done].
      apply (run_iter_name_set_end _ _ ns); [done|]. rewrite Hnames, app_nil_r. lia. }
    cbn [iter_name_set]. run_step ltac:(by apply run_get_obj).
    rewrite Hnames, lookup_app_r, Nat.sub_diag by lia. cbn [lookup list_lookup].
    assert (x ∉ kept) as Hx.
    { apply NoDup_app in Hnd as (_ & Hnd & _). intros Hk. apply (Hnd x Hk).
      apply elem_of_cons. by left. }
    assert (x ∈ _names ns) as Hin.
    { rewrite Hnames. apply elem_of_app. right. apply elem_of_cons. by left. }
    assert (remove_first x (_names ns) = kept ++ rest) as Hrest.
    { rewrite Hnames. by apply remove_first_middle. }
    assert (kept ++ rest ≠ []) as Hne.
    { intros [-> ->]%app_eq_nil. by apply H1. }
    destruct (run_remove self ns x w Hns Hwf Hin) as (d & w1 & Hd & Hns1 & Hrun).
    assert (remove self x w = (Ok tt, w1)) as Hrun'.
    { rewrite Hrun, Hrest. by destruct (kept ++ rest). }
    assert (NoDup (kept ++ rest)) as Hnd'.
    { rewrite <- Hrest. apply NoDup_remove_first. by rewrite Hnames. }
    assert (well_formed (removed ns x d) ∧ I (removed ns x d)) as [Hwf1 Hi1].
    { split; [by apply removed_well_formed | apply HI; try done; by rewrite Hrest]. }
    assert (_names (removed ns x d) = kept ++ rest) as Hnames1 by (by rewrite <- Hrest).
    unfold mbind at 1, M_bind at 1.
    rewrite (run_isub_step self ns x w Hns Hwf), bool_decide_true, Hrun' by done.
    destruct rest as [|y rest].
    + exists w1, (removed ns x d). rewrite Hnames1. split; [|done].
      apply (run_iter_name_set_end _ _ (removed ns x d)); [done|].
      rewrite Hnames1, app_nil_r. lia.
    + destruct (IH rest (kept ++ [y]) (removed ns x d) w1)
        as (w' & ns' & Hloop & Hns' & Hwf' & Hi' & Hnames').
      * done.
      * done.
      * done.
      * by rewrite <- app_assoc.
      * by rewrite <- app_assoc.
      * simpl in Hlen. lia.
      * by intros [? ?]%app_eq_nil.
      * exists w', ns'. rewrite length_app in Hloop. simpl in Hloop.
        replace (length kept + 1) with (S (length kept)) in Hloop by lia.
        split; [done|]. rewrite Hnames', <- app_assoc. done.
Qed.

Lemma run_check_operand_self self ns w :
  objs w !! self = Some ns → check_operand self (ONameSet self) w = (Ok tt, w).
Proof.
  intros Hns. unfold check_operand, warn_mismatch.
  run_step ltac:(by apply run_get_obj).
  run_step ltac:(by apply run_get_obj).
  unfold func_is. by rewrite !Nat.eqb_refl.
Qed.

Lemma run_for_operand_name_set o no body w :
  objs w !! o = Some no →
  for_operand (ONameSet o) body w = iter_name_set (length (_names no)) o 0 body w.
Proof.
  intros Ho. unfold for_operand, __len__.
  by rewrite (run_bind _ _ _ _ _ (run_bind _ _ _ _ _ (run_get_obj _ _ _ Ho))).
Qed.

(** [self -= self] on a name-set without duplicates: with one name it
    raises; otherwise it returns, and leaves every second name *)
Lemma run_isub_self self ns w :
  objs w !! self = Some ns → well_formed ns → NoDup (_names ns) →
  length (_names ns) ≠ 1 →
  ∃ w' ns',
    __isub__ self (ONameSet self) w = (Ok self, w') ∧
    objs w' !! self = Some ns' ∧ well_formed ns' ∧ settings_of ns ns' ∧
    _names ns' = odd_items (_names ns).
Proof.
  intros Hns Hwf Hnd H1. unfold __isub__.
  run_step ltac:(by apply (run_check_operand_self self ns)).
  unfold mbind at 1, M_bind at 1. rewrite (run_for_operand_name_set self ns) by done.
  destruct (run_isub_self_loop (settings_of ns) self (settings_of_kept ns)
              (length (_names ns)) (_names ns) [] ns w)
    as (w' & ns' & Hloop & Hns' & Hwf' & Hi' & Hnames');
    [done | done | apply settings_of_refl | done | done | done | done |].
  exists w', ns'. split; [|done]. simpl in Hloop. by rewrite Hloop.
Qed.

Lemma run_isub_self_one self ns name w :
  objs w !! self = Some ns → well_formed ns → _names ns = [name] →
  ∃ w', __isub__ self (ONameSet self) w = (Raise ZeroDivisionError, w').
Proof.
  intros Hns Hwf Hnames. unfold __isub__.
  run_step ltac:(by apply (run_check_operand_self self ns)).
  unfold mbind at 1, M_bind at 1. rewrite (run_for_operand_name_set self ns) by done.
  assert (name ∈ _names ns) as Hin by (rewrite Hnames; apply elem_of_cons; by left).
  destruct (run_remove self ns name w Hns Hwf Hin) as (d & w1 & Hd & Hns1 & Hrun).
  exists w1. rewrite Hnames in *. cbn [length iter_name_set].
  run_step ltac:(by apply run_get_obj).
  rewrite Hnames. cbn [lookup list_lookup].
  simpl in Hrun. rewrite decide_True in Hrun by done.
  unfold mbind at 1, M_bind at 1.
  rewrite (run_isub_step self ns name w Hns Hwf), Hnames, bool_decide_true, Hrun by done.
  done.
Qed.

(** ** The generator and the corpus *)

(** a generated name is made of steps of the corpus *)
Lemma make_name_raw_steps self ns fuel w result w' :
  objs w !! self = Some ns → well_formed ns → _names ns ≠ [] →
  _make_name_raw fuel self w = (Ok result, w') →
  ∀ p, p ∈ chain_steps (_order ns) result → p ∈ _names ns ≫= chain_steps (_order ns).
Proof.
  intros Hns [_ Htable] Hne Hrun p Hp.
  rewrite <- corpus_transitions_chain_steps.
  destruct (make_name_raw_loop_chain self ns (_order ns) (_names ns) fuel eq_refl Htable
              EmptyString EmptyString w result w' Hns) as (suffix & -> & Hall).
  - by apply corpus_transitions_start.
  - exact Hrun.
  - apply Hall. simpl. by rewrite transitions_chain_steps.
Qed.

(** ** [change_order], [add], [append] *)

(** [change_order] with a natural number: the order is set, the table
    made again *)
Lemma run_change_order self ns (order : nat) w :
  objs w !! self = Some ns →
  change_order self (nat_Q order) w
  = (Ok tt, with_objs (<[self := set_markov_dict (make_markov_dict (_names ns) order)
                                   (set_order order ns)]> (objs w)) w).
Proof.
  intros Hns. unfold change_order.
  destruct (order_checks_nat_Q order) as [-> ->].
  rewrite py_int_nat_Q, Nat2Z.id.
  run_step ltac:(by apply run_modify_obj).
  erewrite run_make_markov_dict by (wsimpl; apply lookup_insert_eq).
  wsimpl. by rewrite insert_insert_eq.
Qed.

Lemma run_add_present self ns name w :
  objs w !! self = Some ns → name ∈ _names_set ns → add self name w = (Ok tt, w).
Proof.
  intros Hns Hin. unfold add.
  run_step ltac:(by apply run_contains). by rewrite bool_decide_true.
Qed.

Lemma run_add_absent self ns name w :
  objs w !! self = Some ns → name ∉ _names_set ns → add self name w = append self name w.
Proof.
  intros Hns Hin. unfold add.
  run_step ltac:(by apply run_contains). by rewrite bool_decide_false.
Qed.

Lemma run_append self ns name w :
  objs w !! self = Some ns → well_formed ns →
  ∃ w' ns',
    append self name w = (Ok tt, w') ∧ objs w' !! self = Some ns' ∧
    _names ns' = _names ns ++ [name] ∧ well_formed ns' ∧ settings_of ns ns'.
Proof.
  intros Hns Hwf.
  destruct (run_iadd self ns [name] w Hns Hwf) as (w' & ns' & Hrun & Hns' & Hrest).
  assert (_names ns ++ [name] ≠ []) as Hne by (by intros [_ ?]%app_eq_nil).
  destruct (Hrest Hne) as (Hnames & Hwf' & Hset).
  exists w', ns'. split; [|done]. unfold append.
  destruct (_names ns ++ [name]) eqn:E; [done|]. by erewrite run_bind by exact Hrun.
Qed.

(** ** Equality, [copy] *)

Lemma Qeq_bool_same x : Qeq_bool x x = true.
Proof. apply Qeq_bool_iff. reflexivity. Qed.

Lemma run_eq self o ns no h ho w :
  objs w !! self = Some ns → objs w !! o = Some no →
  hists w !! _history ns = Some h → hists w !! _history no = Some ho →
  __eq__ self (ONameSet o) w
  = (Ok (bool_decide (_names ns = _names no)
         && bool_decide (_names_set ns = _names_set no)
         && (_order ns =? _order no)%nat
         && func_is (_name_len_func ns) (_name_len_func no)
         && Qeq_bool (_avg_name_len ns) (_avg_name_len no)
         && bool_decide (_markov_dict ns = _markov_dict no)
         && bool_decide (h = ho)
         && Bool.eqb (_in_operation ns) (_in_operation no)), w).
Proof.
  intros Hns Hno Hh Hho. unfold __eq__.
  run_step ltac:(by apply run_get_obj).
  run_step ltac:(by apply run_get_obj).
  run_step ltac:(by apply run_get_hist).
  run_step ltac:(by apply run_get_hist).
  done.
Qed.

(** ** [estimate_syllables] *)

Lemma syllables_loop_ge letters : ∀ n s, n ≤ syllables_loop letters n s.
Proof.
  induction letters as [|c letters IH]; intros n s; cbn [syllables_loop]; [done|].
  repeat case_match; try apply IH; (etrans; [|apply IH]); lia.
Qed.

Lemma syllables_loop_app l1 l2 : ∀ n s,
  ∃ n' s', n ≤ n' ∧ syllables_loop (l1 ++ l2) n s = syllables_loop l2 n' s'.
Proof.
  induction l1 as [|c l1 IH]; intros n s.
  - by exists n, s.
  - simpl.
    repeat case_match;
      match goal with
      | |- ∃ _ _, _ ∧ syllables_loop _ ?m ?t = _ =>
          destruct (IH m t) as (n' & s' & Hle & ->); exists n', s'; split; [lia | done]
      end.
Qed.

Lemma last_snoc_inv {A} (l : list A) x : last l = Some x → ∃ l', l = l' ++ [x].
Proof.
  intros H. destruct l as [|y l _] using rev_ind; [done|].
  rewrite last_snoc in H. injection H as ->. by exists l.
Qed.

(** the estimate is 0 for the empty name only *)
Lemma estimate_syllables_nat_zero name :
  estimate_syllables_nat name = 0 ↔ name = EmptyString.
Proof.
  split; [|by intros ->]. unfold estimate_syllables_nat.
  destruct (last (list_ascii_of_string name)) as [final|] eqn:E.
  - intros H. exfalso. destruct (last_snoc_inv _ _ E) as [l Hl]. rewrite Hl in H.
    destruct (syllables_loop_app l [final] 0 1) as (n' & s' & _ & Hrun).
    rewrite Hrun in H. clear Hrun Hl E.
    cbn [syllables_loop] in H.
    destruct (add_syllable_chars final) as [k|] eqn:Ek.
    + assert (0 < k) as Hk.
      { unfold add_syllable_chars in Ek. repeat case_match; simplify_eq; lia. }
      rewrite bool_decide_true, andb_false_r in H by eauto. lia.
    + rewrite bool_decide_false, andb_true_r in H by (by intros [? ?]).
      destruct (in_str final " -"); simpl in H; [lia|].
      repeat case_match; lia.
  - intros _. apply string_list_inj. simpl.
    destruct (list_ascii_of_string name) as [|c l] using rev_ind; [done|].
    by rewrite last_snoc in E.
Qed.

Lemma syllables_loop_letters letters :
  Forall (λ c, is_digit c = false ∧ is_break c = false) letters →
  ∀ n,
    syllables_loop letters n 1 = n + pred (vowel_groups false letters)
    ∧ syllables_loop letters n 2 = n + vowel_groups true letters
    ∧ syllables_loop letters n 3 = n + vowel_groups false letters.
Proof.
  induction 1 as [|c letters [Hd Hb] _ IH]; intros n; [simpl; lia|].
  unfold is_digit in Hd. apply bool_decide_eq_false in Hd.
  cbn [syllables_loop vowel_groups].
  destruct (add_syllable_chars c) as [k|]; [by destruct Hd|].
  unfold is_break in Hb. rewrite Hb. fold (is_vowel c) (is_consonant c).
  destruct (IH n) as (H1 & H2 & H3). destruct (IH (n + 1)) as (H1' & H2' & H3').
  destruct (is_vowel c); [|destruct (is_consonant c)]; simpl; lia.
Qed.

(** ** [make_name_set] *)

Lemma run_make_name_set read other names (order : nat) f clean_up w :
  right_operand w other names →
  let h := fresh (dom (hists w)) in
  let l := fresh (dom (objs w)) in
  make_name_set read other (nat_Q order) f clean_up w
  = (Ok l, with_objs (<[l := new_name_set (if clean_up then clean names else names)
                                          order f h]> (objs w))
             (with_hists (<[h := ∅]> (hists w)) w)).
Proof.
  intros Hother h l. unfold make_name_set.
  pose proof (run_operand_names other names w Hother) as Hnames.
  destruct other as [s|o|ns]; [done | |].
  - erewrite run_bind by exact Hnames. apply run_init.
  - erewrite run_bind by exact Hnames. apply run_init.
Qed.

Lemma elem_of_clean name names :
  name ∈ clean names → name ≠ EmptyString ∧ strip_non_alnum name = name.
Proof.
  rewrite clean_filter, list_elem_of_fmap.
  intros (n & -> & [Hn _]%list_elem_of_filter). split.
  - rewrite strip_non_alnum_empty. by rewrite Hn.
  - apply strip_non_alnum_idem.
Qed.

(** ** The operators that return a new name-set, to their end *)

(** [A op B] through [A op= B] on the copy: where the copy is, and how
    the run ends from the outcome of the in-place operator *)
Lemma run_binary_op iop self ns s other w :
  (∀ c w, wp (iop c other) w (post {[c]} ∅ w (λ r _, r = c))) →
  objs w !! self = Some ns → hists w !! _history ns = Some s →
  ∃ c hc w2,
    objs w !! c = None ∧ hists w !! hc = None ∧
    objs w2 = <[c := set_in_operation true (set_history hc ns)]> (objs w) ∧
    hists w2 !! hc = Some s ∧
    (∀ h x, hists w !! h = Some x → hists w2 !! h = Some x) ∧
    ∀ r w3, iop c other w2 = (r, w3) →
      match r with
      | Ok _ =>
          ∃ nc3, objs w3 !! c = Some nc3 ∧ _history nc3 = hc ∧
            binary_op iop self other w
            = (Ok c, with_objs (<[c := set_in_operation false nc3]> (objs w3))
                       (with_hists (<[hc := ∅]> (hists w3)) w3))
      | Raise e => binary_op iop self other w = (Raise e, w3)
      | Diverge => binary_op iop self other w = (Diverge, w3)
      end.
Proof.
  intros Hframe Hns Hs.
  destruct (run_copy self ns s w Hns Hs)
    as (c & hc & w1 & Hcopy & Hc & Hhc & Hobjs1 & Hhists1 & Hold & _).
  set (nc := set_in_operation true (set_history hc ns)).
  exists c, hc, (with_objs (<[c := nc]> (objs w1)) w1).
  split; [done|]. split; [done|]. split.
  { wsimpl. rewrite Hobjs1, insert_insert_eq. done. }
  split; [done|]. split; [done|].
  intros r w3 Hrun.
  assert (binary_op iop self other w
          = (copy_set ← iop c other; clear_history copy_set;;
             modify_obj copy_set (set_in_operation false);; mret copy_set)
              (with_objs (<[c := nc]> (objs w1)) w1)) as ->.
  { unfold binary_op. run_step ltac:(exact Hcopy).
    run_step ltac:(apply run_modify_obj; rewrite Hobjs1; apply lookup_insert_eq).
    done. }
  pose proof (wp_run _ _ _ _ _ Hrun (Hframe c _)) as [Hm Hret].
  destruct r as [a|e|]; [|by unfold mbind, M_bind; rewrite Hrun..].
  rewrite (Hret a eq_refl) in *.
  destruct (mods_objs _ _ _ _ Hm c nc) as (nc3 & Hnc3 & Hh3 & _);
    [wsimpl; apply lookup_insert_eq|].
  destruct (mods_hists _ _ _ _ Hm hc s) as (s3 & Hs3 & _); [done|].
  exists nc3. split; [done|]. split; [done|].
  run_step ltac:(exact Hrun).
  run_step ltac:(eapply run_clear_history; [exact Hnc3 | rewrite Hh3; exact Hs3]).
  run_step ltac:(by apply run_modify_obj).
  by rewrite Hh3.
Qed.

Lemma well_formed_flag ns b hc :
  well_formed ns → well_formed (set_in_operation b (set_history hc ns)).
Proof. done. Qed.

Lemma right_operand_copy w w2 c nc other names :
  objs w !! c = None → objs w2 = <[c := nc]> (objs w) →
  right_operand w other names →
  operand_corpus w2 c other names ∧ right_operand w2 other names.
Proof.
  intros Hc Hobjs Hother. destruct other as [x|o|l]; simpl in *; [done | | done].
  destruct Hother as (no & Ho & Hrest).
  assert (o ≠ c) as Hne by (intros ->; congruence).
  assert (corpus w2 o names) as Hcorpus.
  { exists no. split; [|done]. by rewrite Hobjs, lookup_insert_ne. }
  done.
Qed.

(** [A - B], to its end *)
Lemma run_sub self ns s other names w :
  objs w !! self = Some ns → hists w !! _history ns = Some s → well_formed ns →
  right_operand w other names →
  ∃ w',
    if empties (_names ns) names
    then __sub__ self other w = (Raise ZeroDivisionError, w')
    else ∃ c nc,
           __sub__ self other w = (Ok c, w') ∧ objs w !! c = None ∧
           objs w' !! c = Some nc ∧ _names nc = sub_names (_names ns) names ∧
           well_formed nc ∧ _order nc = _order ns ∧
           _name_len_func nc = _name_len_func ns ∧
           hists w' !! _history nc = Some ∅.
Proof.
  intros Hns Hs Hwf Hother.
  destruct (run_binary_op __isub__ self ns s other w (λ c w, isub_frame c other w) Hns Hs)
    as (c & hc & w2 & Hc & Hhc & Hobjs2 & Hhc2 & Hold & Hend).
  set (nc := set_in_operation true (set_history hc ns)) in *.
  destruct (right_operand_copy w w2 c nc other names Hc Hobjs2 Hother) as [Ho2 _].
  destruct (run_isub c nc other names w2) as (w3 & nc3 & Hrun & Hnc3 & Hnames3 & Hrest);
    [rewrite Hobjs2; apply lookup_insert_eq | by apply well_formed_flag | done |].
  specialize (Hend _ _ Hrun). cbn [_names nc set_in_operation set_history] in *.
  destruct (empties (_names ns) names).
  - by exists w3.
  - destruct Hend as (nc3' & Hnc3' & Hh3 & Hbin).
    assert (nc3' = nc3) as -> by congruence.
    destruct (Hrest eq_refl) as (Hwf3 & Hord & Hf & _).
    eexists. exists c, (set_in_operation false nc3).
    split; [exact Hbin|]. split; [done|]. wsimpl.
    split; [apply lookup_insert_eq|]. split; [done|]. split; [done|].
    split; [done|]. split; [done|]. simpl. rewrite Hh3. apply lookup_insert_eq.
Qed.

(** * What the code guarantees

    The properties below are stated for any store and name-set; each one
    with hypotheses is followed by a run on a concrete store. *)

(** ** Cleaning, the table, the constructor *)

Lemma has_alnum_of_list l : has_alnum (string_of_list_ascii l) = existsb isalnum l.
Proof. unfold has_alnum. by rewrite list_ascii_of_string_of_list_ascii. Qed.

Lemma existsb_isalnum_false l : Forall (λ c, isalnum c = false) l → existsb isalnum l = false.
Proof. induction 1 as [|c l Hc _ IH]; simpl; [done | by rewrite Hc, IH]. Qed.

(** X1. [strip_non_alnum] takes a run of non-alphanumeric characters off
    each end of the string and nothing else: what it returns is empty, or
    begins and ends with an alphanumeric character. *)
Theorem strip_non_alnum_trims (s : string) :
  (∃ pre post : string,
     s = pre +:+ strip_non_alnum s +:+ post ∧
     has_alnum pre = false ∧ has_alnum post = false) ∧
  (∀ c rest, strip_non_alnum s = String c rest → isalnum c = true) ∧
  (∀ front c, strip_non_alnum s = front +:+ String c EmptyString → isalnum c = true).
Proof.
  destruct (core_spec (list_ascii_of_string s)) as (pre & post & Hs & Hpre & Hpost & Hends).
  rewrite <- strip_non_alnum_core in Hs, Hends. split; [|split].
  - exists (string_of_list_ascii pre), (string_of_list_ascii post). split; [|split].
    + apply string_list_inj.
      by rewrite !list_of_append, !list_ascii_of_string_of_list_ascii.
    + rewrite has_alnum_of_list. by apply existsb_isalnum_false.
    + rewrite has_alnum_of_list. by apply existsb_isalnum_false.
  - intros c rest E. rewrite E in Hends. simpl in Hends. by destruct Hends.
  - intros front c E. rewrite E, list_of_append in Hends. simpl in Hends.
    rewrite last_snoc in Hends.
    destruct (list_ascii_of_string front ++ [c]) eqn:El;
      [by destruct (list_ascii_of_string front)|].
    destruct Hends as (_ & c' & [= <-] & Hc). done.
Qed.

(** X2. [clean_blanks] keeps, in their order, the names that have an
    alphanumeric character and are not among [blank_names], and [clean]
    keeps the names that have an alphanumeric character, each without
    the other characters at its two ends. *)
Theorem clean_keeps_names_with_alnum (names blank_names : list string) :
  clean_blanks names blank_names
  = filter (λ n, has_alnum n = true ∧ n ∉ blank_names) names ∧
  clean names = strip_non_alnum <$> filter (λ n, has_alnum n = true) names.
Proof. split; [apply clean_blanks_filter | apply clean_filter]. Qed.

(** X3. Cleaning a cleaned list changes nothing: no name of [clean names]
    is empty, and none has a character to strip. *)
Theorem clean_idempotent (names : list string) :
  clean (clean names) = clean names ∧
  ∀ name, name ∈ clean names → name ≠ EmptyString ∧ strip_non_alnum name = name.
Proof.
  split; [|intros name; apply elem_of_clean].
  rewrite (clean_filter (clean names)).
  assert (∀ l : list string,
            (∀ n, n ∈ l → n ≠ EmptyString ∧ strip_non_alnum n = n) →
            strip_non_alnum <$> filter (λ n, has_alnum n = true) l = l) as Hfix.
  { induction l as [|n l IH]; intros Hl; [done|].
    destruct (Hl n) as [Hn Hstrip]; [apply elem_of_cons; by left|].
    rewrite filter_cons_True.
    - rewrite fmap_cons, Hstrip, IH; [done|].
      intros n' Hn'. apply Hl. apply elem_of_cons. by right.
    - apply not_false_iff_true. rewrite <- strip_non_alnum_empty. by rewrite Hstrip. }
  apply Hfix. intros n. apply elem_of_clean.
Qed.

(** X4. [make_name_set] with an order that is a natural number returns a
    new name-set of the names it is given, cleaned unless [clean_up] is
    false: the class invariant holds of it, its mean is right, and when
    cleaned none of its names is empty or has a character to strip. *)
Theorem make_name_set_cleans read (other : operand) (names : list string) (order : nat)
    (f : len_func) (clean_up : bool) (w : World) :
  names_given read w other names →
  ∃ l ns w',
    make_name_set read other (nat_Q order) f clean_up w = (Ok l, w') ∧
    objs w !! l = None ∧ objs w' !! l = Some ns ∧
    _names ns = (if clean_up then clean names else names) ∧
    _order ns = order ∧ _name_len_func ns = f ∧
    well_formed ns ∧ avg_ok ns ∧
    (clean_up = true →
     ∀ name, name ∈ _names ns → name ≠ EmptyString ∧ strip_non_alnum name = name).
Proof.
  intros Hgiven.
  assert (make_name_set read other (nat_Q order) f clean_up w
          = __init__ (if clean_up then clean names else names) (nat_Q order) f w) as ->.
  { unfold make_name_set. destruct other as [file|o|l]; simpl in Hgiven.
    - by erewrite run_bind by exact Hgiven.
    - by erewrite run_bind by (by apply (run_operand_names (ONameSet o))).
    - by erewrite run_bind by (by apply (run_operand_names (OColl l))). }
  rewrite run_init. eexists _, _, _. split; [done|].
  split; [apply fresh_obj_None|]. wsimpl. split; [apply lookup_insert_eq|].
  split; [done|]. split; [done|]. split; [done|].
  split; [apply new_name_set_well_formed|]. split; [apply new_name_set_avg_ok|].
  intros -> name. apply elem_of_clean.
Qed.

Lemma make_name_set_cleans_witness :
  ∃ l ns w',
    make_name_set (λ _, raise ValueError) (OColl ["(Ann)"; "--"; " Bob?"]%string)
                  (nat_Q 2) DEFAULT_NAME_LEN_FUNC true empty_world = (Ok l, w') ∧
    objs empty_world !! l = None ∧ objs w' !! l = Some ns ∧
    _names ns = clean ["(Ann)"; "--"; " Bob?"]%string ∧
    _order ns = 2 ∧ _name_len_func ns = DEFAULT_NAME_LEN_FUNC ∧
    well_formed ns ∧ avg_ok ns ∧
    (true = true →
     ∀ name, name ∈ _names ns → name ≠ EmptyString ∧ strip_non_alnum name = name).
Proof.
  apply (make_name_set_cleans (λ _, raise ValueError) (OColl ["(Ann)"; "--"; " Bob?"]%string)
           ["(Ann)"; "--"; " Bob?"]%string 2 DEFAULT_NAME_LEN_FUNC true empty_world).
  reflexivity.
Defined.

(** the cleaning of the docstring of [strip_non_alnum], and of a list *)
Example clean_examples :
  strip_non_alnum "? Test-string 2!" = "Test-string 2"%string ∧
  clean ["(Ann)"; "--"; " Bob?"; ""]%string = ["Ann"; "Bob"]%string.
Proof. vm_compute. split; reflexivity. Qed.

(** X5. The table that [_make_markov_dict] builds holds under every key
    the letters (and end markers) found in the names right after that
    key, that is after the last [order] letters or after all the letters
    when they are fewer, in the order of the corpus; a key that nothing
    follows is not in the table. *)
Theorem markov_dict_lookup (names : list string) (order : nat) (key : string) :
  make_markov_dict names order !! key
  = match following key (names ≫= chain_steps order) with
    | [] => None
    | l => Some l
    end.
Proof.
  rewrite (lookup_letters_at _ _ (no_empty_list_make_markov_dict names order)).
  by rewrite letters_at_make_markov_dict, corpus_transitions_chain_steps.
Qed.

(** the class invariant, by the positions of the names: [in] agrees with
    the corpus, and under every key every letter is found as many times
    as it follows the key in the names *)
Lemma well_formed_chain_steps (ns : NameSet) :
  well_formed ns ↔
  _names_set ns = list_to_set (_names ns) ∧ no_empty_list (_markov_dict ns) ∧
  ∀ key x, count x (letters_at (_markov_dict ns) key)
           = count x (following key (_names ns ≫= chain_steps (_order ns))).
Proof. unfold well_formed, table_of. by rewrite corpus_transitions_chain_steps. Qed.

(** X6. The constructor with an order that is a natural number returns a
    new name-set with a new, empty history; the class invariant holds of
    it (the membership set is the set of the corpus, the table is the
    table of the corpus) and its mean is right. *)
Theorem init_well_formed (names : list string) (order : nat) (f : len_func) (w : World) :
  ∃ l ns w',
    __init__ names (nat_Q order) f w = (Ok l, w') ∧
    objs w !! l = None ∧ objs w' !! l = Some ns ∧
    _names ns = names ∧ _order ns = order ∧ _name_len_func ns = f ∧
    well_formed ns ∧ avg_ok ns ∧
    hists w !! _history ns = None ∧ hists w' !! _history ns = Some ∅.
Proof.
  rewrite run_init. eexists _, _, _. split; [done|].
  split; [apply fresh_obj_None|]. wsimpl. split; [apply lookup_insert_eq|].
  split; [done|]. split; [done|]. split; [done|].
  split; [apply new_name_set_well_formed|]. split; [apply new_name_set_avg_ok|].
  split; [apply fresh_hist_None | apply lookup_insert_eq].
Qed.

(** ** [remove], [remove_duplicates], the in-place operators *)

Lemma greetings_at_0 : objs greetings_world !! 0 = Some greetings_set.
Proof. vm_compute. reflexivity. Qed.

(** X7. [remove] on a name-set of which the class invariant holds: a name
    that is not in the corpus raises [ValueError] and nothing is changed;
    a name of the corpus loses its first occurrence and the invariant
    holds again, and the call returns unless the name was the last one,
    where it raises [ZeroDivisionError] after the removal. *)
Theorem remove_total (self : loc) (ns : NameSet) (name : string) (w : World) :
  objs w !! self = Some ns → well_formed ns →
  (name ∉ _names ns → remove self name w = (Raise ValueError, w)) ∧
  (name ∈ _names ns →
   ∃ w' ns',
     remove self name w
     = (match remove_first name (_names ns) with
        | [] => Raise ZeroDivisionError
        | _ :: _ => Ok tt
        end, w') ∧
     objs w' !! self = Some ns' ∧
     _names ns' = remove_first name (_names ns) ∧ well_formed ns' ∧
     _order ns' = _order ns ∧ _name_len_func ns' = _name_len_func ns ∧
     _history ns' = _history ns).
Proof.
  intros Hns Hwf. split; [by apply run_remove_absent|]. intros Hin.
  destruct (run_remove self ns name w Hns Hwf Hin) as (d & w' & Hd & Hns' & Hrun).
  exists w', (removed ns name d). split; [done|]. split; [done|]. split; [done|].
  split; [by apply removed_well_formed | done].
Qed.

Lemma remove_total_witness :
  eval (remove 0 "ho") greetings_world = Raise ValueError ∧
  eval (remove 0 "hi") greetings_world = Ok tt ∧
  ∃ ns', objs (exec (remove 0 "hi") greetings_world) !! 0 = Some ns' ∧
         _names ns' = ["hello"; "hey"]%string ∧ well_formed ns'.
Proof.
  destruct (remove_total 0 greetings_set "ho" greetings_world) as [Habsent _];
    [vm_compute; reflexivity | apply new_name_set_well_formed |].
  destruct (remove_total 0 greetings_set "hi" greetings_world) as [_ Hin];
    [vm_compute; reflexivity | apply new_name_set_well_formed |].
  destruct Hin as (w' & ns' & Hrun & Hns' & Hnames & Hwf & _); [compute_done|].
  unfold eval, exec. rewrite Habsent by compute_done. rewrite Hrun.
  split; [reflexivity|]. split; [reflexivity|].
  exists ns'. split; [exact Hns'|]. split; [exact Hnames | exact Hwf].
Defined.





(** X10. [self -= self] does not empty a name-set: the iterator reads the
    list that [remove] shortens, and passes over every second name.  On a
    corpus without duplicates that has not exactly one name, the call
    returns and leaves the second, the fourth, ... name; with exactly one
    name it raises [ZeroDivisionError]. *)
Theorem isub_self_skips (self : loc) (ns : NameSet) (w : World) :
  objs w !! self = Some ns → well_formed ns → NoDup (_names ns) →
  (length (_names ns) ≠ 1 →
   ∃ w' ns',
     __isub__ self (ONameSet self) w = (Ok self, w') ∧
     objs w' !! self = Some ns' ∧ _names ns' = odd_items (_names ns) ∧
     well_formed ns') ∧
  (length (_names ns) = 1 →
   ∃ w', __isub__ self (ONameSet self) w = (Raise ZeroDivisionError, w')).
Proof.
  intros Hns Hwf Hnd. split.
  - intros H1.
    destruct (run_isub_self self ns w Hns Hwf Hnd H1) as (w' & ns' & ? & ? & ? & ? & ?).
    by exists w', ns'.
  - intros H1. destruct (_names ns) as [|name [|]] eqn:E; try done.
    by apply (run_isub_self_one self ns name).
Qed.

Lemma isub_self_skips_witness :
  ∃ w' ns',
    __isub__ 0 (ONameSet 0) greetings_world = (Ok 0, w') ∧
    objs w' !! 0 = Some ns' ∧ _names ns' = ["hi"]%string ∧ well_formed ns'.
Proof.
  destruct (isub_self_skips 0 greetings_set greetings_world) as [Hskip _];
    [vm_compute; reflexivity | apply new_name_set_well_formed | compute_done |].
  apply Hskip. compute_done.
Defined.



(** X12. [self |= other], for a collection or a name-set, on a name-set
    of which the class invariant holds: it raises [ZeroDivisionError]
    exactly when the two corpora are both empty; otherwise it returns
    [self] with every name of either corpus once, each at the place of
    its last occurrence in the corpus followed by the new names, and the
    invariant holds again. *)
Theorem ior_total (self : loc) (ns : NameSet) (other : operand) (names : list string)
    (w : World) :
  objs w !! self = Some ns → well_formed ns → right_operand w other names →
  (_names ns ++ names = [] →
   ∃ w', __ior__ self other w = (Raise ZeroDivisionError, w')) ∧
  (_names ns ++ names ≠ [] →
   ∃ w' ns',
     __ior__ self other w = (Ok self, w') ∧ objs w' !! self = Some ns' ∧
     _names ns' = remove_dups (_names ns ++ new_names (_names ns) names) ∧
     NoDup (_names ns') ∧ (∀ x, x ∈ _names ns' ↔ x ∈ _names ns ∨ x ∈ names) ∧
     well_formed ns' ∧ _order ns' = _order ns ∧
     _name_len_func ns' = _name_len_func ns ∧ _history ns' = _history ns).
Proof.
  intros Hns Hwf Hother.
  destruct (run_ior self ns other names w Hns Hwf Hother)
    as (w' & ns' & Hrun & Hns' & Hrest).
  split.
  - intros E. rewrite E in Hrun. by exists w'.
  - intros Hne. destruct (Hrest Hne) as (Hnames & Hwf' & ? & ? & ? & _).
    exists w', ns'. destruct (_names ns ++ names) eqn:E; [done|].
    split_and!; try done.
    + rewrite Hnames. apply NoDup_remove_dups.
    + intros x. by rewrite Hnames, elem_of_remove_dups, elem_of_new_names.
Qed.

Lemma ior_total_witness :
  ∃ w' ns',
    __ior__ 0 (OColl ["ho"; "hi"; "ho"]%string) greetings_world = (Ok 0, w') ∧
    objs w' !! 0 = Some ns' ∧
    _names ns' = ["hello"; "hi"; "hey"; "ho"]%string ∧ well_formed ns'.
Proof.
  destruct (ior_total 0 greetings_set (OColl ["ho"; "hi"; "ho"]%string)
              ["ho"; "hi"; "ho"]%string greetings_world) as [_ Hor];
    [vm_compute; reflexivity | apply new_name_set_well_formed | reflexivity |].
  destruct Hor as (w' & ns' & Hrun & Hns' & Hnames & _ & _ & Hwf & _); [discriminate|].
  exists w', ns'. split; [exact Hrun|]. split; [exact Hns'|].
  split; [exact Hnames | exact Hwf].
Defined.

(** X13. [self &= other], for a collection or a name-set, always returns
    [self], also when no name is left: the corpus is made of the names of
    the corpus that [other] still has, each use taking one occurrence
    away there; the table and the mean are made again, so that the class
    invariant holds and the mean is right whatever they were before. *)
Theorem iand_total (self : loc) (ns : NameSet) (other : operand) (names : list string)
    (w : World) :
  objs w !! self = Some ns → right_operand w other names →
  ∃ w' ns',
    __iand__ self other w = (Ok self, w') ∧ objs w' !! self = Some ns' ∧
    _names ns' = shared_names (_names ns) names ∧
    well_formed ns' ∧ avg_ok ns' ∧
    _order ns' = _order ns ∧ _name_len_func ns' = _name_len_func ns ∧
    _history ns' = _history ns.
Proof.
  intros Hns Hother.
  destruct (run_iand self ns other names w Hns Hother) as (ws & Hrun).
  destruct (iand_result_well_formed ns names) as [Hwf Havg].
  eexists _, (iand_result ns names). split; [exact Hrun|]. wsimpl.
  split; [apply lookup_insert_eq | done].
Qed.

Lemma iand_total_witness :
  ∃ w' ns',
    __iand__ 0 (OColl ["ho"]%string) greetings_world = (Ok 0, w') ∧
    objs w' !! 0 = Some ns' ∧ _names ns' = [] ∧ well_formed ns' ∧ avg_ok ns'.
Proof.
  destruct (iand_total 0 greetings_set (OColl ["ho"]%string) ["ho"]%string greetings_world)
    as (w' & ns' & Hrun & Hns' & Hnames & Hwf & Havg & _);
    [vm_compute; reflexivity | reflexivity |].
  exists w', ns'. split; [exact Hrun|]. split; [exact Hns'|].
  split; [exact Hnames|]. split; [exact Hwf | exact Havg].
Defined.

(** ** [change_order], [add], iteration, [copy], [-] and [&] *)

(** X14. [change_order] with a natural number returns and makes the
    table again: it is the table of a new name-set of that order,
    whatever it was before, and the class invariant holds as soon as the
    membership set was right; the corpus, the metric, the mean and the
    history are kept.  With an order that is no integer or is negative,
    it raises [ValueError] and changes nothing. *)
Theorem change_order_rebuilds (self : loc) (ns : NameSet) (w : World) :
  objs w !! self = Some ns →
  (∀ order : nat,
     ∃ w' ns',
       change_order self (nat_Q order) w = (Ok tt, w') ∧ objs w' !! self = Some ns' ∧
       _order ns' = order ∧ _markov_dict ns' = make_markov_dict (_names ns) order ∧
       _names ns' = _names ns ∧ _name_len_func ns' = _name_len_func ns ∧
       _avg_name_len ns' = _avg_name_len ns ∧ _history ns' = _history ns ∧
       (_names_set ns = list_to_set (_names ns) → well_formed ns')) ∧
  (∀ order : Q,
     ¬ (inject_Z (py_int order) == order)%Q ∨ (order < 0)%Q →
     change_order self order w = (Raise ValueError, w)).
Proof.
  intros Hns. split.
  - intros order. eexists _, _. split; [by apply run_change_order|]. wsimpl.
    split; [apply lookup_insert_eq|]. split_and!; try done.
    intros Hset. split; [done | apply table_of_make_markov_dict].
  - intros order Hbad. unfold change_order.
    destruct (Qeq_bool (inject_Z (py_int order)) order) eqn:E; simpl; [|done].
    destruct (Qle_bool 0 order) eqn:L; simpl; [|done].
    apply Qeq_bool_iff in E. apply Qle_bool_iff in L.
    destruct Hbad as [Hn|Hlt]; [done|]. by apply Qlt_not_le in Hlt.
Qed.

Lemma change_order_rebuilds_witness :
  (∃ w' ns',
     change_order 0 (nat_Q 1) greetings_world = (Ok tt, w') ∧ objs w' !! 0 = Some ns' ∧
     _order ns' = 1 ∧ _markov_dict ns' = make_markov_dict greetings 1) ∧
  change_order 0 (1 # 2) greetings_world = (Raise ValueError, greetings_world).
Proof.
  destruct (change_order_rebuilds 0 greetings_set greetings_world) as [Hok Hbad];
    [vm_compute; reflexivity|].
  split.
  - destruct (Hok 1) as (w' & ns' & Hrun & Hns' & Hord & Hd & _).
    exists w', ns'. split; [exact Hrun|]. split; [exact Hns'|]. split; [exact Hord | exact Hd].
  - apply Hbad. left. intros H. vm_compute in H. discriminate.
Defined.

(** X15. [add] on a name-set of which the class invariant holds does
    nothing for a name of the corpus, and puts any other name at the end;
    so it never makes a duplicate. *)
Theorem add_keeps_distinct (self : loc) (ns : NameSet) (name : string) (w : World) :
  objs w !! self = Some ns → well_formed ns →
  (name ∈ _names ns → add self name w = (Ok tt, w)) ∧
  (name ∉ _names ns →
   ∃ w' ns',
     add self name w = (Ok tt, w') ∧ objs w' !! self = Some ns' ∧
     _names ns' = _names ns ++ [name] ∧ well_formed ns' ∧
     (NoDup (_names ns) → NoDup (_names ns'))).
Proof.
  intros Hns Hwf. pose proof Hwf as [Hset _]. split.
  - intros Hin. apply (run_add_present self ns); [done|].
    rewrite Hset. by apply elem_of_list_to_set.
  - intros Hin.
    destruct (run_append self ns name w Hns Hwf) as (w' & ns' & Hrun & Hns' & Hnames & Hwf' & _).
    exists w', ns'. split.
    { rewrite (run_add_absent self ns); [done | done |].
      rewrite Hset. by rewrite elem_of_list_to_set. }
    split; [done|]. split; [done|]. split; [done|].
    intros Hnd. rewrite Hnames. apply NoDup_app. split; [done|]. split.
    + intros x Hx ->%list_elem_of_singleton. done.
    + apply NoDup_singleton.
Qed.

Lemma add_keeps_distinct_witness :
  add 0 "hi" greetings_world = (Ok tt, greetings_world) ∧
  ∃ w' ns',
    add 0 "ho" greetings_world = (Ok tt, w') ∧ objs w' !! 0 = Some ns' ∧
    _names ns' = ["hello"; "hi"; "hey"; "ho"]%string.
Proof.
  destruct (add_keeps_distinct 0 greetings_set "hi" greetings_world) as [Hin _];
    [vm_compute; reflexivity | apply new_name_set_well_formed |].
  destruct (add_keeps_distinct 0 greetings_set "ho" greetings_world) as [_ Hout];
    [vm_compute; reflexivity | apply new_name_set_well_formed |].
  split; [apply Hin; compute_done|].
  destruct Hout as (w' & ns' & Hrun & Hns' & Hnames & _); [compute_done|].
  exists w', ns'. split; [exact Hrun|]. split; [exact Hns' | exact Hnames].
Defined.

(** X16. A [for] loop over a name-set whose body leaves that name-set as
    it is visits the names of the corpus, in their order: the iterator,
    which reads the list by index at every step, does what a loop over
    the list does. *)
Theorem iteration_visits_names (o : loc) (no : NameSet) (body : string → M unit)
    (w : World) :
  objs w !! o = Some no →
  (∀ x w r w', body x w = (r, w') → objs w !! o = Some no → objs w' !! o = Some no) →
  for_operand (ONameSet o) body w = for_each (_names no) body w.
Proof.
  intros Ho Hbody. rewrite (run_for_operand_name_set o no) by done.
  by apply (run_iter_name_set o no body Hbody (_names no) []).
Qed.

Lemma iteration_visits_names_witness :
  for_operand (ONameSet 0) (λ name, put_banned_words {[ name ]}) greetings_world
  = for_each greetings (λ name, put_banned_words {[ name ]}) greetings_world.
Proof.
  apply (iteration_visits_names 0 greetings_set (λ name, put_banned_words {[ name ]})
           greetings_world).
  - vm_compute. reflexivity.
  - intros x w r w' [= _ <-] Ho. exact Ho.
Defined.

(** X17. [copy] returns a new name-set that [==] finds equal to the one
    copied (when that one is not inside an operator), with a history set
    of its own that holds the same names; the name-set copied is as it
    was. *)
Theorem copy_equal (self : loc) (ns : NameSet) (s : gset string) (w : World) :
  objs w !! self = Some ns → hists w !! _history ns = Some s → _in_operation ns = false →
  ∃ c nc w',
    copy self w = (Ok c, w') ∧ objs w !! c = None ∧
    objs w' !! c = Some nc ∧ objs w' !! self = Some ns ∧
    _history nc ≠ _history ns ∧
    hists w' !! _history nc = Some s ∧ hists w' !! _history ns = Some s ∧
    __eq__ c (ONameSet self) w' = (Ok true, w') ∧
    __eq__ self (ONameSet c) w' = (Ok true, w').
Proof.
  intros Hns Hs Hop.
  destruct (run_copy self ns s w Hns Hs)
    as (c & hc & w' & Hrun & Hc & Hhc & Hobjs & Hhc' & Hold & _).
  assert (c ≠ self) as Hne by (intros ->; congruence).
  assert (objs w' !! c = Some (set_in_operation false (set_history hc ns))) as Hc'.
  { rewrite Hobjs. apply lookup_insert_eq. }
  assert (objs w' !! self = Some ns) as Hns'.
  { rewrite Hobjs. by rewrite lookup_insert_ne. }
  assert (hc ≠ _history ns) as Hh by (intros ->; congruence).
  exists c, (set_in_operation false (set_history hc ns)), w'.
  split_and!; try done; [by apply Hold | |].
  - rewrite (run_eq c self _ ns s s w') by (done || by apply Hold). simpl.
    rewrite !bool_decide_true, Nat.eqb_refl, Hop by done.
    unfold func_is. rewrite Nat.eqb_refl, Qeq_bool_same. done.
  - rewrite (run_eq self c ns _ s s w') by (done || by apply Hold). simpl.
    rewrite !bool_decide_true, Nat.eqb_refl, Hop by done.
    unfold func_is. rewrite Nat.eqb_refl, Qeq_bool_same. done.
Qed.

Lemma copy_equal_witness :
  ∃ c w',
    copy 0 greetings_world = (Ok c, w') ∧ objs greetings_world !! c = None ∧
    __eq__ c (ONameSet 0) w' = (Ok true, w').
Proof.
  destruct (copy_equal 0 greetings_set ∅ greetings_world)
    as (c & nc & w' & Hrun & Hc & _ & _ & _ & _ & _ & Heq & _);
    [vm_compute; reflexivity | vm_compute; reflexivity | reflexivity |].
  exists c, w'. split; [exact Hrun|]. split; [exact Hc | exact Heq].
Defined.

(** X18. [A - B], for a collection or a name-set [B], where the class
    invariant holds of [A]: it raises [ZeroDivisionError] exactly when
    the corpus of [A] is not empty and [B] holds every name of it as many
    times; otherwise it returns a new name-set, of which the invariant
    holds, with the corpus of [A] less one occurrence for every name of
    [B], the order and the metric of [A] and an empty history. *)
Theorem sub_total (A : loc) (ns : NameSet) (s : gset string) (B : operand)
    (names : list string) (w : World) :
  objs w !! A = Some ns → hists w !! _history ns = Some s → well_formed ns →
  right_operand w B names →
  ∃ w',
    (_names ns ≠ [] ∧ covered (_names ns) names) ∧
    __sub__ A B w = (Raise ZeroDivisionError, w')
    ∨ ¬ (_names ns ≠ [] ∧ covered (_names ns) names) ∧
      ∃ c nc,
        __sub__ A B w = (Ok c, w') ∧ objs w !! c = None ∧
        objs w' !! c = Some nc ∧ _names nc = sub_names (_names ns) names ∧
        well_formed nc ∧ _order nc = _order ns ∧
        _name_len_func nc = _name_len_func ns ∧
        hists w' !! _history nc = Some ∅.
Proof.
  intros Hns Hs Hwf Hother.
  destruct (run_sub A ns s B names w Hns Hs Hwf Hother) as [w' Hrun].
  exists w'. destruct (empties (_names ns) names) eqn:E.
  - left. by apply empties_iff in E.
  - right. split; [by rewrite <- empties_iff, E | done].
Qed.

Lemma sub_total_witness :
  (∃ w', __sub__ 0 (ONameSet 0) greetings_world = (Raise ZeroDivisionError, w')) ∧
  ∃ c nc w',
    __sub__ 0 (OColl ["hi"; "ho"]%string) greetings_world = (Ok c, w') ∧
    objs w' !! c = Some nc ∧ _names nc = ["hello"; "hey"]%string.
Proof.
  split.
  - destruct (sub_total 0 greetings_set ∅ (ONameSet 0) greetings greetings_world)
      as (w' & [[_ Hrun]|[Hnot _]]);
      [vm_compute; reflexivity | vm_compute; reflexivity | apply new_name_set_well_formed
       | exists greetings_set; split; [vm_compute; reflexivity | split; reflexivity] | |].
    + exists w'. exact Hrun.
    + destruct Hnot. split; [discriminate | intros x; reflexivity].
  - destruct (sub_total 0 greetings_set ∅ (OColl ["hi"; "ho"]%string) ["hi"; "ho"]%string
                greetings_world)
      as (w' & [[[_ Hcov] _]|(_ & c & nc & Hrun & _ & Hc & Hnames & _)]);
      [vm_compute; reflexivity | vm_compute; reflexivity | apply new_name_set_well_formed
       | reflexivity | |].
    + specialize (Hcov "hello"%string). vm_compute in Hcov. lia.
    + exists c, nc, w'. split; [exact Hrun|]. split; [exact Hc | exact Hnames].
Defined.

(** X19. [A & B], for a collection or a name-set [B], always returns a
    new name-set, also when the two share no name: of it the class
    invariant holds and the mean is right; its corpus is made of the
    names of [A] that [B] still has, each use taking one occurrence away
    there, and its history is empty. *)
Theorem and_total (A : loc) (ns : NameSet) (s : gset string) (B : operand)
    (names : list string) (w : World) :
  objs w !! A = Some ns → hists w !! _history ns = Some s →
  right_operand w B names →
  ∃ w' c nc,
    __and__ A B w = (Ok c, w') ∧ objs w !! c = None ∧
    objs w' !! c = Some nc ∧ _names nc = shared_names (_names ns) names ∧
    well_formed nc ∧ avg_ok nc ∧ _order nc = _order ns ∧
    _name_len_func nc = _name_len_func ns ∧
    hists w' !! _history nc = Some ∅.
Proof.
  intros Hns Hs Hother.
  destruct (run_binary_op __iand__ A ns s B w (λ c w, iand_frame c B w) Hns Hs)
    as (c & hc & w2 & Hc & Hhc & Hobjs2 & Hhc2 & Hold & Hend).
  set (nc := set_in_operation true (set_history hc ns)) in *.
  destruct (right_operand_copy w w2 c nc B names Hc Hobjs2 Hother) as [_ Ho2].
  destruct (run_iand c nc B names w2) as (ws & Hrun);
    [rewrite Hobjs2; apply lookup_insert_eq | done |].
  destruct (Hend _ _ Hrun) as (nc3 & Hnc3 & Hh3 & Hbin).
  cbn [objs with_warnings with_objs] in Hnc3.
  rewrite lookup_insert_eq in Hnc3. injection Hnc3 as <-.
  destruct (iand_result_well_formed nc names) as [Hwf3 Havg3].
  eexists. exists c, (set_in_operation false (iand_result nc names)).
  split; [exact Hbin|]. split; [done|]. wsimpl.
  split; [apply lookup_insert_eq|]. split; [done|]. split; [done|].
  split; [done|]. split; [done|]. split; [done|]. simpl. apply lookup_insert_eq.
Qed.

Lemma and_total_witness :
  ∃ w' c nc,
    __and__ 0 (OColl ["ho"]%string) greetings_world = (Ok c, w') ∧
    objs w' !! c = Some nc ∧ _names nc = [].
Proof.
  destruct (and_total 0 greetings_set ∅ (OColl ["ho"]%string) ["ho"]%string greetings_world)
    as (w' & c & nc & Hrun & _ & Hc & Hnames & _);
    [vm_compute; reflexivity | vm_compute; reflexivity | reflexivity |].
  exists w', c, nc. split; [exact Hrun|]. split; [exact Hc | exact Hnames].
Defined.

(** ** Generation, [estimate_syllables] *)

(** X20. Every letter of a name that [_make_name_raw] returns follows, in
    some name of the corpus, the letters that precede it in the generated
    name (the last [order] of them, or all of them when they are fewer),
    and the generated name ends where some name of the corpus ends after
    the same letters. *)
Theorem generated_name_follows_corpus (self : loc) (ns : NameSet) (fuel : nat)
    (w w' : World) (result : string) :
  objs w !! self = Some ns → well_formed ns → _names ns ≠ [] →
  _make_name_raw fuel self w = (Ok result, w') →
  ∀ i, i ≤ String.length result →
    ∃ name j,
      name ∈ _names ns ∧ j ≤ String.length name ∧
      key_at (_order ns) name j = key_at (_order ns) result i ∧
      String.get j name = String.get i result.
Proof.
  intros Hns Hwf Hne Hrun i Hi.
  pose proof (make_name_raw_steps self ns fuel w result w' Hns Hwf Hne Hrun
                (key_at (_order ns) result i, String.get i result)) as Hstep.
  rewrite list_elem_of_bind in Hstep.
  destruct Hstep as (name & Hin & Hname).
  { apply elem_of_chain_steps. by exists i. }
  apply elem_of_chain_steps in Hin as (j & Hj & Hkey & Hget).
  by exists name, j.
Qed.

Lemma generated_name_follows_corpus_witness :
  _make_name_raw 10 0 yellow_world = (Ok "hellow"%string, with_rng_pos 7 yellow_world) ∧
  ∀ i, i ≤ 6 →
    ∃ name j,
      name ∈ yellow_names ∧ j ≤ String.length name ∧
      key_at 2 name j = key_at 2 "hellow" i ∧ String.get j name = String.get i "hellow".
Proof.
  assert (_make_name_raw 10 0 yellow_world
          = (Ok "hellow"%string, with_rng_pos 7 yellow_world)) as Hrun
    by (vm_compute; reflexivity).
  split; [exact Hrun|].
  apply (generated_name_follows_corpus 0 yellow_set 10 yellow_world
           (with_rng_pos 7 yellow_world) "hellow").
  - vm_compute. reflexivity.
  - apply new_name_set_well_formed.
  - discriminate.
  - exact Hrun.
Defined.

(** X21. With an order that no name of the corpus exceeds, the chain can
    only follow one name to its end: [_make_name_raw] returns, within
    [order + 1] turns of its loop, a name of the corpus, and changes
    nothing but the position of the rng. *)
Theorem make_name_raw_covering_order (self : loc) (ns : NameSet) (fuel : nat) (w : World) :
  objs w !! self = Some ns → well_formed ns → _names ns ≠ [] →
  (∀ n, n ∈ _names ns → String.length n ≤ _order ns) →
  _order ns < fuel →
  ∃ result w',
    _make_name_raw fuel self w = (Ok result, w') ∧
    result ∈ _names ns ∧ same_but_rng w w'.
Proof. apply run_make_name_raw_uncut. Qed.

Lemma make_name_raw_covering_order_witness :
  ∃ result w',
    _make_name_raw 6 0 greetings_5 = (Ok result, w') ∧
    result ∈ greetings ∧ same_but_rng greetings_5 w'.
Proof.
  apply (make_name_raw_covering_order 0 (new_name_set greetings 5 DEFAULT_NAME_LEN_FUNC 0)
           6 greetings_5).
  - vm_compute. reflexivity.
  - apply new_name_set_well_formed.
  - discriminate.
  - intros n Hn. simpl in Hn. unfold greetings in Hn.
    repeat (apply elem_of_cons in Hn as [->|Hn]; [simpl; lia|]).
    by apply elem_of_nil in Hn.
  - simpl. lia.
Defined.

(** X22. With an order that no name of the corpus exceeds and real names
    excluded, [make_name] finds no candidate and returns the empty
    string, however many attempts it is given. *)
Theorem make_name_covering_order (self : loc) (ns : NameSet) (hist : gset string)
    (fuel : nat) (args : kw.t) (w : World) :
  objs w !! self = Some ns → hists w !! _history ns = Some hist →
  well_formed ns → _names ns ≠ [] →
  (∀ n, n ∈ _names ns → String.length n ≤ _order ns) →
  _order ns < fuel → kw.exclude_real_names args = true →
  ∃ w', make_name fuel self args w = (Ok EmptyString, w') ∧ same_but_rng w w'.
Proof.
  intros Hns Hh Hwf Hne Hlen Hfuel Hex.
  destruct (run_candidates_loop_uncut self ns hist fuel args Hwf Hne Hlen Hfuel Hex
              (kw.n_candidates args) [] w Hns Hh) as (w' & Hrun & Hrng).
  exists w'. split; [|done]. unfold make_name. by erewrite run_bind by exact Hrun.
Qed.

Lemma make_name_covering_order_witness :
  ∃ w', make_name 6 0 (kw.mk true true true 2 AVG 3 None) greetings_5
        = (Ok EmptyString, w') ∧ same_but_rng greetings_5 w'.
Proof.
  apply (make_name_covering_order 0 (new_name_set greetings 5 DEFAULT_NAME_LEN_FUNC 0) ∅
           6 (kw.mk true true true 2 AVG 3 None) greetings_5).
  - vm_compute. reflexivity.
  - vm_compute. reflexivity.
  - apply new_name_set_well_formed.
  - discriminate.
  - intros n Hn. simpl in Hn. unfold greetings in Hn.
    repeat (apply elem_of_cons in Hn as [->|Hn]; [simpl; lia|]).
    by apply elem_of_nil in Hn.
  - simpl. lia.
  - reflexivity.
Defined.

(** X23. [_make_name_raw] raises nothing, whatever the table holds: a key
    that is missing and a key with no letter end the name. *)
Theorem make_name_raw_never_raises (self : loc) (ns : NameSet) (fuel : nat) (w : World)
    (e : exn) :
  objs w !! self = Some ns →
  eval (_make_name_raw fuel self) w ≠ Raise e.
Proof. intros Hns. by apply (make_name_raw_loop_no_raise self ns). Qed.

Lemma make_name_raw_never_raises_witness :
  eval (_make_name_raw 10 0) greetings_world ≠ Raise KeyError.
Proof.
  apply (make_name_raw_never_raises 0 greetings_set 10 greetings_world KeyError).
  vm_compute. reflexivity.
Defined.

(** X24. [estimate_syllables] is 0 for the empty name only. *)
Theorem estimate_syllables_zero_iff (name : string) :
  (lf_call estimate_syllables name == 0)%Q ↔ name = EmptyString.
Proof.
  rewrite <- estimate_syllables_nat_zero. simpl. unfold nat_Q.
  change 0%Q with (inject_Z 0). rewrite inject_Z_injective. lia.
Qed.

(** X25. For a name without digits, spaces and hyphens,
    [estimate_syllables] counts the groups of vowels that consonants
    separate, and gives 1 when there is none. *)
Theorem estimate_syllables_vowel_groups (name : string) :
  name ≠ EmptyString →
  Forall (λ c, is_digit c = false ∧ is_break c = false) (list_ascii_of_string name) →
  estimate_syllables_nat name
  = Nat.max 1 (vowel_groups false (list_ascii_of_string name)).
Proof.
  intros Hne Hall. unfold estimate_syllables_nat.
  destruct (last (list_ascii_of_string name)) as [final|] eqn:E.
  - assert (is_digit final = false ∧ is_break final = false) as [Hd Hb].
    { rewrite Forall_forall in Hall. apply Hall.
      destruct (last_snoc_inv _ _ E) as [l ->]. apply elem_of_app. right.
      apply elem_of_cons. by left. }
    unfold is_digit in Hd. unfold is_break in Hb. rewrite Hb, Hd. simpl.
    destruct (syllables_loop_letters _ Hall 0) as (-> & _). lia.
  - destruct Hne. apply string_list_inj. simpl.
    destruct (list_ascii_of_string name) as [|c l] using rev_ind; [done|].
    by rewrite last_snoc in E.
Qed.

Lemma estimate_syllables_vowel_groups_witness :
  estimate_syllables_nat "antidisestablishmentarianism"
  = Nat.max 1 (vowel_groups false (list_ascii_of_string "antidisestablishmentarianism")).
Proof.
  apply (estimate_syllables_vowel_groups "antidisestablishmentarianism").
  - discriminate.
  - compute_done.
Defined.

(** the two estimates that the docstring of [estimate_syllables] gives *)
Example estimate_syllables_docstring :
  estimate_syllables_nat "antidisestablishmentarianism" = 10 ∧
  estimate_syllables_nat "The quick brown fox jumped over the lazy dog." = 12.
Proof. vm_compute. split; reflexivity. Qed.
